(** * Bacchus: the Widmark blood-alcohol estimator of [src/App.tsx]

    The component computes with JavaScript [number]s, which are IEEE-754
    binary64 values.  They are modelled by Rocq's primitive [float]
    (binary64, round to nearest, ties to even), so that every arithmetic
    operator of the source is the very same operator in the model.  The
    properties that hold for all inputs are proved through the
    specification of the primitive operators ([FloatAxioms]) and a
    rational-valued semantics of rounding developed below. *)

From Stdlib Require Import ZArith QArith Qround Qpower Qabs Lia Lqa.
From Stdlib Require Import Floats Bool List String Ascii.
From Stdlib Require Import DecimalString DecimalN DecimalFacts.
Import ListNotations.
Set Warnings "-inexact-float".


(** * Part I: the program *)

Local Open Scope float_scope.

(** ** JavaScript [number] operations used by the component *)

Module JS.
Local Open Scope float_scope.

(** [ToBoolean] on a number, negated: [!x] holds of [+0], [-0] and [NaN]. *)
Definition not (x : float) : bool := is_zero x || is_nan x.

(** [Math.max(x, y)]: [NaN] if either argument is [NaN]; otherwise the
    larger one, with [+0] counted larger than [-0]. *)
Definition Math_max (x y : float) : float :=
  if is_nan x || is_nan y then nan
  else if x <? y then y
  else if y <? x then x
  else if get_sign x then y else x.

End JS.

(** ** Constants and types (App.tsx, lines 3-22) *)

Local Open Scope float_scope.

Definition ETHANOL_DENSITY : float := 0.789.
Definition R_MALE : float := 0.68.
Definition R_FEMALE : float := 0.55.
Definition BETA : float := 0.15.
Definition LEGAL_LIMIT : float := 0.5.

Record Drink := mkDrink {
  id : string;
  label : string;
  volumeMl : float;
  abv : float
}.

Inductive Sex := male | female.

(** ** The memoised values of [AlcoholCalculator] (lines 42-66), each a
    function of its dependency list *)

(** [const r = sex === "male" ? R_MALE : R_FEMALE] *)
Definition r (sex : Sex) : float :=
  match sex with male => R_MALE | female => R_FEMALE end.

(** One step of the [reduce] callback: [sum + d.volumeMl * (d.abv / 100) * ETHANOL_DENSITY]. *)
Definition addDrinkGrams (sum : float) (d : Drink) : float :=
  sum + volumeMl d * (abv d / 100) * ETHANOL_DENSITY.

(** [drinks.reduce((sum, d) => ..., 0)] *)
Definition gramsPureAlcohol (drinks : list Drink) : float :=
  fold_left addDrinkGrams drinks 0.

(** [if (!weight || weight <= 0) return 0; return gramsPureAlcohol / (weight * r)] *)
Definition peakBAC (grams rr weight : float) : float :=
  if JS.not weight || (weight <=? 0) then 0
  else grams / (weight * rr).

(** [Math.max(0, peakBAC - BETA * Math.max(0, hoursSinceStart))] *)
Definition currentBAC (peak hoursSinceStart : float) : float :=
  JS.Math_max 0 (peak - BETA * JS.Math_max 0 hoursSinceStart).

(** [if (currentBAC <= LEGAL_LIMIT) return 0; return (currentBAC - LEGAL_LIMIT) / BETA] *)
Definition hoursToLegal (current : float) : float :=
  if current <=? LEGAL_LIMIT then 0
  else (current - LEGAL_LIMIT) / BETA.

(** [currentBAC / BETA] *)
Definition hoursToZero (current : float) : float := current / BETA.

(** The component state and the five values it derives on each render. *)
Record State := mkState {
  st_sex : Sex;
  st_weight : float;
  st_hoursSinceStart : float;
  st_drinks : list Drink
}.

Record Outputs := mkOutputs {
  out_grams : float;
  out_peakBAC : float;
  out_currentBAC : float;
  out_hoursToLegal : float;
  out_hoursToZero : float
}.

Definition render (s : State) : Outputs :=
  let grams := gramsPureAlcohol (st_drinks s) in
  let peak := peakBAC grams (r (st_sex s)) (st_weight s) in
  let current := currentBAC peak (st_hoursSinceStart s) in
  mkOutputs grams peak current (hoursToLegal current) (hoursToZero current).

(** ** The list handlers (lines 78-82) *)

(** [Partial<Drink>]: every field is present or absent. *)
Record DrinkPatch := mkPatch {
  patch_id : option string;
  patch_label : option string;
  patch_volumeMl : option float;
  patch_abv : option float
}.

(** The object spread [{ ...d, ...patch }]: the fields of [patch] override
    those of [d]. *)
Definition spread (d : Drink) (patch : DrinkPatch) : Drink :=
  mkDrink (match patch_id patch with Some v => v | None => id d end)
          (match patch_label patch with Some v => v | None => label d end)
          (match patch_volumeMl patch with Some v => v | None => volumeMl d end)
          (match patch_abv patch with Some v => v | None => abv d end).

(** [setDrinks(updater)]: only the drink list of the state changes. *)
Definition setDrinks (updater : list Drink -> list Drink) (s : State) : State :=
  mkState (st_sex s) (st_weight s) (st_hoursSinceStart s) (updater (st_drinks s)).

(** [setDrinks((s) => s.map((d) => (d.id === id ? { ...d, ...patch } : d)))] *)
Definition updateDrink (id0 : string) (patch : DrinkPatch) : State -> State :=
  setDrinks (map (fun d => if String.eqb (id d) id0 then spread d patch else d)).

(** [setDrinks((s) => s.filter((d) => d.id !== id))] *)
Definition removeDrink (id0 : string) : State -> State :=
  setDrinks (filter (fun d => negb (String.eqb (id d) id0))).

(** ** [fmtHM] (lines 26-31) and the number operations it uses *)

Module JSfmt.

(** The number whose value is the integer [z] (exact for
    [|z| <= 2^53]); zero is [+0]. *)
Definition of_Z (z : Z) : float := SF2Prim (binary_normalize prec emax z 0 false).

(** [Math.floor(x)]: [NaN], the infinities and the zeros are returned as
    they are; a number with a non-negative exponent is already integral. *)
Definition Math_floor (x : float) : float :=
  match Prim2SF x with
  | S754_finite s m e =>
      if (0 <=? e)%Z then x
      else of_Z (cond_Zopp s (Z.pos m) / 2 ^ (- e))
  | _ => x
  end.

(** [Math.round(x)]: the integer nearest to [x], ties towards
    [+Infinity], that is the floor of [x + 1/2] computed exactly; a
    negative [x] that rounds to zero gives [-0]. *)
Definition Math_round (x : float) : float :=
  match Prim2SF x with
  | S754_finite s m e =>
      if (0 <=? e)%Z then x
      else
        let z := ((2 * cond_Zopp s (Z.pos m) + 2 ^ (- e)) / 2 ^ (1 - e))%Z in
        if (z =? 0)%Z && s then neg_zero else of_Z z
  | _ => x
  end.

(** [x % y] on numbers: the exact remainder of the truncated division,
    with the sign of the dividend. *)
Definition rem (x y : float) : float :=
  match Prim2SF x, Prim2SF y with
  | S754_nan, _ | _, S754_nan => nan
  | S754_infinity _, _ => nan
  | _, S754_zero _ => nan
  | _, S754_infinity _ => x
  | S754_zero _, _ => x
  | S754_finite sx mx ex, S754_finite sy my ey =>
      let e := Z.min ex ey in
      let r := Z.rem (cond_Zopp sx (Z.pos mx * 2 ^ (ex - e))) (Z.pos my * 2 ^ (ey - e)) in
      if (r =? 0)%Z then (if sx then neg_zero else PrimFloat.zero)
      else SF2Prim (binary_normalize prec emax r e false)
  end.

(** The decimal digits of a natural number. *)
Definition decimal (n : N) : string := NilEmpty.string_of_uint (N.to_uint n).

(** [Number.prototype.toString()] on the numbers that [fmtHM] prints:
    [NaN], the infinities, the zeros and the integers of magnitude at most
    [2^53], which print as their exact decimal expansion.  [None] stands
    for the numbers outside this fragment (fractions, and larger numbers,
    which JavaScript prints with their shortest round-trip digits). *)
Definition Number_toString (x : float) : option string :=
  match Prim2SF x with
  | S754_nan => Some "NaN"%string
  | S754_zero _ => Some "0"%string
  | S754_infinity s => Some (if s then "-Infinity" else "Infinity")%string
  | S754_finite s m e =>
      let sign := (if s then "-" else "")%string in
      if (0 <=? e)%Z then
        if (Z.pos m * 2 ^ e <=? 2 ^ 53)%Z
        then Some (sign ++ decimal (Z.to_N (Z.pos m * 2 ^ e)))%string
        else None
      else
        if (Z.pos m mod 2 ^ (- e) =? 0)%Z
        then Some (sign ++ decimal (Z.to_N (Z.pos m / 2 ^ (- e))))%string
        else None
  end.

(** [k] characters taken cyclically from [pad], continuing at [cur]. *)
Fixpoint fill (k : nat) (pad cur : string) : string :=
  match k with
  | O => EmptyString
  | S k' =>
      match cur with
      | String c rest => String c (fill k' pad rest)
      | EmptyString =>
          match pad with
          | String c rest => String c (fill k' pad rest)
          | EmptyString => EmptyString
          end
      end
  end.

(** [s.padStart(targetLength, padString)] *)
Definition padStart (targetLength : nat) (padString s : string) : string :=
  if (targetLength <=? String.length s)%nat then s
  else (fill (targetLength - String.length s) padString padString ++ s)%string.

End JSfmt.

(** [fmtHM]; [None] only when a number to print is outside the modelled
    fragment of [toString]. *)
Definition fmtHM (n : float) : option string :=
  let totalMinutes := JSfmt.Math_round (n * 60) in
  let h := JSfmt.Math_floor (totalMinutes / 60) in
  let m := JSfmt.rem totalMinutes 60 in
  match JSfmt.Number_toString h, JSfmt.Number_toString m with
  | Some sh, Some sm =>
      Some (sh ++ "h " ++ JSfmt.padStart 2 "0" sm ++ "m")%string
  | _, _ => None
  end.

(** The prefix of [s] before the first occurrence of [c], and the rest
    after it. *)
Fixpoint split_at (c : ascii) (s : string) : option (string * string) :=
  match s with
  | EmptyString => None
  | String a rest =>
      if Ascii.eqb a c then Some (EmptyString, rest)
      else match split_at c rest with
           | Some (p, q) => Some (String a p, q)
           | None => None
           end
  end.

(** Modelled from the spec: the reader of ["Hh MMm"] strings that the
    round-trip property speaks of ("formatting then parsing back yields the
    same minute count") is not in the source; it reads the digits before
    ["h "] as hours, the digits before the final ["m"] as minutes, and
    returns hours x 60 + minutes. *)
Definition parseHM (s : string) : option N :=
  match split_at "h" s with
  | Some (hs, String " " rest) =>
      match split_at "m" rest with
      | Some (ms, EmptyString) =>
          match NilEmpty.uint_of_string hs, NilEmpty.uint_of_string ms with
          | Some uh, Some um =>
              if (hs =? "")%string || (ms =? "")%string then None
              else Some (N.of_uint uh * 60 + N.of_uint um)%N
          | _, _ => None
          end
      | _ => None
      end
  | _ => None
  end.

(** ** [addDrink] (lines 68-76) and the state setters *)

(** [preset?.field]: the field of a preset that may be missing altogether. *)
Definition optional_chain {A} (preset : option DrinkPatch)
    (field : DrinkPatch -> option A) : option A :=
  match preset with
  | Some p => field p
  | None => None
  end.

(** [a ?? b] *)
Definition nullish {A} (a : option A) (b : A) : A :=
  match a with
  | Some v => v
  | None => b
  end.

(** [addDrink(preset)].  The identifier is the string returned by the
    call [uid()] (line 32), which draws it from [Math.random]; it is an
    input here.  An [id] carried by the preset is not read. *)
Definition addDrink (uid : string) (preset : option DrinkPatch) : State -> State :=
  let base :=
    mkDrink uid
            (nullish (optional_chain preset patch_label) "Boisson"%string)
            (nullish (optional_chain preset patch_volumeMl) 500)
            (nullish (optional_chain preset patch_abv) 5) in
  setDrinks (fun s => s ++ [base]).

(** The six quick presets (lines 120-125); the labels are kept as their
    UTF-8 bytes. *)
Definition presets : list DrinkPatch :=
  [ mkPatch None (Some "Bière 25 cL (5%)"%string) (Some 250) (Some 5);
    mkPatch None (Some "Bière 33 cL (5%)"%string) (Some 330) (Some 5);
    mkPatch None (Some "Bière 50 cL (5%)"%string) (Some 500) (Some 5);
    mkPatch None (Some "Vin 12 cL (12%)"%string) (Some 120) (Some 12);
    mkPatch None (Some "Shot 4 cL (40%)"%string) (Some 40) (Some 40);
    mkPatch None (Some "Cocktail 20 cL (10%)"%string) (Some 200) (Some 10) ].

(** [setSex], [setWeight] and [setHoursSinceStart] (lines 35-37). *)
Definition setSex (v : Sex) (s : State) : State :=
  mkState v (st_weight s) (st_hoursSinceStart s) (st_drinks s).

Definition setWeight (v : float) (s : State) : State :=
  mkState (st_sex s) v (st_hoursSinceStart s) (st_drinks s).

Definition setHoursSinceStart (v : float) (s : State) : State :=
  mkState (st_sex s) (st_weight s) v (st_drinks s).

(** ** The fields and cards of the page (lines 139-222) *)

(** The volume field shows centilitres, [value={d.volumeMl / 10}]
    (line 151). *)
Definition volumeField (d : Drink) : float := volumeMl d / 10.

(** Its change handler (line 152),
    [updateDrink(d.id, { volumeMl: Number(e.target.value) * 10 })];
    [value] is the number [Number(e.target.value)]. *)
Definition onVolumeChange (id0 : string) (value : float) : State -> State :=
  updateDrink id0 (mkPatch None None (Some (value * 10)) None).

(** The change handlers of the strength and name fields (lines 164, 143). *)
Definition onAbvChange (id0 : string) (value : float) : State -> State :=
  updateDrink id0 (mkPatch None None None (Some value)).

Definition onLabelChange (id0 : string) (value : string) : State -> State :=
  updateDrink id0 (mkPatch None (Some value) None None).

(** The grams shown beside each drink (line 169), before formatting. *)
Definition drinkGrams (d : Drink) : float :=
  volumeMl d * (abv d / 100) * ETHANOL_DENSITY.

(** The colour of the current level (line 189):
    [currentBAC >= LEGAL_LIMIT ? "text-red-600" : "text-emerald-700"]. *)
Definition bacClass (current : float) : string :=
  if LEGAL_LIMIT <=? current then "text-red-600"%string else "text-emerald-700"%string.

(** The three durations of the page: [fmtHM(hoursSinceStart)] (line 195),
    [fmtHM(Math.max(0, hoursToLegal))] (line 200) and
    [fmtHM(Math.max(0, hoursToZero))] (line 207). *)
Definition elapsedText (s : State) : option string :=
  fmtHM (st_hoursSinceStart s).

Definition legalCard (o : Outputs) : option string :=
  fmtHM (JS.Math_max 0 (out_hoursToLegal o)).

Definition zeroCard (o : Outputs) : option string :=
  fmtHM (JS.Math_max 0 (out_hoursToZero o)).

(** * Part II: definitions of the verification *)

(** ** Binary64 rounding over the rationals *)

Local Close Scope float_scope.
Local Open Scope Q_scope.

Definition pow2 (e : Z) : Q := 2 ^ e.

(** Round half to even on rationals. *)
Definition rne (x : Q) : Z :=
  let f := Qfloor x in
  match (x - inject_Z f ?= (1 # 2))%Q with
  | Lt => f
  | Gt => (f + 1)%Z
  | Eq => if Z.even f then f else (f + 1)%Z
  end.

Definition inbetween (m : Z) (l : location) (x : Q) : Prop :=
  match l with
  | loc_Exact => x == inject_Z m
  | loc_Inexact c =>
      inject_Z m < x /\ x < inject_Z m + 1 /\ (x - inject_Z m ?= (1 # 2)) = c
  end.

Definition cond_Qopp (s : bool) (q : Q) : Q := if s then - q else q.

(** The rational value of a binary64 datum; the infinities stand at the
    overflow threshold [2^1024], beyond every finite value. *)
Definition SF2Q (f : spec_float) : Q :=
  match f with
  | S754_zero _ | S754_nan => 0
  | S754_infinity s => cond_Qopp s (pow2 1024)
  | S754_finite s m e => cond_Qopp s (inject_Z (Zpos m) * pow2 e)
  end.

Definition SFsign (f : spec_float) : option bool :=
  match f with
  | S754_nan => None
  | S754_zero s | S754_infinity s | S754_finite s _ _ => Some s
  end.

Definition clamp (q : Q) : Q :=
  if Qlt_le_dec q (pow2 1024) then q else pow2 1024.

(** The second half of [binary_round_aux]: renormalise and detect overflow. *)
Definition finish_round (s : bool) (M E : Z) : spec_float :=
  let '(mrs, e) := shr_fexp prec emax M E loc_Exact in
  match shr_m mrs with
  | Z0 => S754_zero s
  | Zpos p => if (e <=? emax - prec)%Z then S754_finite s p e else S754_infinity s
  | Zneg _ => S754_nan
  end.

(** The binade of a positive rational: [2^(Qmag q - 1) <= q < 2^(Qmag q)]. *)
Definition Qmag (q : Q) : Z :=
  let k := (Z.log2 (Qnum q) - Z.log2 (Zpos (Qden q)))%Z in
  if Qle_bool q 0 then 0%Z
  else if Qle_bool (pow2 k) q then (k + 1)%Z else k.

(** Rounding of a positive rational to binary64 (nearest, ties to even),
    saturating at the overflow threshold. *)
Definition RNpos (q : Q) : Q :=
  clamp (inject_Z (rne (q * pow2 (- fexp prec emax (Qmag q))))
         * pow2 (fexp prec emax (Qmag q))).

Definition RN (q : Q) : Q :=
  match q ?= 0 with
  | Gt => RNpos q
  | Lt => - RNpos (- q)
  | Eq => 0
  end.

Definition SFfin (f : spec_float) : bool :=
  match f with
  | S754_zero _ | S754_finite _ _ _ => true
  | _ => false
  end.

Definition SFsign_xor (x y : spec_float) : option bool :=
  match SFsign x, SFsign y with
  | Some a, Some b => Some (xorb a b)
  | _, _ => None
  end.

Definition F2Q (x : float) : Q := SF2Q (Prim2SF x).

(** ** Sample drinks and specification-side definitions *)

Local Open Scope float_scope.

(** The larger of two numbers in the order of [<?]. *)
Definition fmax (x y : float) : float := if x <? y then y else x.

Definition beer25 : Drink := mkDrink "b25" "Biere 25 cL (5%)" 250 5.
Definition beer33 : Drink := mkDrink "b33" "Biere 33 cL (5%)" 330 5.

Definition wine12 : Drink := mkDrink "w12" "Vin 12 cL (12%)" 120 12.

Definition beer50 : Drink := mkDrink "a" "Biere (50 cL, 5%)" 500 5.

(** An integral number and its integer. *)
Definition is_int (x : float) (k : Z) : Prop :=
  is_finite x = true /\ (F2Q x == inject_Z k)%Q.

(** Strings of decimal digits. *)
Definition is_digit (c : ascii) : bool :=
  match NilEmpty.uint_of_string (String c EmptyString) with
  | Some _ => true
  | None => false
  end.

Fixpoint all_digits (s : string) : bool :=
  match s with
  | EmptyString => true
  | String c rest => is_digit c && all_digits rest
  end.

(** The text ["Hh MMm"] of a whole number of minutes. *)
Definition hm_string (minutes : N) : string :=
  (JSfmt.decimal (minutes / 60) ++ "h " ++
   JSfmt.padStart 2 "0" (JSfmt.decimal (minutes mod 60)) ++ "m")%string.

(** A number that is neither [NaN] nor negative; [+Infinity] is one. *)
Definition NN (x : float) : Prop := is_nan x = false /\ (0 <= F2Q x)%Q.

(** Two non-negative numbers in order. *)
Definition Fle (x y : float) : Prop := NN x /\ NN y /\ (F2Q x <= F2Q y)%Q.

(** A drink whose volume and strength are finite and not negative. *)
Definition sane_drink (d : Drink) : bool :=
  is_finite (volumeMl d) && (0 <=? volumeMl d) && is_finite (abv d) && (0 <=? abv d).

(** The five values compared one by one. *)
Definition outputs_le (o o' : Outputs) : bool :=
  (out_grams o <=? out_grams o') && (out_peakBAC o <=? out_peakBAC o') &&
  (out_currentBAC o <=? out_currentBAC o') &&
  (out_hoursToLegal o <=? out_hoursToLegal o') &&
  (out_hoursToZero o <=? out_hoursToZero o').

(** A state whose drinks are sane and whose weight and elapsed time are
    finite numbers. *)
Definition sane_state (s : State) : bool :=
  forallb sane_drink (st_drinks s) && is_finite (st_weight s) &&
  is_finite (st_hoursSinceStart s).

(** The decimal text of an integer, as [toString] prints it. *)
Definition zstring (k : Z) : string :=
  if (k <? 0)%Z then ("-" ++ JSfmt.decimal (Z.to_N (- k)))%string
  else JSfmt.decimal (Z.to_N k).

(** What [fmtHM] prints for [T] minutes of either sign: the hours are the
    floor of [T / 60], the minutes the remainder with the sign of [T]. *)
Definition hm_text (T : Z) : string :=
  (zstring (T / 60) ++ "h " ++ JSfmt.padStart 2 "0" (zstring (Z.rem T 60)) ++ "m")%string.

Local Close Scope float_scope.

(** * Part III: the rounding theory *)

Lemma pow2_pos e : 0 < pow2 e.
Proof. apply Qpower_0_lt. reflexivity. Qed.

Lemma pow2_add a b : pow2 (a + b) == pow2 a * pow2 b.
Proof. apply Qpower_plus. discriminate. Qed.

Lemma pow2_0 : pow2 0 == 1.
Proof. reflexivity. Qed.

Lemma pow2_1 : pow2 1 == 2.
Proof. reflexivity. Qed.

Lemma pow2_succ e : pow2 (e + 1) == 2 * pow2 e.
Proof. rewrite pow2_add, pow2_1. ring. Qed.

Lemma pow2_pred e : pow2 (e - 1) == pow2 e * (1#2).
Proof.
  replace e with ((e - 1) + 1)%Z at 2 by lia.
  rewrite pow2_succ. field.
Qed.

Lemma pow2_opp e : pow2 (- e) == / pow2 e.
Proof. apply Qpower_opp. Qed.

Lemma pow2_cancel e : pow2 e * pow2 (- e) == 1.
Proof. rewrite <- pow2_add. replace (e + - e)%Z with 0%Z by lia. reflexivity. Qed.

Lemma pow2_le a b : (a <= b)%Z -> pow2 a <= pow2 b.
Proof. intros H. apply Qpower_le_compat_l; [exact H | discriminate]. Qed.

Lemma pow2_lt a b : (a < b)%Z -> pow2 a < pow2 b.
Proof. intros H. apply Qpower_lt_compat_l; [exact H | reflexivity]. Qed.

Lemma pow2_lt_inv a b : pow2 a < pow2 b -> (a < b)%Z.
Proof.
  intros H. destruct (Z_lt_le_dec a b) as [L|L]; [exact L|].
  apply pow2_le in L. lra.
Qed.

Lemma pow2_Z n : (0 <= n)%Z -> pow2 n == inject_Z (2 ^ n).
Proof. intros H. unfold pow2. rewrite Zpower_Qpower by exact H. reflexivity. Qed.

Lemma inject_Z_succ n : inject_Z (n + 1) == inject_Z n + 1.
Proof. rewrite inject_Z_plus. reflexivity. Qed.

Lemma Zlt_Q a b : inject_Z a < inject_Z b + 1 -> (a <= b)%Z.
Proof.
  intros H. rewrite <- inject_Z_succ in H. rewrite <- Zlt_Qlt in H. lia.
Qed.

Lemma Qfloor_bounds x : inject_Z (Qfloor x) <= x /\ x < inject_Z (Qfloor x) + 1.
Proof.
  split; [apply Qfloor_le|].
  generalize (Qlt_floor x). rewrite inject_Z_succ. auto.
Qed.

Lemma Qfloor_unique x n : inject_Z n <= x -> x < inject_Z n + 1 -> Qfloor x = n.
Proof.
  intros H1 H2. destruct (Qfloor_bounds x) as [F1 F2].
  assert (A : (Qfloor x <= n)%Z) by (apply Zlt_Q; lra).
  assert (B : (n <= Qfloor x)%Z) by (apply Zlt_Q; lra).
  lia.
Qed.

Lemma Qfloor_eq x y : x == y -> Qfloor x = Qfloor y.
Proof. intros H. apply Qfloor_unique; rewrite H; apply Qfloor_bounds. Qed.

#[global] Instance rne_Proper : Proper (Qeq ==> eq) rne.
Proof.
  intros x y H. unfold rne. rewrite (Qfloor_eq x y H).
  assert (E : (x - inject_Z (Qfloor y) ?= (1 # 2)) = (y - inject_Z (Qfloor y) ?= (1 # 2))).
  { apply Qcompare_comp; [rewrite H|]; reflexivity. }
  rewrite E. reflexivity.
Qed.

Lemma rne_Z n : rne (inject_Z n) = n.
Proof.
  unfold rne. rewrite Qfloor_Z.
  assert (E : (inject_Z n - inject_Z n ?= (1 # 2)) = Lt).
  { rewrite <- Qlt_alt. lra. }
  rewrite E. reflexivity.
Qed.

Lemma rne_cases x :
  let f := Qfloor x in
  (rne x = f /\ x - inject_Z f <= (1 # 2)) \/
  (rne x = (f + 1)%Z /\ 1 # 2 <= x - inject_Z f).
Proof.
  intros f. unfold rne. fold f.
  destruct (x - inject_Z f ?= (1 # 2)) eqn:E.
  - rewrite <- Qeq_alt in E. destruct (Z.even f); [left | right]; split; auto; lra.
  - rewrite <- Qlt_alt in E. left; split; auto; lra.
  - rewrite <- Qgt_alt in E. right; split; auto; lra.
Qed.

Lemma rne_error x : Qabs (inject_Z (rne x) - x) <= (1 # 2).
Proof.
  destruct (Qfloor_bounds x) as [F1 F2].
  destruct (rne_cases x) as [[E H]|[E H]]; rewrite E; [|rewrite inject_Z_succ];
    apply Qabs_case; intros; lra.
Qed.

Lemma rne_mono x y : x <= y -> (rne x <= rne y)%Z.
Proof.
  intros H.
  destruct (Qfloor_bounds x) as [X1 X2]. destruct (Qfloor_bounds y) as [Y1 Y2].
  pose proof (Qfloor_resp_le x y H) as FL.
  destruct (Z.eq_dec (Qfloor x) (Qfloor y)) as [E|NE].
  - unfold rne. rewrite <- E.
    destruct (x - inject_Z (Qfloor x) ?= (1 # 2)) eqn:CX;
    destruct (y - inject_Z (Qfloor x) ?= (1 # 2)) eqn:CY;
    try rewrite <- Qeq_alt in *; try rewrite <- Qlt_alt in *; try rewrite <- Qgt_alt in *;
    try (destruct (Z.even (Qfloor x))); try lia; exfalso; lra.
  - assert (L : (Qfloor x + 1 <= Qfloor y)%Z) by lia.
    destruct (rne_cases x) as [[-> _]|[-> _]]; destruct (rne_cases y) as [[-> _]|[-> _]]; lia.
Qed.

Lemma rne_nonneg x : 0 <= x -> (0 <= rne x)%Z.
Proof. intros H. rewrite <- (rne_Z 0). apply rne_mono. exact H. Qed.

Lemma inbetween_bounds m l x :
  inbetween m l x -> inject_Z m <= x /\ x < inject_Z m + 1.
Proof. destruct l; simpl; intros H; lra. Qed.

Lemma inbetween_floor m l x : inbetween m l x -> Qfloor x = m.
Proof. intros H. apply inbetween_bounds in H. apply Qfloor_unique; lra. Qed.

Lemma inbetween_Proper m l x y : x == y -> inbetween m l x -> inbetween m l y.
Proof.
  intros E. destruct l; simpl.
  - intros H. rewrite <- E. exact H.
  - intros (H1 & H2 & H3). repeat split; try lra.
    rewrite <- H3. apply Qcompare_comp; [rewrite E|]; reflexivity.
Qed.

Lemma round_nearest_even_rne m l x :
  inbetween m l x -> round_nearest_even m l = rne x.
Proof.
  intros H. pose proof (inbetween_floor _ _ _ H) as F.
  unfold rne. rewrite F. destruct l as [|c]; simpl in *.
  - assert (E : (x - inject_Z m ?= (1 # 2)) = Lt) by (rewrite <- Qlt_alt; lra).
    rewrite E. reflexivity.
  - destruct H as (_ & _ & ->). destruct c; reflexivity.
Qed.

Lemma shr_1_nonneg m rb sb :
  (0 <= m)%Z ->
  shr_1 (Build_shr_record m rb sb) = Build_shr_record (m / 2) (Z.odd m) (rb || sb).
Proof.
  intros H. destruct m as [|p|p]; [reflexivity | | lia].
  destruct p as [p|p|]; simpl shr_1.
  - assert (E : (Z.pos p~1 / 2 = Z.pos p)%Z)
      by (symmetry; apply (Z.div_unique _ _ _ 1); lia).
    rewrite E. reflexivity.
  - assert (E : (Z.pos p~0 / 2 = Z.pos p)%Z)
      by (symmetry; apply (Z.div_unique _ _ _ 0); lia).
    rewrite E. reflexivity.
  - reflexivity.
Qed.

Lemma Zodd_div2 m : m = (2 * (m / 2) + (if Z.odd m then 1 else 0))%Z.
Proof.
  rewrite (Z.div_mod m 2) at 1 by lia. f_equal.
  rewrite Zmod_odd. reflexivity.
Qed.

Lemma shr_1_inbetween mrs x :
  (0 <= shr_m mrs)%Z ->
  inbetween (shr_m mrs) (loc_of_shr_record mrs) x ->
  (0 <= shr_m (shr_1 mrs))%Z /\
  inbetween (shr_m (shr_1 mrs)) (loc_of_shr_record (shr_1 mrs)) (x * (1 # 2)).
Proof.
  destruct mrs as [m rb sb]. cbn [shr_m]. intros Hm H.
  rewrite shr_1_nonneg by exact Hm. cbn [shr_m]. split.
  { apply Z.div_pos; lia. }
  pose proof (Zodd_div2 m) as D.
  assert (DQ : inject_Z m == 2 * inject_Z (m / 2) + (if Z.odd m then 1 else 0)).
  { rewrite D at 1. rewrite inject_Z_plus, inject_Z_mult.
    destruct (Z.odd m); reflexivity. }
  destruct rb, sb; cbn [loc_of_shr_record orb inbetween] in *;
    destruct (Z.odd m); cbn [loc_of_shr_record inbetween];
    try (destruct H as (H1 & H2 & H3));
    try rewrite <- Qeq_alt in *; try rewrite <- Qlt_alt in *; try rewrite <- Qgt_alt in *;
    try (repeat split; lra).
Qed.

Lemma iter_pos_nat {A} (f : A -> A) p x :
  iter_pos f p x = Nat.iter (Pos.to_nat p) f x.
Proof.
  revert x. induction p as [p IH|p IH|]; intros x; cbn [iter_pos].
  - rewrite !IH. rewrite Pos2Nat.inj_xI.
    replace (S (2 * Pos.to_nat p)) with (Pos.to_nat p + (Pos.to_nat p + 1))%nat by lia.
    rewrite !Nat.iter_add. reflexivity.
  - rewrite !IH. rewrite Pos2Nat.inj_xO.
    replace (2 * Pos.to_nat p)%nat with (Pos.to_nat p + Pos.to_nat p)%nat by lia.
    rewrite Nat.iter_add. reflexivity.
  - reflexivity.
Qed.

Lemma shr_iter_inbetween n mrs x :
  (0 <= shr_m mrs)%Z ->
  inbetween (shr_m mrs) (loc_of_shr_record mrs) x ->
  (0 <= shr_m (Nat.iter n shr_1 mrs))%Z /\
  inbetween (shr_m (Nat.iter n shr_1 mrs))
            (loc_of_shr_record (Nat.iter n shr_1 mrs))
            (x * pow2 (- Z.of_nat n)).
Proof.
  intros Hm H. induction n as [|n IH].
  - split; [exact Hm|]. cbn [Nat.iter]. eapply inbetween_Proper; [|exact H].
    change (pow2 (- Z.of_nat 0)) with 1. ring.
  - destruct IH as [IH1 IH2]. cbn [Nat.iter].
    destruct (shr_1_inbetween _ _ IH1 IH2) as [S1 S2]. split; [exact S1|].
    eapply inbetween_Proper; [|exact S2].
    replace (- Z.of_nat (S n))%Z with (- Z.of_nat n - 1)%Z by lia.
    rewrite pow2_pred. ring.
Qed.

Lemma shr_record_of_loc_m m l : shr_m (shr_record_of_loc m l) = m.
Proof. destruct l as [|[]]; reflexivity. Qed.

Lemma loc_of_shr_record_of_loc m l :
  loc_of_shr_record (shr_record_of_loc m l) = l.
Proof. destruct l as [|[]]; reflexivity. Qed.

Lemma shr_inbetween mrs e n x :
  (0 <= shr_m mrs)%Z ->
  inbetween (shr_m mrs) (loc_of_shr_record mrs) x ->
  snd (shr mrs e n) = (e + Z.max n 0)%Z /\
  (0 <= shr_m (fst (shr mrs e n)))%Z /\
  inbetween (shr_m (fst (shr mrs e n)))
            (loc_of_shr_record (fst (shr mrs e n)))
            (x * pow2 (- Z.max n 0)).
Proof.
  intros Hm H. destruct n as [|p|p]; cbn [shr fst snd].
  - split; [simpl; lia|]. split; [exact Hm|].
    eapply inbetween_Proper; [|exact H]. change (pow2 (- Z.max 0 0)) with 1. ring.
  - rewrite iter_pos_nat.
    destruct (shr_iter_inbetween (Pos.to_nat p) mrs x Hm H) as [A B].
    split; [lia|]. split; [exact A|].
    replace (Z.max (Z.pos p) 0) with (Z.of_nat (Pos.to_nat p)) by lia. exact B.
  - split; [simpl; lia|]. split; [exact Hm|].
    eapply inbetween_Proper; [|exact H]. change (pow2 (- Z.max (Z.neg p) 0)) with 1. ring.
Qed.

Lemma digits2_pos_size p : digits2_pos p = Pos.size p.
Proof. induction p; simpl; congruence. Qed.

Lemma Zdigits2_bounds m :
  (0 < m)%Z -> (2 ^ (Zdigits2 m - 1) <= m < 2 ^ Zdigits2 m)%Z /\ (0 < Zdigits2 m)%Z.
Proof.
  intros H. destruct m as [|p|p]; try lia. cbn [Zdigits2].
  rewrite digits2_pos_size.
  pose proof (Pos.size_gt p) as G. pose proof (Pos.size_le p) as L.
  assert (G' : (Z.pos p < 2 ^ Z.pos (Pos.size p))%Z).
  { rewrite <- Pos2Z.inj_pow. lia. }
  assert (L' : (2 ^ Z.pos (Pos.size p) <= 2 * Z.pos p)%Z).
  { rewrite <- Pos2Z.inj_pow. lia. }
  split; [|lia]. split; [|exact G'].
  replace (Z.pos (Pos.size p)) with ((Z.pos (Pos.size p) - 1) + 1)%Z in L' by lia.
  rewrite Z.pow_add_r in L' by lia. lia.
Qed.

Lemma Zdigits2_unique m d :
  (0 < m)%Z -> (2 ^ (d - 1) <= m < 2 ^ d)%Z -> (0 < d)%Z -> Zdigits2 m = d.
Proof.
  intros H B Hd. destruct (Zdigits2_bounds m H) as [B' Hd'].
  destruct (Z.lt_trichotomy (Zdigits2 m) d) as [L|[L|L]]; [|exact L|]; exfalso.
  - assert (2 ^ Zdigits2 m <= 2 ^ (d - 1))%Z by (apply Z.pow_le_mono_r; lia). lia.
  - assert (2 ^ d <= 2 ^ (Zdigits2 m - 1))%Z by (apply Z.pow_le_mono_r; lia). lia.
Qed.

Lemma Zdigits2_bounds_Q m :
  (0 < m)%Z -> pow2 (Zdigits2 m - 1) <= inject_Z m /\ inject_Z m + 1 <= pow2 (Zdigits2 m).
Proof.
  intros H. destruct (Zdigits2_bounds m H) as [[B1 B2] Hd].
  rewrite !pow2_Z by lia. rewrite <- inject_Z_succ. rewrite <- !Zle_Qle. lia.
Qed.

Lemma fexp_eq d : fexp prec emax d = Z.max (d - 53) (-1074).
Proof. reflexivity. Qed.

Lemma binary_round_aux_finish s m e l :
  binary_round_aux prec emax s m e l =
  finish_round s
    (round_nearest_even (shr_m (fst (shr_fexp prec emax m e l)))
                        (loc_of_shr_record (fst (shr_fexp prec emax m e l))))
    (snd (shr_fexp prec emax m e l)).
Proof.
  unfold binary_round_aux, finish_round.
  destruct (shr_fexp prec emax m e l) as [mrs' e']. reflexivity.
Qed.

Lemma shr_nonpos mrs e n : (n <= 0)%Z -> shr mrs e n = (mrs, e).
Proof. destruct n; try reflexivity. lia. Qed.

Lemma pow2_split a b c : (a + b = c)%Z -> pow2 a * pow2 b == pow2 c.
Proof. intros <-. symmetry. apply pow2_add. Qed.

Lemma Qmult_lt_le_compat a b c d : 0 <= a -> a < c -> 0 < b -> b <= d -> a * b < c * d.
Proof. intros. nra. Qed.

Lemma Qmult_le_le_compat a b c d : 0 <= a -> a <= c -> 0 <= b -> b <= d -> a * b <= c * d.
Proof. intros. nra. Qed.

Lemma clamp_lt q : q < pow2 1024 -> clamp q == q.
Proof. intros H. unfold clamp. destruct Qlt_le_dec; [reflexivity | lra]. Qed.

Lemma clamp_ge q : pow2 1024 <= q -> clamp q == pow2 1024.
Proof. intros H. unfold clamp. destruct Qlt_le_dec; [lra | reflexivity]. Qed.

#[global] Instance cond_Qopp_Proper : Proper (eq ==> Qeq ==> Qeq) cond_Qopp.
Proof. intros s ? <- x y H. destruct s; cbn [cond_Qopp]; rewrite H; reflexivity. Qed.

#[global] Instance clamp_Proper : Proper (Qeq ==> Qeq) clamp.
Proof.
  intros x y H. unfold clamp.
  destruct (Qlt_le_dec x (pow2 1024)), (Qlt_le_dec y (pow2 1024)); lra.
Qed.

Lemma finish_round_spec s M E :
  (0 <= M <= 2 ^ 53)%Z -> (-1074 <= E)%Z -> ((-1074 < E)%Z -> (2 ^ 52 <= M)%Z) ->
  SFsign (finish_round s M E) = Some s /\
  SF2Q (finish_round s M E) == cond_Qopp s (clamp (inject_Z M * pow2 E)).
Proof.
  intros HM HE HN.
  assert (P53 : pow2 53 == inject_Z (2 ^ 53)) by (apply pow2_Z; lia).
  assert (P52 : pow2 52 == inject_Z (2 ^ 52)) by (apply pow2_Z; lia).
  pose proof (pow2_pos E) as PE. pose proof (pow2_pos 1024) as PT.
  unfold finish_round, shr_fexp. rewrite fexp_eq.
  destruct (Z.eq_dec M 0) as [->|NZ].
  { rewrite shr_nonpos by (cbn [Zdigits2]; lia). cbn [shr_record_of_loc shr_m].
    split; [reflexivity|]. cbn [SF2Q]. change (inject_Z 0) with 0.
    rewrite clamp_lt by lra.
    destruct s; cbn [cond_Qopp]; lra. }
  destruct (Z.eq_dec M (2 ^ 53)) as [->|N53].
  { replace (Zdigits2 (2 ^ 53)) with 54%Z by reflexivity.
    replace (Z.max (54 + E - 53) (-1074) - E)%Z with 1%Z by lia.
    cbn [shr iter_pos shr_record_of_loc shr_1 shr_m].
    change (shr_m (shr_1 {| shr_m := 2 ^ 53; shr_r := false; shr_s := false |}))
      with (2 ^ 52)%Z.
    change (2 ^ 52)%Z with (Z.pos (2 ^ 52)).
    cbv iota beta.
    assert (V : inject_Z (2 ^ 53) * pow2 E == inject_Z (Z.pos (2 ^ 52)) * pow2 (E + 1)).
    { rewrite pow2_succ. change (Z.pos (2 ^ 52)) with (2 ^ 52)%Z.
      rewrite <- P53, <- P52. rewrite <- (pow2_split 52 1 53) by lia. rewrite pow2_1. ring. }
    destruct (Z.leb_spec (E + 1) (emax - prec)) as [L|L]; change (emax - prec)%Z with 971%Z in L.
    - split; [reflexivity|]. cbn [SF2Q]. rewrite clamp_lt; [rewrite V; reflexivity|].
      rewrite <- P53. rewrite (pow2_split 53 E (53 + E)) by lia.
      apply pow2_lt. lia.
    - split; [reflexivity|]. cbn [SF2Q]. rewrite clamp_ge; [reflexivity|].
      rewrite <- P53. rewrite (pow2_split 53 E (53 + E)) by lia.
      apply pow2_le. lia. }
  assert (HM' : (0 < M < 2 ^ 53)%Z) by lia.
  destruct (Zdigits2_bounds M) as [[B1 B2] Hd]; [lia|].
  assert (D53 : (Zdigits2 M <= 53)%Z).
  { destruct (Z_le_gt_dec (Zdigits2 M) 53) as [L|G]; [exact L|exfalso].
    assert (2 ^ 53 <= 2 ^ (Zdigits2 M - 1))%Z by (apply Z.pow_le_mono_r; lia). lia. }
  rewrite shr_nonpos by lia.
  destruct M as [|p|p]; try lia. cbn [shr_record_of_loc shr_m].
  assert (MQ : inject_Z (Z.pos p) < pow2 53).
  { rewrite P53. rewrite <- Zlt_Qlt. lia. }
  assert (M0 : 0 < inject_Z (Z.pos p)).
  { change 0 with (inject_Z 0). rewrite <- Zlt_Qlt. lia. }
  destruct (Z.leb_spec E (emax - prec)) as [L|L]; change (emax - prec)%Z with 971%Z in L.
  - split; [reflexivity|]. cbn [SF2Q]. rewrite clamp_lt; [reflexivity|].
    rewrite <- (pow2_split 53 971 1024) by lia.
    apply Qmult_lt_le_compat; try lra. apply pow2_le; lia.
  - split; [reflexivity|]. cbn [SF2Q]. rewrite clamp_ge; [reflexivity|].
    rewrite <- (pow2_split 52 972 1024) by lia.
    apply Qmult_le_le_compat; try lra.
    + pose proof (pow2_pos 52). lra.
    + rewrite P52. rewrite <- Zle_Qle. apply HN. lia.
    + pose proof (pow2_pos 972). lra.
    + apply pow2_le. lia.
Qed.

Lemma Zpos_Q n : (0 <= n)%Z -> 0 <= inject_Z n.
Proof. intros H. change 0 with (inject_Z 0). rewrite <- Zle_Qle. exact H. Qed.

Lemma Zdigits2_succ_le m : (0 <= m)%Z -> inject_Z m + 1 <= pow2 (Zdigits2 m).
Proof.
  intros H. destruct (Z.eq_dec m 0) as [->|N].
  - change (inject_Z 0 + 1 <= 1). change (inject_Z 0) with 0. lra.
  - apply Zdigits2_bounds_Q. lia.
Qed.

Lemma binary_round_aux_as_finish s m e l x :
  (0 <= m)%Z ->
  inbetween m l (x * pow2 (- e)) ->
  (e <= fexp prec emax (Zdigits2 m + e))%Z ->
  (m = 0%Z -> fexp prec emax (Zdigits2 m + e) = (-1074)%Z) ->
  let E := fexp prec emax (Zdigits2 m + e) in
  let M := rne (x * pow2 (- E)) in
  binary_round_aux prec emax s m e l = finish_round s M E /\
  (0 <= M <= 2 ^ 53)%Z /\ (-1074 <= E)%Z /\ ((-1074 < E)%Z -> (2 ^ 52 <= M)%Z).
Proof.
  intros Hm Hin He Hz E M. unfold M. clear M. fold E in He, Hz.
  rewrite binary_round_aux_finish. unfold shr_fexp. fold E.
  assert (Hm0 : (0 <= shr_m (shr_record_of_loc m l))%Z)
    by (rewrite shr_record_of_loc_m; lia).
  assert (Hin0 : inbetween (shr_m (shr_record_of_loc m l))
                   (loc_of_shr_record (shr_record_of_loc m l)) (x * pow2 (- e)))
    by (rewrite shr_record_of_loc_m, loc_of_shr_record_of_loc; exact Hin).
  destruct (shr_inbetween _ e (E - e) _ Hm0 Hin0) as (S1 & S2 & S3).
  rewrite S1. replace (e + Z.max (E - e) 0)%Z with E by lia.
  replace (Z.max (E - e) 0) with (E - e)%Z in S3 by lia.
  assert (XE : x * pow2 (- e) * pow2 (- (E - e)) == x * pow2 (- E)).
  { rewrite <- Qmult_assoc. rewrite (pow2_split (- e) (- (E - e)) (- E)) by lia. reflexivity. }
  rewrite (round_nearest_even_rne _ _ _ S3). rewrite (rne_Proper _ _ XE).
  split; [reflexivity|].
  pose proof (Zdigits2_succ_le m Hm) as D2.
  apply inbetween_bounds in Hin. destruct Hin as [I1 I2].
  pose proof (pow2_pos (e - E)) as PP.
  assert (XE2 : x * pow2 (- E) == x * pow2 (- e) * pow2 (e - E)).
  { rewrite <- Qmult_assoc. rewrite (pow2_split (- e) (e - E) (- E)) by lia. reflexivity. }
  assert (EE : E = Z.max (Zdigits2 m + e - 53) (-1074)) by (unfold E; apply fexp_eq).
  pose proof (Zpos_Q m Hm) as M0.
  split; [|split].
  - split.
    + apply rne_nonneg. rewrite XE2. apply Qmult_le_0_compat; lra.
    + rewrite <- (rne_Z (2 ^ 53)). apply rne_mono.
      rewrite <- pow2_Z by lia. rewrite XE2.
      apply Qle_trans with (pow2 (Zdigits2 m) * pow2 (e - E)).
      * apply Qmult_le_compat_r; lra.
      * rewrite <- pow2_add. apply pow2_le. lia.
  - lia.
  - intros HN. assert (Hm' : (0 < m)%Z) by (destruct (Z.eq_dec m 0) as [Z|Z]; [specialize (Hz Z)|]; lia).
    destruct (Zdigits2_bounds_Q m Hm') as [D1 _].
    destruct (Zdigits2_bounds m Hm') as [_ Dpos].
    rewrite <- (rne_Z (2 ^ 52)). apply rne_mono.
    rewrite <- pow2_Z by lia. rewrite XE2.
    apply Qle_trans with (pow2 (Zdigits2 m - 1) * pow2 (e - E)).
    * rewrite <- pow2_add. apply pow2_le. lia.
    * apply Qmult_le_compat_r; lra.
Qed.

Lemma binary_round_aux_correct s m e l x :
  (0 <= m)%Z ->
  inbetween m l (x * pow2 (- e)) ->
  (e <= fexp prec emax (Zdigits2 m + e))%Z ->
  (m = 0%Z -> fexp prec emax (Zdigits2 m + e) = (-1074)%Z) ->
  SFsign (binary_round_aux prec emax s m e l) = Some s /\
  SF2Q (binary_round_aux prec emax s m e l) ==
    cond_Qopp s
      (clamp (inject_Z (rne (x * pow2 (- fexp prec emax (Zdigits2 m + e))))
              * pow2 (fexp prec emax (Zdigits2 m + e)))).
Proof.
  intros Hm Hin He Hz.
  destruct (binary_round_aux_as_finish s m e l x Hm Hin He Hz) as (-> & B1 & B2 & B3).
  apply finish_round_spec; assumption.
Qed.

Lemma finish_round_valid s M E :
  (0 <= M <= 2 ^ 53)%Z -> (-1074 <= E)%Z -> ((-1074 < E)%Z -> (2 ^ 52 <= M)%Z) ->
  valid_binary (finish_round s M E) = true.
Proof.
  intros HM HE HN.
  unfold finish_round, shr_fexp. rewrite fexp_eq.
  destruct (Z.eq_dec M 0) as [->|NZ].
  { rewrite shr_nonpos by (cbn [Zdigits2]; lia). reflexivity. }
  destruct (Z.eq_dec M (2 ^ 53)) as [->|N53].
  { change (2 ^ 53)%Z with 9007199254740992%Z.
    change (Zdigits2 9007199254740992) with 54%Z.
    replace (Z.max (54 + E - 53) (-1074) - E)%Z with 1%Z by lia.
    cbn [shr iter_pos shr_record_of_loc shr_1 shr_m].
    destruct (Z.leb_spec (E + 1) (emax - prec)) as [L|L]; [|reflexivity].
    cbn [valid_binary]. unfold bounded, canonical_mantissa.
    apply andb_true_iff. split; [|apply Z.leb_le; exact L].
    apply Z.eqb_eq. rewrite fexp_eq.
    change (Z.pos (digits2_pos 4503599627370496)) with 53%Z. lia. }
  assert (HM' : (0 < M < 2 ^ 53)%Z) by lia.
  destruct (Zdigits2_bounds M) as [[B1 B2] Hd]; [lia|].
  assert (D53 : (Zdigits2 M <= 53)%Z).
  { destruct (Z_le_gt_dec (Zdigits2 M) 53) as [L|G]; [exact L|exfalso].
    assert (2 ^ 53 <= 2 ^ (Zdigits2 M - 1))%Z by (apply Z.pow_le_mono_r; lia). lia. }
  rewrite shr_nonpos by lia.
  destruct M as [|p|p]; try lia. cbn [shr_record_of_loc shr_m].
  destruct (Z.leb_spec E (emax - prec)) as [L|L]; [|reflexivity].
  cbn [valid_binary]. unfold bounded, canonical_mantissa.
  apply andb_true_iff. split; [|apply Z.leb_le; exact L].
  apply Z.eqb_eq. rewrite fexp_eq.
  change (Z.pos (digits2_pos p)) with (Zdigits2 (Z.pos p)).
  destruct (Z.eq_dec E (-1074)) as [EQ|NE]; [lia|].
  assert (D : (53 <= Zdigits2 (Z.pos p))%Z).
  { assert (G : (2 ^ 52 <= Z.pos p)%Z) by (apply HN; lia).
    destruct (Z_le_gt_dec 53 (Zdigits2 (Z.pos p))) as [A|A]; [exact A|exfalso].
    assert (2 ^ Zdigits2 (Z.pos p) <= 2 ^ 52)%Z by (apply Z.pow_le_mono_r; lia). lia. }
  lia.
Qed.

Lemma binary_round_aux_valid s m e l x :
  (0 <= m)%Z ->
  inbetween m l (x * pow2 (- e)) ->
  (e <= fexp prec emax (Zdigits2 m + e))%Z ->
  (m = 0%Z -> fexp prec emax (Zdigits2 m + e) = (-1074)%Z) ->
  valid_binary (binary_round_aux prec emax s m e l) = true.
Proof.
  intros Hm Hin He Hz.
  destruct (binary_round_aux_as_finish s m e l x Hm Hin He Hz) as (-> & B1 & B2 & B3).
  apply finish_round_valid; assumption.
Qed.

Lemma Qmake_eq n d : n # d == inject_Z n / inject_Z (Zpos d).
Proof. rewrite Qmake_Qdiv. reflexivity. Qed.

Lemma Qmag_spec q : 0 < q -> pow2 (Qmag q - 1) <= q /\ q < pow2 (Qmag q).
Proof.
  intros Hq. unfold Qmag.
  assert (NP : Qle_bool q 0 = false).
  { destruct (Qle_bool q 0) eqn:C; [|reflexivity]. apply Qle_bool_iff in C. lra. }
  rewrite NP.
  set (a := Z.log2 (Qnum q)). set (b := Z.log2 (Zpos (Qden q))).
  assert (Hn : (0 < Qnum q)%Z).
  { destruct q as [n d]. unfold Qlt in Hq. simpl in *. lia. }
  destruct (Z.log2_spec (Qnum q) Hn) as [A1 A2]. fold a in A1, A2.
  destruct (Z.log2_spec (Zpos (Qden q))) as [B1 B2]; [lia|]. fold b in B1, B2.
  assert (Ha : (0 <= a)%Z) by apply Z.log2_nonneg.
  assert (Hb : (0 <= b)%Z) by apply Z.log2_nonneg.
  assert (QA1 : pow2 a <= inject_Z (Qnum q)).
  { rewrite pow2_Z by lia. rewrite <- Zle_Qle. exact A1. }
  assert (QA2 : inject_Z (Qnum q) < pow2 (a + 1)).
  { rewrite pow2_Z by lia. rewrite <- Zlt_Qlt. exact A2. }
  assert (QB1 : pow2 b <= inject_Z (Zpos (Qden q))).
  { rewrite pow2_Z by lia. rewrite <- Zle_Qle. exact B1. }
  assert (QB2 : inject_Z (Zpos (Qden q)) < pow2 (b + 1)).
  { rewrite pow2_Z by lia. rewrite <- Zlt_Qlt. exact B2. }
  assert (EQ : q * inject_Z (Zpos (Qden q)) == inject_Z (Qnum q)).
  { destruct q as [n d]. cbn [Qnum Qden]. rewrite (Qmake_eq n d). field.
    intros H. assert (0 < inject_Z (Z.pos d)) by (change 0 with (inject_Z 0); rewrite <- Zlt_Qlt; lia).
    lra. }
  set (D := inject_Z (Zpos (Qden q))) in *. set (N := inject_Z (Qnum q)) in *.
  pose proof (pow2_pos b) as Pb. pose proof (pow2_pos (a - b)) as Pk.
  pose proof (pow2_pos (a - b - 1)) as Pk1.
  assert (K1 : pow2 (a - b - 1) * pow2 (b + 1) == pow2 a) by (apply pow2_split; lia).
  assert (K2 : pow2 (a - b + 1) * pow2 b == pow2 (a + 1)) by (apply pow2_split; lia).
  assert (L : pow2 (a - b - 1) < q).
  { destruct (Qlt_le_dec (pow2 (a - b - 1)) q) as [H|H]; [exact H|exfalso]. nra. }
  assert (U : q < pow2 (a - b + 1)).
  { destruct (Qlt_le_dec q (pow2 (a - b + 1))) as [H|H]; [exact H|exfalso]. nra. }
  destruct (Qle_bool (pow2 (a - b)) q) eqn:C.
  - apply Qle_bool_iff in C. replace (a - b + 1 - 1)%Z with (a - b)%Z by lia. split; lra.
  - assert (C' : q < pow2 (a - b)).
    { destruct (Qlt_le_dec q (pow2 (a - b))) as [H|H]; [exact H|].
      apply Qle_bool_iff in H. congruence. }
    split; lra.
Qed.

Lemma Qmag_unique q d : pow2 (d - 1) <= q -> q < pow2 d -> Qmag q = d.
Proof.
  intros H1 H2.
  assert (Hq : 0 < q) by (pose proof (pow2_pos (d - 1)); lra).
  destruct (Qmag_spec q Hq) as [M1 M2].
  assert (A : (d - 1 < Qmag q)%Z) by (apply pow2_lt_inv; lra).
  assert (B : (Qmag q - 1 < d)%Z) by (apply pow2_lt_inv; lra).
  lia.
Qed.

#[global] Instance Qmag_Proper : Proper (Qeq ==> eq) Qmag.
Proof.
  intros x y H. destruct (Qlt_le_dec 0 x) as [P|N].
  - destruct (Qmag_spec x P) as [M1 M2]. symmetry. apply Qmag_unique; rewrite <- H; assumption.
  - unfold Qmag.
    assert (E1 : Qle_bool x 0 = true) by (apply Qle_bool_iff; exact N).
    assert (E2 : Qle_bool y 0 = true) by (apply Qle_bool_iff; lra).
    rewrite E1, E2. reflexivity.
Qed.

#[global] Instance RNpos_Proper : Proper (Qeq ==> Qeq) RNpos.
Proof.
  intros x y H. unfold RNpos. rewrite (Qmag_Proper x y H).
  assert (E : rne (x * pow2 (- fexp prec emax (Qmag y))) =
              rne (y * pow2 (- fexp prec emax (Qmag y)))).
  { apply rne_Proper. rewrite H. reflexivity. }
  rewrite E. reflexivity.
Qed.

#[global] Instance RN_Proper : Proper (Qeq ==> Qeq) RN.
Proof.
  intros x y H. unfold RN.
  assert (E : (x ?= 0) = (y ?= 0)) by (apply Qcompare_comp; [exact H | reflexivity]).
  rewrite E. destruct (y ?= 0); rewrite ?H; reflexivity.
Qed.

Lemma clamp_mono x y : x <= y -> clamp x <= clamp y.
Proof.
  intros H. unfold clamp.
  destruct (Qlt_le_dec x (pow2 1024)), (Qlt_le_dec y (pow2 1024)); lra.
Qed.

Lemma clamp_nonneg x : 0 <= x -> 0 <= clamp x.
Proof.
  intros H. unfold clamp. pose proof (pow2_pos 1024).
  destruct (Qlt_le_dec x (pow2 1024)); lra.
Qed.

Lemma clamp_le x : clamp x <= pow2 1024.
Proof. unfold clamp. destruct (Qlt_le_dec x (pow2 1024)); lra. Qed.

Lemma RNpos_nonneg x : 0 <= x -> 0 <= RNpos x.
Proof.
  intros H. unfold RNpos. apply clamp_nonneg.
  pose proof (pow2_pos (fexp prec emax (Qmag x))).
  pose proof (pow2_pos (- fexp prec emax (Qmag x))).
  apply Qmult_le_0_compat; [|lra].
  apply Zpos_Q, rne_nonneg. apply Qmult_le_0_compat; lra.
Qed.

Lemma Qmag_mono x y : 0 < x -> x <= y -> (Qmag x <= Qmag y)%Z.
Proof.
  intros Hx H. destruct (Qmag_spec x Hx) as [X1 X2].
  destruct (Qmag_spec y) as [Y1 Y2]; [lra|].
  assert (Qmag x - 1 < Qmag y)%Z by (apply pow2_lt_inv; lra). lia.
Qed.

Lemma rne_le_pow2 x k : (0 <= k)%Z -> x <= pow2 k -> inject_Z (rne x) <= pow2 k.
Proof.
  intros Hk H. rewrite pow2_Z by exact Hk. rewrite <- Zle_Qle.
  rewrite <- (rne_Z (2 ^ k)). apply rne_mono. rewrite <- pow2_Z by exact Hk. exact H.
Qed.

Lemma rne_ge_pow2 x k : (0 <= k)%Z -> pow2 k <= x -> pow2 k <= inject_Z (rne x).
Proof.
  intros Hk H. rewrite pow2_Z by exact Hk. rewrite <- Zle_Qle.
  rewrite <- (rne_Z (2 ^ k)). apply rne_mono. rewrite <- pow2_Z by exact Hk. exact H.
Qed.

Lemma RNpos_mono x y : 0 < x -> x <= y -> RNpos x <= RNpos y.
Proof.
  intros Hx H. unfold RNpos. apply clamp_mono.
  pose proof (Qmag_mono x y Hx H) as MM.
  destruct (Qmag_spec x Hx) as [X1 X2].
  destruct (Qmag_spec y) as [Y1 Y2]; [lra|].
  set (dx := Qmag x) in *. set (dy := Qmag y) in *.
  rewrite !fexp_eq.
  set (Ex := Z.max (dx - 53) (-1074)). set (Ey := Z.max (dy - 53) (-1074)).
  pose proof (pow2_pos Ex) as PEx. pose proof (pow2_pos Ey) as PEy.
  pose proof (pow2_pos (- Ex)) as PNx. pose proof (pow2_pos (- Ey)) as PNy.
  destruct (Z.eq_dec Ex Ey) as [EE|NE].
  - rewrite <- EE. apply Qmult_le_compat_r; [|lra].
    rewrite <- Zle_Qle. apply rne_mono. apply Qmult_le_compat_r; lra.
  - assert (LT : (Ex < Ey)%Z) by lia.
    assert (EyN : Ey = (dy - 53)%Z) by lia.
    apply Qle_trans with (pow2 (dy - 1)).
    + set (k := Z.max (dx - Ex) 0).
      apply Qle_trans with (pow2 k * pow2 Ex).
      * apply Qmult_le_compat_r; [|lra]. apply rne_le_pow2; [lia|].
        apply Qle_trans with (pow2 dx * pow2 (- Ex)).
        -- apply Qmult_le_compat_r; lra.
        -- rewrite <- pow2_add. apply pow2_le. lia.
      * rewrite <- pow2_add. apply pow2_le. lia.
    + apply Qle_trans with (pow2 52 * pow2 Ey).
      * rewrite <- pow2_add. apply pow2_le. lia.
      * apply Qmult_le_compat_r; [|lra]. apply rne_ge_pow2; [lia|].
        apply Qle_trans with (pow2 (dy - 1) * pow2 (- Ey)).
        -- rewrite <- pow2_add. apply pow2_le. lia.
        -- apply Qmult_le_compat_r; lra.
Qed.

Lemma RN_pos x : 0 < x -> RN x == RNpos x.
Proof. intros H. unfold RN. rewrite Qgt_alt in H. rewrite H. reflexivity. Qed.

Lemma RN_neg x : x < 0 -> RN x == - RNpos (- x).
Proof. intros H. unfold RN. rewrite Qlt_alt in H. rewrite H. reflexivity. Qed.

Lemma RN_0 x : x == 0 -> RN x == 0.
Proof. intros H. unfold RN. rewrite Qeq_alt in H. rewrite H. reflexivity. Qed.

Lemma RN_opp x : RN (- x) == - RN x.
Proof.
  destruct (Q_dec x 0) as [[N|P]|Z].
  - rewrite (RN_pos (- x)) by lra. rewrite (RN_neg x N). ring.
  - rewrite (RN_neg (- x)) by lra. rewrite (RN_pos x P).
    assert (E : - - x == x) by ring. rewrite E. reflexivity.
  - rewrite (RN_0 x Z). rewrite RN_0; [ring | lra].
Qed.

Lemma RN_mono x y : x <= y -> RN x <= RN y.
Proof.
  intros H.
  destruct (Q_dec x 0) as [[Nx|Px]|Zx]; destruct (Q_dec y 0) as [[Ny|Py]|Zy];
    try (exfalso; lra).
  - rewrite (RN_neg x Nx), (RN_neg y Ny).
    assert (RNpos (- y) <= RNpos (- x)) by (apply RNpos_mono; lra). lra.
  - rewrite (RN_neg x Nx), (RN_pos y Py).
    pose proof (RNpos_nonneg (- x)). pose proof (RNpos_nonneg y). lra.
  - rewrite (RN_neg x Nx), (RN_0 y Zy). pose proof (RNpos_nonneg (- x)). lra.
  - rewrite (RN_pos x Px), (RN_pos y Py). apply RNpos_mono; lra.
  - rewrite (RN_0 x Zx), (RN_pos y Py). pose proof (RNpos_nonneg y). lra.
  - rewrite (RN_0 x Zx), (RN_0 y Zy). lra.
Qed.

Lemma Qmag_dyadic_le x N e :
  0 < x -> x == inject_Z N * pow2 e -> (N < 2 ^ 53)%Z -> (Qmag x <= 53 + e)%Z.
Proof.
  intros Hx HN HB. destruct (Qmag_spec x Hx) as [M1 M2].
  assert (NQ : inject_Z N < pow2 53).
  { rewrite pow2_Z by lia. rewrite <- Zlt_Qlt. exact HB. }
  pose proof (pow2_pos e) as Pe.
  assert (U : x < pow2 (53 + e)).
  { rewrite HN. rewrite pow2_add. apply Qmult_lt_compat_r; lra. }
  assert (Qmag x - 1 < 53 + e)%Z by (apply pow2_lt_inv; lra). lia.
Qed.

Lemma RNpos_exact x N e :
  0 < x -> x == inject_Z N * pow2 e -> (-1074 <= e)%Z -> (N < 2 ^ 53)%Z ->
  x < pow2 1024 -> RNpos x == x.
Proof.
  intros Hx HN He HB HT.
  pose proof (Qmag_dyadic_le x N e Hx HN HB) as MD.
  unfold RNpos. rewrite fexp_eq. set (E := Z.max (Qmag x - 53) (-1074)).
  assert (EE : (E <= e)%Z) by lia.
  assert (XE : x * pow2 (- E) == inject_Z (N * 2 ^ (e - E))).
  { rewrite HN. rewrite inject_Z_mult. rewrite <- pow2_Z by lia.
    rewrite <- Qmult_assoc. rewrite (pow2_split e (- E) (e - E)) by lia. reflexivity. }
  rewrite (rne_Proper _ _ XE). rewrite rne_Z.
  assert (V : inject_Z (N * 2 ^ (e - E)) * pow2 E == x).
  { rewrite HN. rewrite inject_Z_mult. rewrite <- pow2_Z by lia.
    rewrite <- Qmult_assoc. rewrite (pow2_split (e - E) E e) by lia. reflexivity. }
  rewrite V. apply clamp_lt. exact HT.
Qed.

Lemma binary_round_aux_RN s m e l x :
  (0 < m)%Z ->
  inbetween m l (x * pow2 (- e)) ->
  (e <= fexp prec emax (Qmag x))%Z ->
  SFsign (binary_round_aux prec emax s m e l) = Some s /\
  SF2Q (binary_round_aux prec emax s m e l) == cond_Qopp s (RNpos x).
Proof.
  intros Hm Hin He.
  assert (MG : Qmag x = (Zdigits2 m + e)%Z).
  { destruct (Zdigits2_bounds_Q m Hm) as [D1 D2].
    pose proof (inbetween_bounds _ _ _ Hin) as [I1 I2].
    pose proof (pow2_pos e) as Pe.
    assert (XE : x == x * pow2 (- e) * pow2 e).
    { rewrite <- Qmult_assoc. rewrite (pow2_split (- e) e 0) by lia.
      change (pow2 0) with 1. ring. }
    apply Qmag_unique.
    - rewrite XE. replace (Zdigits2 m + e - 1)%Z with ((Zdigits2 m - 1) + e)%Z by lia.
      rewrite pow2_add. apply Qmult_le_compat_r; lra.
    - rewrite XE. rewrite pow2_add. apply Qmult_lt_compat_r; lra. }
  rewrite MG in He. unfold RNpos. rewrite MG.
  apply binary_round_aux_correct; try assumption; lia.
Qed.

Lemma Pos_iter_xO m d : Z.pos (Pos.iter xO m d) = (Z.pos m * 2 ^ Z.pos d)%Z.
Proof.
  revert m. induction d using Pos.peano_ind; intros m.
  - rewrite Pos.iter_succ_r || idtac. cbn [Pos.iter]. lia.
  - rewrite Pos.iter_succ. rewrite Pos2Z.inj_xO, IHd, Pos2Z.inj_succ.
    rewrite Z.pow_succ_r by lia. lia.
Qed.

Lemma shl_align_spec mx ex ex' :
  snd (shl_align mx ex ex') = Z.min ex ex' /\
  Z.pos (fst (shl_align mx ex ex')) = (Z.pos mx * 2 ^ (ex - Z.min ex ex'))%Z.
Proof.
  unfold shl_align. destruct (ex' - ex)%Z as [|d|d] eqn:E; cbn [fst snd].
  - split; [lia|]. replace (ex - Z.min ex ex')%Z with 0%Z by lia. lia.
  - split; [lia|]. replace (ex - Z.min ex ex')%Z with 0%Z by lia. lia.
  - split; [lia|]. rewrite Pos_iter_xO. f_equal. f_equal. lia.
Qed.

Lemma shl_align_value mx ex ex' :
  inject_Z (Z.pos (fst (shl_align mx ex ex'))) * pow2 (snd (shl_align mx ex ex'))
  == inject_Z (Z.pos mx) * pow2 ex.
Proof.
  destruct (shl_align_spec mx ex ex') as [-> ->].
  rewrite inject_Z_mult. rewrite <- pow2_Z by lia.
  rewrite <- Qmult_assoc. rewrite (pow2_split (ex - Z.min ex ex') (Z.min ex ex') ex) by lia.
  reflexivity.
Qed.

Lemma Zpos_Qpos p : 0 < inject_Z (Z.pos p).
Proof. change 0 with (inject_Z 0). rewrite <- Zlt_Qlt. lia. Qed.

Lemma Qmag_digits m e :
  (0 < m)%Z -> Qmag (inject_Z m * pow2 e) = (Zdigits2 m + e)%Z.
Proof.
  intros Hm. destruct (Zdigits2_bounds_Q m Hm) as [D1 D2].
  pose proof (pow2_pos e) as Pe.
  apply Qmag_unique.
  - replace (Zdigits2 m + e - 1)%Z with ((Zdigits2 m - 1) + e)%Z by lia.
    rewrite pow2_add. apply Qmult_le_compat_r; lra.
  - rewrite pow2_add. apply Qmult_lt_compat_r; lra.
Qed.

Lemma binary_round_RN s mx ex :
  SFsign (binary_round prec emax s mx ex) = Some s /\
  SF2Q (binary_round prec emax s mx ex) ==
    cond_Qopp s (RNpos (inject_Z (Z.pos mx) * pow2 ex)).
Proof.
  unfold binary_round.
  pose proof (shl_align_spec mx ex (fexp prec emax (Z.pos (digits2_pos mx) + ex))) as [S1 S2].
  pose proof (shl_align_value mx ex (fexp prec emax (Z.pos (digits2_pos mx) + ex))) as SV.
  destruct (shl_align mx ex (fexp prec emax (Z.pos (digits2_pos mx) + ex))) as [mz ez].
  cbn [fst snd] in *.
  apply binary_round_aux_RN.
  - lia.
  - cbn [inbetween]. rewrite <- SV. rewrite <- Qmult_assoc.
    rewrite (pow2_split ez (- ez) 0) by lia. change (pow2 0) with 1. ring.
  - rewrite (Qmag_digits (Z.pos mx) ex) by lia. cbn [Zdigits2]. lia.
Qed.

Lemma Zdigits2_shift m k :
  (0 < m)%Z -> (0 <= k)%Z -> Zdigits2 (m * 2 ^ k) = (Zdigits2 m + k)%Z.
Proof.
  intros Hm Hk. destruct (Zdigits2_bounds m Hm) as [[B1 B2] Hd].
  assert (P : (0 < 2 ^ k)%Z) by (apply Z.pow_pos_nonneg; lia).
  apply Zdigits2_unique; [nia| |lia].
  replace (Zdigits2 m + k - 1)%Z with ((Zdigits2 m - 1) + k)%Z by lia.
  rewrite !Z.pow_add_r by lia. nia.
Qed.

Lemma binary_round_valid s mx ex :
  valid_binary (binary_round prec emax s mx ex) = true.
Proof.
  unfold binary_round.
  pose proof (shl_align_spec mx ex (fexp prec emax (Z.pos (digits2_pos mx) + ex))) as [S1 S2].
  pose proof (shl_align_value mx ex (fexp prec emax (Z.pos (digits2_pos mx) + ex))) as SV.
  destruct (shl_align mx ex (fexp prec emax (Z.pos (digits2_pos mx) + ex))) as [mz ez].
  cbn [fst snd] in *.
  assert (DG : (Zdigits2 (Z.pos mz) + ez = Z.pos (digits2_pos mx) + ex)%Z).
  { rewrite S2, S1. rewrite Zdigits2_shift by lia. cbn [Zdigits2]. lia. }
  apply (binary_round_aux_valid s (Z.pos mz) ez loc_Exact (inject_Z (Z.pos mz) * pow2 ez)).
  - lia.
  - cbn [inbetween]. rewrite <- Qmult_assoc.
    rewrite (pow2_split ez (- ez) 0) by lia. change (pow2 0) with 1. ring.
  - rewrite DG. lia.
  - intros H. lia.
Qed.

Lemma binary_normalize_valid m e :
  valid_binary (binary_normalize prec emax m e false) = true.
Proof. destruct m; [reflexivity | apply binary_round_valid | apply binary_round_valid]. Qed.

Lemma binary_normalize_RN m e :
  SFsign (binary_normalize prec emax m e false) = Some (m <? 0)%Z /\
  SF2Q (binary_normalize prec emax m e false) == RN (inject_Z m * pow2 e).
Proof.
  pose proof (pow2_pos e) as Pe.
  destruct m as [|p|p]; cbn [binary_normalize].
  - split; [reflexivity|]. cbn [SF2Q]. rewrite RN_0; [reflexivity|].
    change (inject_Z 0) with 0. ring.
  - destruct (binary_round_RN false p e) as [A B]. split; [exact A|].
    rewrite B. cbn [cond_Qopp]. rewrite RN_pos; [reflexivity|].
    pose proof (Zpos_Qpos p). nra.
  - destruct (binary_round_RN true p e) as [A B]. split; [exact A|].
    rewrite B. cbn [cond_Qopp].
    assert (N : inject_Z (Z.neg p) == - inject_Z (Z.pos p)).
    { rewrite <- inject_Z_opp. reflexivity. }
    pose proof (Zpos_Qpos p).
    rewrite RN_neg by (rewrite N; nra).
    assert (E : - (inject_Z (Z.neg p) * pow2 e) == inject_Z (Z.pos p) * pow2 e)
      by (rewrite N; ring).
    rewrite E. reflexivity.
Qed.

Lemma valid_finite_bounds s m e :
  valid_binary (S754_finite s m e) = true ->
  (-1074 <= e <= 971)%Z /\ (Z.pos m < 2 ^ 53)%Z /\ ((-1074 < e)%Z -> (2 ^ 52 <= Z.pos m)%Z)
  /\ e = fexp prec emax (Zdigits2 (Z.pos m) + e).
Proof.
  cbn [valid_binary]. unfold bounded, canonical_mantissa. intros H.
  apply andb_true_iff in H. destruct H as [C B].
  apply Z.eqb_eq in C. apply Z.leb_le in B. change (emax - prec)%Z with 971%Z in B.
  change (Z.pos (digits2_pos m)) with (Zdigits2 (Z.pos m)) in C.
  pose proof C as C'. rewrite fexp_eq in C.
  destruct (Zdigits2_bounds (Z.pos m)) as [[B1 B2] Hd]; [lia|].
  set (d := Zdigits2 (Z.pos m)) in *.
  split; [lia|]. split.
  - assert (2 ^ d <= 2 ^ 53)%Z by (apply Z.pow_le_mono_r; lia). lia.
  - split; [|symmetry; exact C']. intros HN. replace d with 53%Z in B1 by lia. exact B1.
Qed.

Lemma valid_finite_Q s m e :
  valid_binary (S754_finite s m e) = true ->
  inject_Z (Z.pos m) * pow2 e < pow2 1024 /\ pow2 (-1074) <= inject_Z (Z.pos m) * pow2 e.
Proof.
  intros H. destruct (valid_finite_bounds s m e H) as (He & Hm & _).
  pose proof (pow2_pos e) as Pe. pose proof (Zpos_Qpos m) as Pm.
  assert (MQ : inject_Z (Z.pos m) < pow2 53).
  { rewrite pow2_Z by lia. rewrite <- Zlt_Qlt. exact Hm. }
  assert (M1 : 1 <= inject_Z (Z.pos m)).
  { change 1 with (inject_Z 1). rewrite <- Zle_Qle. lia. }
  split.
  - rewrite <- (pow2_split 53 971 1024) by lia.
    apply Qmult_lt_le_compat; try lra. apply pow2_le; lia.
  - apply Qle_trans with (1 * pow2 e).
    + rewrite Qmult_1_l. apply pow2_le. lia.
    + apply Qmult_le_compat_r; lra.
Qed.

Lemma finite_lt_exp s1 m1 e1 s2 m2 e2 :
  valid_binary (S754_finite s1 m1 e1) = true ->
  valid_binary (S754_finite s2 m2 e2) = true ->
  (e1 < e2)%Z ->
  inject_Z (Z.pos m1) * pow2 e1 < inject_Z (Z.pos m2) * pow2 e2.
Proof.
  intros V1 V2 L.
  destruct (valid_finite_bounds _ _ _ V1) as (He1 & Hm1 & _).
  destruct (valid_finite_bounds _ _ _ V2) as (He2 & _ & Hn2 & _).
  pose proof (pow2_pos e1) as P1. pose proof (pow2_pos e2) as P2.
  pose proof (pow2_pos 52) as P52.
  assert (M1 : inject_Z (Z.pos m1) < pow2 53).
  { rewrite pow2_Z by lia. rewrite <- Zlt_Qlt. exact Hm1. }
  assert (M2 : pow2 52 <= inject_Z (Z.pos m2)).
  { rewrite pow2_Z by lia. rewrite <- Zle_Qle. apply Hn2. lia. }
  apply Qlt_le_trans with (pow2 53 * pow2 e1).
  - apply Qmult_lt_compat_r; lra.
  - apply Qle_trans with (pow2 52 * pow2 e2).
    + rewrite <- !pow2_add. apply pow2_le. lia.
    + apply Qmult_le_compat_r; lra.
Qed.

Lemma Qcompare_Lt a b : a < b -> (a ?= b) = Lt.
Proof. intros H. rewrite <- Qlt_alt. exact H. Qed.
Lemma Qcompare_Gt a b : b < a -> (a ?= b) = Gt.
Proof. intros H. rewrite <- Qgt_alt. exact H. Qed.
Lemma Qcompare_Eq a b : a == b -> (a ?= b) = Eq.
Proof. intros H. rewrite <- Qeq_alt. exact H. Qed.

Lemma finite_compare_pos s1 m1 e1 s2 m2 e2 :
  valid_binary (S754_finite s1 m1 e1) = true ->
  valid_binary (S754_finite s2 m2 e2) = true ->
  match (e1 ?= e2)%Z with
  | Lt => Lt
  | Gt => Gt
  | Eq => Pos.compare_cont Eq m1 m2
  end = (inject_Z (Z.pos m1) * pow2 e1 ?= inject_Z (Z.pos m2) * pow2 e2).
Proof.
  intros V1 V2. destruct (Z.compare_spec e1 e2) as [E|L|G].
  - subst e2. change (Pos.compare_cont Eq m1 m2) with (m1 ?= m2)%positive.
    pose proof (pow2_pos e1) as P1.
    destruct (Pos.compare_spec m1 m2) as [E|L|G]; symmetry.
    + subst. apply Qcompare_Eq. reflexivity.
    + apply Qcompare_Lt. apply Qmult_lt_compat_r; [lra|]. rewrite <- Zlt_Qlt. lia.
    + apply Qcompare_Gt. apply Qmult_lt_compat_r; [lra|]. rewrite <- Zlt_Qlt. lia.
  - symmetry. apply Qcompare_Lt. eapply finite_lt_exp; eassumption.
  - symmetry. apply Qcompare_Gt. eapply finite_lt_exp; eassumption.
Qed.

Lemma Qcompare_opp a b : (- a ?= - b) = CompOpp (a ?= b).
Proof.
  destruct (Qcompare_spec a b) as [E|L|G]; cbn [CompOpp].
  - apply Qcompare_Eq. rewrite E. reflexivity.
  - apply Qcompare_Gt. lra.
  - apply Qcompare_Lt. lra.
Qed.

(** [SFcompare] is the order of the rational values. *)
Lemma SFcompare_Q x y :
  valid_binary x = true -> valid_binary y = true ->
  x <> S754_nan -> y <> S754_nan ->
  SFcompare x y = Some (SF2Q x ?= SF2Q y).
Proof.
  intros Vx Vy Nx Ny. pose proof (pow2_pos 1024) as PT.
  destruct x as [sx|sx| |sx mx ex]; try congruence;
  destruct y as [sy|sy| |sy my ey]; try congruence; cbn [SFcompare SF2Q]; f_equal; symmetry.
  - destruct sy; cbn [cond_Qopp]; [apply Qcompare_Gt | apply Qcompare_Lt]; lra.
  - destruct (valid_finite_Q _ _ _ Vy) as [_ L]. pose proof (pow2_pos (-1074)).
    destruct sy; cbn [cond_Qopp]; [apply Qcompare_Gt | apply Qcompare_Lt]; lra.
  - destruct sx; cbn [cond_Qopp]; [apply Qcompare_Lt | apply Qcompare_Gt]; lra.
  - destruct sx, sy; cbn [cond_Qopp];
      [apply Qcompare_Eq | apply Qcompare_Lt | apply Qcompare_Gt | apply Qcompare_Eq]; lra.
  - destruct (valid_finite_Q _ _ _ Vy) as [U L]. pose proof (pow2_pos (-1074)).
    destruct sx, sy; cbn [cond_Qopp]; [apply Qcompare_Lt | apply Qcompare_Lt |
      apply Qcompare_Gt | apply Qcompare_Gt]; lra.
  - destruct (valid_finite_Q _ _ _ Vx) as [_ L]. pose proof (pow2_pos (-1074)).
    destruct sx; cbn [cond_Qopp]; [apply Qcompare_Lt | apply Qcompare_Gt]; lra.
  - destruct (valid_finite_Q _ _ _ Vx) as [U L]. pose proof (pow2_pos (-1074)).
    destruct sx, sy; cbn [cond_Qopp]; [apply Qcompare_Gt | apply Qcompare_Lt |
      apply Qcompare_Gt | apply Qcompare_Lt]; lra.
  - destruct (valid_finite_Q _ _ _ Vx) as [Ux Lx].
    destruct (valid_finite_Q _ _ _ Vy) as [Uy Ly]. pose proof (pow2_pos (-1074)).
    destruct sx, sy; cbn [cond_Qopp].
    + rewrite Qcompare_opp. rewrite <- (finite_compare_pos _ _ _ _ _ _ Vx Vy).
      destruct (ex ?= ey)%Z; reflexivity.
    + apply Qcompare_Lt. lra.
    + apply Qcompare_Gt. lra.
    + symmetry. apply (finite_compare_pos _ _ _ _ _ _ Vx Vy).
Qed.

Lemma binary_round_aux_RN0 s e l x :
  0 < x ->
  inbetween 0 l (x * pow2 (- e)) ->
  (e <= -1074)%Z ->
  SFsign (binary_round_aux prec emax s 0 e l) = Some s /\
  SF2Q (binary_round_aux prec emax s 0 e l) == cond_Qopp s (RNpos x).
Proof.
  intros Hx Hin He.
  assert (F0 : fexp prec emax (Zdigits2 0 + e) = (-1074)%Z).
  { rewrite fexp_eq. cbn [Zdigits2]. lia. }
  assert (FX : fexp prec emax (Qmag x) = (-1074)%Z).
  { destruct (Qmag_spec x Hx) as [M1 M2].
    pose proof (inbetween_bounds _ _ _ Hin) as [_ I2].
    pose proof (pow2_pos e) as Pe.
    assert (XE : x == x * pow2 (- e) * pow2 e).
    { rewrite <- Qmult_assoc. rewrite (pow2_split (- e) e 0) by lia.
      change (pow2 0) with 1. ring. }
    assert (U : x < pow2 e).
    { rewrite XE. change (inject_Z 0) with 0 in I2.
      setoid_replace (pow2 e) with (1 * pow2 e) at 2 by ring.
      apply Qmult_lt_compat_r; lra. }
    assert (Qmag x - 1 < e)%Z by (apply pow2_lt_inv; lra).
    rewrite fexp_eq. lia. }
  unfold RNpos. rewrite FX, <- F0.
  apply binary_round_aux_correct; try assumption; lia.
Qed.

Lemma Zdigits2_ge m k : (0 <= k)%Z -> (2 ^ k <= m)%Z -> (k + 1 <= Zdigits2 m)%Z.
Proof.
  intros Hk H. assert (Hm : (0 < m)%Z) by (pose proof (Z.pow_pos_nonneg 2 k); lia).
  destruct (Zdigits2_bounds m Hm) as [[_ B2] Hd].
  destruct (Z_le_gt_dec (k + 1) (Zdigits2 m)) as [L|G]; [exact L|exfalso].
  assert (2 ^ Zdigits2 m <= 2 ^ k)%Z by (apply Z.pow_le_mono_r; lia). lia.
Qed.

Lemma cond_Qopp_xorb a b p q :
  cond_Qopp a p * cond_Qopp b q == cond_Qopp (xorb a b) (p * q).
Proof. destruct a, b; cbn [cond_Qopp xorb]; ring. Qed.

Lemma RN_cond_Qopp s q : 0 < q -> RN (cond_Qopp s q) == cond_Qopp s (RNpos q).
Proof.
  intros H. destruct s; cbn [cond_Qopp].
  - rewrite RN_opp, RN_pos by exact H. reflexivity.
  - apply RN_pos. exact H.
Qed.

(** Multiplication of finite data rounds the exact product. *)
Lemma SFmul_fin x y :
  valid_binary x = true -> valid_binary y = true ->
  SFfin x = true -> SFfin y = true ->
  SFsign (SFmul prec emax x y) = SFsign_xor x y /\
  SF2Q (SFmul prec emax x y) == RN (SF2Q x * SF2Q y).
Proof.
  intros Vx Vy Fx Fy.
  destruct x as [sx|sx| |sx mx ex]; try discriminate;
  destruct y as [sy|sy| |sy my ey]; try discriminate; cbn [SFmul SF2Q];
    unfold SFsign_xor; cbn [SFsign].
  - split; [reflexivity|]. rewrite RN_0; [reflexivity | ring].
  - split; [reflexivity|]. rewrite RN_0; [reflexivity | ring].
  - split; [reflexivity|]. rewrite RN_0; [reflexivity | ring].
  - destruct (valid_finite_bounds _ _ _ Vx) as (Hex & Hmx & Hnx & _).
    destruct (valid_finite_bounds _ _ _ Vy) as (Hey & Hmy & Hny & _).
    pose proof (Zpos_Qpos mx) as Px. pose proof (Zpos_Qpos my) as Py.
    pose proof (pow2_pos ex) as Pex. pose proof (pow2_pos ey) as Pey.
    set (X := inject_Z (Z.pos (mx * my)) * pow2 (ex + ey)).
    assert (XV : inject_Z (Z.pos mx) * pow2 ex * (inject_Z (Z.pos my) * pow2 ey) == X).
    { unfold X. rewrite Pos2Z.inj_mul, inject_Z_mult, pow2_add. ring. }
    assert (XP : 0 < X)
      by (rewrite <- XV; apply Qmult_lt_0_compat; apply Qmult_lt_0_compat; assumption).
    rewrite cond_Qopp_xorb, XV. rewrite RN_cond_Qopp by exact XP.
    apply binary_round_aux_RN.
    + lia.
    + cbn [inbetween]. fold X. unfold X. rewrite <- Qmult_assoc.
      rewrite (pow2_split (ex + ey) (- (ex + ey)) 0) by lia. change (pow2 0) with 1. ring.
    + unfold X. rewrite Qmag_digits by lia. rewrite fexp_eq.
      destruct (Z_le_gt_dec ex (-1074)) as [Lx|Gx];
      destruct (Z_le_gt_dec ey (-1074)) as [Ly|Gy]; try lia.
      * assert (2 ^ 52 <= Z.pos (mx * my))%Z by (rewrite Pos2Z.inj_mul; nia).
        pose proof (Zdigits2_ge (Z.pos (mx * my)) 52). lia.
      * assert (2 ^ 52 <= Z.pos (mx * my))%Z by (rewrite Pos2Z.inj_mul; nia).
        pose proof (Zdigits2_ge (Z.pos (mx * my)) 52). lia.
      * assert (2 ^ 52 <= Z.pos (mx * my))%Z by (rewrite Pos2Z.inj_mul; nia).
        pose proof (Zdigits2_ge (Z.pos (mx * my)) 52). lia.
Qed.

(** Valid finite data are fixed points of the rounding. *)
Lemma RN_valid f :
  valid_binary f = true -> SFfin f = true -> RN (SF2Q f) == SF2Q f.
Proof.
  intros V F. destruct f as [s|s| |s m e]; try discriminate; cbn [SF2Q].
  - apply RN_0. reflexivity.
  - destruct (valid_finite_bounds _ _ _ V) as (He & Hm & _).
    destruct (valid_finite_Q _ _ _ V) as [U _].
    pose proof (Zpos_Qpos m) as Pm. pose proof (pow2_pos e) as Pe.
    assert (P : 0 < inject_Z (Z.pos m) * pow2 e) by (apply Qmult_lt_0_compat; assumption).
    rewrite RN_cond_Qopp by exact P.
    rewrite (RNpos_exact _ (Z.pos m) e); try reflexivity; try assumption; lia.
Qed.

Lemma valid_opp s m e :
  valid_binary (S754_finite s m e) = true ->
  valid_binary (S754_finite (negb s) m e) = true.
Proof. intros H. exact H. Qed.

Lemma inject_Z_cond_Zopp s m : inject_Z (cond_Zopp s m) == cond_Qopp s (inject_Z m).
Proof. destruct s; cbn [cond_Zopp cond_Qopp]; [rewrite inject_Z_opp|]; reflexivity. Qed.

Lemma cond_Qopp_mult_l s a b : cond_Qopp s a * b == cond_Qopp s (a * b).
Proof. destruct s; cbn [cond_Qopp]; ring. Qed.

Lemma cond_Qopp_negb s a : cond_Qopp (negb s) a == - cond_Qopp s a.
Proof. destruct s; cbn [cond_Qopp negb]; ring. Qed.

Lemma shl_align_min_value mx ex ey :
  inject_Z (Z.pos (fst (shl_align mx ex (Z.min ex ey)))) * pow2 (Z.min ex ey)
  == inject_Z (Z.pos mx) * pow2 ex.
Proof.
  pose proof (shl_align_value mx ex (Z.min ex ey)) as V.
  destruct (shl_align_spec mx ex (Z.min ex ey)) as [S _].
  rewrite S in V. replace (Z.min ex (Z.min ex ey)) with (Z.min ex ey) in V by lia.
  exact V.
Qed.

Lemma shl_align_min_value' mx ex ey :
  inject_Z (Z.pos (fst (shl_align mx ex (Z.min ey ex)))) * pow2 (Z.min ey ex)
  == inject_Z (Z.pos mx) * pow2 ex.
Proof. rewrite Z.min_comm. apply shl_align_min_value. Qed.

(** Subtraction and addition of finite data round the exact result. *)
Lemma SFsub_fin x y :
  valid_binary x = true -> valid_binary y = true ->
  SFfin x = true -> SFfin y = true ->
  SFsign (SFsub prec emax x y) <> None /\
  SF2Q (SFsub prec emax x y) == RN (SF2Q x - SF2Q y).
Proof.
  intros Vx Vy Fx Fy.
  destruct x as [sx|sx| |sx mx ex]; try discriminate;
  destruct y as [sy|sy| |sy my ey]; try discriminate; cbn [SFsub].
  - split; [destruct sx, sy; discriminate|].
    assert (E : SF2Q (S754_zero sx) - SF2Q (S754_zero sy) == 0) by (cbn [SF2Q]; ring).
    rewrite (RN_0 _ E). destruct sx, sy; reflexivity.
  - split; [discriminate|].
    assert (E : SF2Q (S754_zero sx) - SF2Q (S754_finite sy my ey)
                == SF2Q (S754_finite (negb sy) my ey)).
    { cbn [SF2Q]. rewrite cond_Qopp_negb. ring. }
    rewrite E. symmetry. apply RN_valid; [apply valid_opp; exact Vy | reflexivity].
  - split; [discriminate|].
    assert (E : SF2Q (S754_finite sx mx ex) - SF2Q (S754_zero sy)
                == SF2Q (S754_finite sx mx ex)) by (cbn [SF2Q]; ring).
    rewrite E. symmetry. apply RN_valid; [exact Vx | reflexivity].
  - cbv zeta.
    destruct (binary_normalize_RN
      (cond_Zopp sx (Z.pos (fst (shl_align mx ex (Z.min ex ey)))) -
       cond_Zopp sy (Z.pos (fst (shl_align my ey (Z.min ex ey))))) (Z.min ex ey)) as [A B].
    split; [rewrite A; discriminate|]. rewrite B. apply RN_Proper.
    unfold Z.sub. rewrite inject_Z_plus, inject_Z_opp, !inject_Z_cond_Zopp.
    cbn [SF2Q]. rewrite <- (shl_align_min_value mx ex ey), <- (shl_align_min_value' my ey ex).
    rewrite <- !cond_Qopp_mult_l. ring.
Qed.

Lemma SFadd_fin x y :
  valid_binary x = true -> valid_binary y = true ->
  SFfin x = true -> SFfin y = true ->
  SFsign (SFadd prec emax x y) <> None /\
  SF2Q (SFadd prec emax x y) == RN (SF2Q x + SF2Q y).
Proof.
  intros Vx Vy Fx Fy.
  destruct x as [sx|sx| |sx mx ex]; try discriminate;
  destruct y as [sy|sy| |sy my ey]; try discriminate; cbn [SFadd].
  - split; [destruct sx, sy; discriminate|].
    assert (E : SF2Q (S754_zero sx) + SF2Q (S754_zero sy) == 0) by (cbn [SF2Q]; ring).
    rewrite (RN_0 _ E). destruct sx, sy; reflexivity.
  - split; [discriminate|].
    assert (E : SF2Q (S754_zero sx) + SF2Q (S754_finite sy my ey)
                == SF2Q (S754_finite sy my ey)) by (cbn [SF2Q]; ring).
    rewrite E. symmetry. apply RN_valid; [exact Vy | reflexivity].
  - split; [discriminate|].
    assert (E : SF2Q (S754_finite sx mx ex) + SF2Q (S754_zero sy)
                == SF2Q (S754_finite sx mx ex)) by (cbn [SF2Q]; ring).
    rewrite E. symmetry. apply RN_valid; [exact Vx | reflexivity].
  - cbv zeta.
    destruct (binary_normalize_RN
      (cond_Zopp sx (Z.pos (fst (shl_align mx ex (Z.min ex ey)))) +
       cond_Zopp sy (Z.pos (fst (shl_align my ey (Z.min ex ey))))) (Z.min ex ey)) as [A B].
    split; [rewrite A; discriminate|]. rewrite B. apply RN_Proper.
    rewrite inject_Z_plus, !inject_Z_cond_Zopp.
    cbn [SF2Q]. rewrite <- (shl_align_min_value mx ex ey), <- (shl_align_min_value' my ey ex).
    rewrite <- !cond_Qopp_mult_l. ring.
Qed.

Lemma new_location_inbetween d r q X :
  (0 < d)%Z -> (0 <= r < d)%Z ->
  X * inject_Z d == inject_Z q * inject_Z d + inject_Z r ->
  inbetween q (new_location d r) X.
Proof.
  intros Hd Hr HX.
  assert (PD : 0 < inject_Z d) by (change 0 with (inject_Z 0); rewrite <- Zlt_Qlt; lia).
  assert (R0 : 0 <= inject_Z r) by (apply Zpos_Q; lia).
  assert (RD : inject_Z r < inject_Z d) by (rewrite <- Zlt_Qlt; lia).
  unfold new_location, new_location_even, new_location_odd.
  destruct (Z.eqb_spec r 0) as [->|NZ].
  - assert (E : inbetween q loc_Exact X).
    { cbn [inbetween]. change (inject_Z 0) with 0 in HX. nra. }
    destruct (Z.even d); cbn [Z.eqb]; exact E.
  - assert (RP : 0 < inject_Z r) by (change 0 with (inject_Z 0); rewrite <- Zlt_Qlt; lia).
    assert (B1 : inject_Z q < X) by nra.
    assert (B2 : X < inject_Z q + 1) by nra.
    assert (C : forall c, (2 * r ?= d)%Z = c -> c <> Eq \/ Z.even d = true ->
                (X - inject_Z q ?= (1 # 2)) = c).
    { intros c Hc _. rewrite <- Hc. destruct (Z.compare_spec (2 * r) d) as [E|L|G].
      - apply Qcompare_Eq.
        assert (2 * inject_Z r == inject_Z d).
        { rewrite <- E. rewrite inject_Z_mult. reflexivity. }
        nra.
      - apply Qcompare_Lt.
        assert (2 * inject_Z r < inject_Z d).
        { change 2 with (inject_Z 2). rewrite <- inject_Z_mult. rewrite <- Zlt_Qlt. exact L. }
        nra.
      - apply Qcompare_Gt.
        assert (inject_Z d < 2 * inject_Z r).
        { change 2 with (inject_Z 2). rewrite <- inject_Z_mult. rewrite <- Zlt_Qlt. exact G. }
        nra. }
    assert (NZb : (r =? 0)%Z = false) by (apply Z.eqb_neq; exact NZ).
    destruct (Z.even d) eqn:EV; rewrite NZb; cbn [inbetween]; repeat split; try assumption.
    + apply C; [reflexivity | right; reflexivity].
    + assert (OD : Z.odd d = true) by (rewrite <- Z.negb_even, EV; reflexivity).
      apply Z.odd_spec in OD. destruct OD as [k Hk].
      destruct (Z.compare_spec (2 * r + 1) d) as [E|L|G].
      * apply C; [|left; discriminate]. apply Z.compare_lt_iff. lia.
      * apply C; [|left; discriminate]. apply Z.compare_lt_iff. lia.
      * apply C; [|left; discriminate]. apply Z.compare_gt_iff. lia.
Qed.

Lemma fexp_mono a b : (a <= b)%Z -> (fexp prec emax a <= fexp prec emax b)%Z.
Proof. intros H. rewrite !fexp_eq. lia. Qed.

Lemma Qdiv_pos a b : 0 < a -> 0 < b -> 0 < a / b.
Proof.
  intros Ha Hb. unfold Qdiv. apply Qmult_lt_0_compat; [exact Ha|].
  apply Qinv_lt_0_compat. exact Hb.
Qed.

Lemma SFdiv_core_shift mx s :
  (0 <= s)%Z ->
  match s with
  | Z.pos _ => Z.shiftl (Z.pos mx) s
  | 0%Z => Z.pos mx
  | Z.neg _ => 0%Z
  end = (Z.pos mx * 2 ^ s)%Z.
Proof.
  intros H. destruct s as [|p|p]; try lia.
  rewrite Z.shiftl_mul_pow2 by lia. reflexivity.
Qed.

(** Division of finite data rounds the exact quotient. *)
Lemma SFdiv_finite sx mx ex sy my ey :
  valid_binary (S754_finite sx mx ex) = true ->
  valid_binary (S754_finite sy my ey) = true ->
  SFsign (SFdiv prec emax (S754_finite sx mx ex) (S754_finite sy my ey))
    = Some (xorb sx sy) /\
  SF2Q (SFdiv prec emax (S754_finite sx mx ex) (S754_finite sy my ey)) ==
    cond_Qopp (xorb sx sy)
      (RNpos ((inject_Z (Z.pos mx) * pow2 ex) / (inject_Z (Z.pos my) * pow2 ey))).
Proof.
  intros Vx Vy.
  destruct (valid_finite_bounds _ _ _ Vx) as (Hex & Hmx & _).
  destruct (valid_finite_bounds _ _ _ Vy) as (Hey & Hmy & _).
  destruct (Zdigits2_bounds (Z.pos mx)) as [[X1 X2] Dx]; [lia|].
  destruct (Zdigits2_bounds (Z.pos my)) as [[Y1 Y2] Dy]; [lia|].
  destruct (Zdigits2_bounds_Q (Z.pos mx)) as [QX1 QX2]; [lia|].
  destruct (Zdigits2_bounds_Q (Z.pos my)) as [QY1 QY2]; [lia|].
  pose proof (Zpos_Qpos mx) as Px. pose proof (Zpos_Qpos my) as Py.
  pose proof (pow2_pos ex) as Pex. pose proof (pow2_pos ey) as Pey.
  set (d1 := Zdigits2 (Z.pos mx)) in *. set (d2 := Zdigits2 (Z.pos my)) in *.
  assert (D1 : (d1 <= 53)%Z).
  { destruct (Z_le_gt_dec d1 53) as [L|G]; [exact L|exfalso].
    assert (2 ^ 53 <= 2 ^ (d1 - 1))%Z by (apply Z.pow_le_mono_r; lia). lia. }
  set (X := (inject_Z (Z.pos mx) * pow2 ex) / (inject_Z (Z.pos my) * pow2 ey)).
  assert (XP : 0 < X).
  { unfold X. apply Qdiv_pos; apply Qmult_lt_0_compat; assumption. }
  cbn [SFdiv]. unfold SFdiv_core_binary. fold d1 d2.
  set (e' := Z.min (fexp prec emax (d1 + ex - (d2 + ey))) (ex - ey)).
  set (s := (ex - ey - e')%Z).
  assert (Hs : (0 <= s)%Z) by (unfold s, e'; lia).
  rewrite (SFdiv_core_shift mx s Hs).
  pose proof (Z_div_mod (Z.pos mx * 2 ^ s) (Z.pos my)) as DM.
  destruct (Z.div_eucl (Z.pos mx * 2 ^ s) (Z.pos my)) as [q r].
  destruct DM as [DM1 DM2]; [lia|].
  assert (Q0 : (0 <= q)%Z) by nia.
  (* the scaled quotient sits between q and q+1 as the location says *)
  assert (XS : X * pow2 (- e') * inject_Z (Z.pos my) ==
               inject_Z q * inject_Z (Z.pos my) + inject_Z r).
  { rewrite <- inject_Z_mult, <- inject_Z_plus.
    replace (q * Z.pos my + r)%Z with (Z.pos mx * 2 ^ s)%Z by lia.
    rewrite inject_Z_mult. rewrite <- (pow2_Z s) by exact Hs.
    unfold X. replace ex with (s + ey + e')%Z at 1 by (unfold s; lia).
    rewrite !pow2_add. rewrite pow2_opp.
    pose proof (pow2_pos e'). field. repeat split; lra. }
  pose proof (new_location_inbetween _ _ _ _ (Pos2Z.is_pos my) DM2 XS) as IB.
  (* the binade of the quotient *)
  assert (XL : pow2 (d1 + ex - (d2 + ey) - 1) <= X).
  { unfold X. apply Qle_shift_div_l; [apply Qmult_lt_0_compat; assumption|].
    apply Qle_trans with (pow2 (d1 + ex - (d2 + ey) - 1) * (pow2 d2 * pow2 ey)).
    - apply Qmult_le_l; [apply pow2_pos|]. apply Qmult_le_compat_r; lra.
    - rewrite <- !pow2_add. replace (d1 + ex - (d2 + ey) - 1 + (d2 + ey))%Z
        with ((d1 - 1) + ex)%Z by lia.
      rewrite pow2_add. apply Qmult_le_compat_r; lra. }
  assert (MG : (d1 + ex - (d2 + ey) <= Qmag X)%Z).
  { destruct (Qmag_spec X XP) as [_ M2].
    assert (d1 + ex - (d2 + ey) - 1 < Qmag X)%Z by (apply pow2_lt_inv; lra). lia. }
  assert (FE : (e' <= fexp prec emax (Qmag X))%Z).
  { pose proof (fexp_mono _ _ MG). unfold e'. lia. }
  rewrite <- RN_cond_Qopp by exact XP. rewrite RN_cond_Qopp by exact XP.
  destruct (Z.eq_dec q 0) as [->|NZ].
  - apply binary_round_aux_RN0; [exact XP | exact IB |].
    destruct (Z_le_gt_dec e' (-1074)) as [L|G]; [exact L|exfalso].
    assert (S1 : (53 - d1 + d2 <= s)%Z).
    { unfold s. unfold e' in G |- *. rewrite fexp_eq in G |- *. lia. }
    assert (P1 : (2 ^ (53 - d1 + d2) <= 2 ^ s)%Z) by (apply Z.pow_le_mono_r; lia).
    assert (P2 : (2 ^ (d1 - 1) * 2 ^ (53 - d1 + d2) = 2 ^ (52 + d2))%Z).
    { rewrite <- Z.pow_add_r by lia. f_equal. lia. }
    assert (P3 : (2 ^ d2 <= 2 ^ (52 + d2))%Z) by (apply Z.pow_le_mono_r; lia).
    assert (P4 : (0 < 2 ^ (53 - d1 + d2))%Z) by (apply Z.pow_pos_nonneg; lia).
    assert (P5 : (2 ^ (d1 - 1) * 2 ^ (53 - d1 + d2) <= Z.pos mx * 2 ^ s)%Z).
    { apply Z.mul_le_mono_nonneg; lia. }
    lia.
  - apply binary_round_aux_RN; [lia | exact IB | exact FE].
Qed.

Lemma SFcompare_refl p :
  valid_binary p = true -> p <> S754_nan -> SFcompare p p = Some Eq.
Proof.
  intros V N. rewrite SFcompare_Q by assumption. f_equal. apply Qcompare_Eq. reflexivity.
Qed.

Lemma is_nan_false x : is_nan x = false <-> Prim2SF x <> S754_nan.
Proof.
  unfold is_nan. rewrite FloatAxioms.eqb_spec. unfold SFeqb.
  pose proof (Prim2SF_valid x) as V. split.
  - intros H E. rewrite E in H. discriminate.
  - intros N. rewrite SFcompare_refl by assumption. reflexivity.
Qed.

Lemma is_nan_true x : is_nan x = true <-> Prim2SF x = S754_nan.
Proof.
  split.
  - intros H. destruct (Prim2SF x) eqn:E; try reflexivity;
      assert (N : is_nan x = false) by (apply is_nan_false; rewrite E; discriminate);
      congruence.
  - intros E. destruct (is_nan x) eqn:N; [reflexivity|].
    apply is_nan_false in N. contradiction.
Qed.

Lemma is_finite_spec x : is_finite x = SFfin (Prim2SF x).
Proof.
  unfold is_finite, is_infinity. rewrite FloatAxioms.eqb_spec, abs_spec.
  change (Prim2SF infinity) with (S754_infinity false).
  destruct (Prim2SF x) as [s|s| |s m e] eqn:E.
  - assert (N : is_nan x = false) by (apply is_nan_false; rewrite E; discriminate).
    rewrite N. reflexivity.
  - assert (N : is_nan x = false) by (apply is_nan_false; rewrite E; discriminate).
    rewrite N. reflexivity.
  - assert (N : is_nan x = true) by (apply is_nan_true; exact E).
    rewrite N. reflexivity.
  - assert (N : is_nan x = false) by (apply is_nan_false; rewrite E; discriminate).
    rewrite N. reflexivity.
Qed.

Lemma is_finite_not_nan x : is_finite x = true -> is_nan x = false.
Proof.
  rewrite is_finite_spec. intros H. apply is_nan_false. intros E. rewrite E in H. discriminate.
Qed.

(** Comparisons of numbers are comparisons of their rational values. *)
Lemma compare_F2Q x y :
  is_nan x = false -> is_nan y = false ->
  SFcompare (Prim2SF x) (Prim2SF y) = Some (F2Q x ?= F2Q y).
Proof.
  intros Nx Ny. apply SFcompare_Q; try apply Prim2SF_valid; apply is_nan_false; assumption.
Qed.

Lemma ltb_F2Q x y :
  is_nan x = false -> is_nan y = false -> ((x <? y)%float = true <-> F2Q x < F2Q y).
Proof.
  intros Nx Ny. rewrite FloatAxioms.ltb_spec. unfold SFltb. rewrite (compare_F2Q x y Nx Ny).
  rewrite Qlt_alt. destruct (F2Q x ?= F2Q y); split; intros; congruence.
Qed.

Lemma leb_F2Q x y :
  is_nan x = false -> is_nan y = false -> ((x <=? y)%float = true <-> F2Q x <= F2Q y).
Proof.
  intros Nx Ny. rewrite FloatAxioms.leb_spec. unfold SFleb. rewrite (compare_F2Q x y Nx Ny).
  rewrite Qle_alt. destruct (F2Q x ?= F2Q y); split; intros; congruence.
Qed.

Lemma eqb_F2Q x y :
  is_nan x = false -> is_nan y = false -> ((x =? y)%float = true <-> F2Q x == F2Q y).
Proof.
  intros Nx Ny. rewrite FloatAxioms.eqb_spec. unfold SFeqb. rewrite (compare_F2Q x y Nx Ny).
  rewrite Qeq_alt. destruct (F2Q x ?= F2Q y); split; intros; congruence.
Qed.

Lemma SFcompare_nan_l p : SFcompare S754_nan p = None.
Proof. reflexivity. Qed.

Lemma SFcompare_nan_r p : SFcompare p S754_nan = None.
Proof. destruct p; reflexivity. Qed.

Lemma ltb_not_nan x y : (x <? y)%float = true -> is_nan x = false /\ is_nan y = false.
Proof.
  rewrite FloatAxioms.ltb_spec. unfold SFltb. intros H. split; apply is_nan_false; intros E;
    rewrite E in H; [rewrite SFcompare_nan_l in H | rewrite SFcompare_nan_r in H]; discriminate.
Qed.

Lemma leb_not_nan x y : (x <=? y)%float = true -> is_nan x = false /\ is_nan y = false.
Proof.
  rewrite FloatAxioms.leb_spec. unfold SFleb. intros H. split; apply is_nan_false; intros E;
    rewrite E in H; [rewrite SFcompare_nan_l in H | rewrite SFcompare_nan_r in H]; discriminate.
Qed.

Lemma ltb_nan_l x y : is_nan x = true -> (x <? y)%float = false.
Proof.
  intros N. destruct (x <? y)%float eqn:E; [|reflexivity].
  apply ltb_not_nan in E. destruct E; congruence.
Qed.

Lemma ltb_nan_r x y : is_nan y = true -> (x <? y)%float = false.
Proof.
  intros N. destruct (x <? y)%float eqn:E; [|reflexivity].
  apply ltb_not_nan in E. destruct E; congruence.
Qed.

Lemma leb_nan_l x y : is_nan x = true -> (x <=? y)%float = false.
Proof.
  intros N. destruct (x <=? y)%float eqn:E; [|reflexivity].
  apply leb_not_nan in E. destruct E; congruence.
Qed.

Lemma leb_nan_r x y : is_nan y = true -> (x <=? y)%float = false.
Proof.
  intros N. destruct (x <=? y)%float eqn:E; [|reflexivity].
  apply leb_not_nan in E. destruct E; congruence.
Qed.

Lemma ltb_true_F2Q x y : (x <? y)%float = true -> F2Q x < F2Q y.
Proof. intros H. destruct (ltb_not_nan _ _ H). apply ltb_F2Q; assumption. Qed.

Lemma leb_true_F2Q x y : (x <=? y)%float = true -> F2Q x <= F2Q y.
Proof. intros H. destruct (leb_not_nan _ _ H). apply leb_F2Q; assumption. Qed.

Lemma ltb_false_F2Q x y :
  is_nan x = false -> is_nan y = false -> (x <? y)%float = false -> F2Q y <= F2Q x.
Proof.
  intros Nx Ny H. destruct (Qlt_le_dec (F2Q x) (F2Q y)) as [L|L]; [|exact L].
  apply (ltb_F2Q x y Nx Ny) in L. congruence.
Qed.

Lemma leb_false_F2Q x y :
  is_nan x = false -> is_nan y = false -> (x <=? y)%float = false -> F2Q y < F2Q x.
Proof.
  intros Nx Ny H. destruct (Qlt_le_dec (F2Q y) (F2Q x)) as [L|L]; [exact L|].
  apply (leb_F2Q x y Nx Ny) in L. congruence.
Qed.

Lemma SFsign_not_nan p : SFsign p <> None -> p <> S754_nan.
Proof. intros H E. subst p. apply H. reflexivity. Qed.

Lemma SFsign_xor_not_none p q :
  SFfin p = true -> SFfin q = true -> SFsign_xor p q <> None.
Proof. destruct p, q; try discriminate; intros _ _; unfold SFsign_xor; cbn; discriminate. Qed.

Lemma mul_F2Q x y :
  is_finite x = true -> is_finite y = true ->
  is_nan (x * y) = false /\ F2Q (x * y) == RN (F2Q x * F2Q y).
Proof.
  rewrite !is_finite_spec. intros Fx Fy.
  destruct (SFmul_fin _ _ (Prim2SF_valid x) (Prim2SF_valid y) Fx Fy) as [A B].
  unfold F2Q. rewrite is_nan_false, mul_spec. split; [|exact B].
  apply SFsign_not_nan. unfold SF64mul. rewrite A. apply SFsign_xor_not_none; assumption.
Qed.

Lemma sub_F2Q x y :
  is_finite x = true -> is_finite y = true ->
  is_nan (x - y) = false /\ F2Q (x - y) == RN (F2Q x - F2Q y).
Proof.
  rewrite !is_finite_spec. intros Fx Fy.
  destruct (SFsub_fin _ _ (Prim2SF_valid x) (Prim2SF_valid y) Fx Fy) as [A B].
  unfold F2Q. rewrite is_nan_false, sub_spec. split; [|exact B].
  apply SFsign_not_nan. exact A.
Qed.

Lemma add_F2Q x y :
  is_finite x = true -> is_finite y = true ->
  is_nan (x + y) = false /\ F2Q (x + y) == RN (F2Q x + F2Q y).
Proof.
  rewrite !is_finite_spec. intros Fx Fy.
  destruct (SFadd_fin _ _ (Prim2SF_valid x) (Prim2SF_valid y) Fx Fy) as [A B].
  unfold F2Q. rewrite is_nan_false, add_spec. split; [|exact B].
  apply SFsign_not_nan. exact A.
Qed.

Lemma Qdiv_cond_Qopp a b p q :
  0 < q -> cond_Qopp a p / cond_Qopp b q == cond_Qopp (xorb a b) (p / q).
Proof. intros H. destruct a, b; cbn [cond_Qopp xorb]; field; lra. Qed.

Lemma div_F2Q x y :
  is_finite x = true -> is_finite y = true -> is_zero y = false ->
  is_nan (x / y) = false /\ F2Q (x / y) == RN (F2Q x / F2Q y).
Proof.
  intros Fx Fy Zy. pose proof (is_finite_not_nan _ Fy) as Ny.
  assert (NZ : ~ F2Q y == 0).
  { intros E. apply (eqb_F2Q y PrimFloat.zero Ny eq_refl) in E. unfold is_zero in Zy. congruence. }
  rewrite is_finite_spec in Fx, Fy. unfold F2Q in *.
  rewrite is_nan_false, div_spec. unfold SF64div.
  pose proof (Prim2SF_valid x) as Vx. pose proof (Prim2SF_valid y) as Vy.
  destruct (Prim2SF y) as [sy|sy| |sy my ey]; try discriminate.
  { exfalso. apply NZ. reflexivity. }
  destruct (Prim2SF x) as [sx|sx| |sx mx ex]; try discriminate.
  - cbn [SFdiv SF2Q]. split; [discriminate|]. rewrite RN_0; [reflexivity|].
    unfold Qdiv. ring.
  - destruct (SFdiv_finite sx mx ex sy my ey Vx Vy) as [A B].
    split; [apply SFsign_not_nan; rewrite A; discriminate|].
    rewrite B. cbn [SF2Q].
    pose proof (Zpos_Qpos mx). pose proof (Zpos_Qpos my).
    pose proof (pow2_pos ex). pose proof (pow2_pos ey).
    assert (PY : 0 < inject_Z (Z.pos my) * pow2 ey) by (apply Qmult_lt_0_compat; assumption).
    assert (PX : 0 < inject_Z (Z.pos mx) * pow2 ex) by (apply Qmult_lt_0_compat; assumption).
    rewrite Qdiv_cond_Qopp by exact PY.
    rewrite RN_cond_Qopp; [reflexivity|]. apply Qdiv_pos; assumption.
Qed.

(** Finiteness is being strictly inside the overflow threshold. *)
Lemma is_finite_F2Q z :
  is_nan z = false -> (is_finite z = true <-> Qabs (F2Q z) < pow2 1024).
Proof.
  intros N. rewrite is_finite_spec. apply is_nan_false in N. unfold F2Q.
  pose proof (Prim2SF_valid z) as V. pose proof (pow2_pos 1024) as PT.
  destruct (Prim2SF z) as [s|s| |s m e]; try congruence; cbn [SFfin SF2Q].
  - split; [intros _|reflexivity]. apply Qabs_case; intros; lra.
  - split; [discriminate|]. intros H. exfalso. revert H.
    destruct s; cbn [cond_Qopp]; apply Qabs_case; intros; lra.
  - split; [intros _|reflexivity]. destruct (valid_finite_Q _ _ _ V) as [U L].
    pose proof (pow2_pos (-1074)).
    destruct s; cbn [cond_Qopp]; apply Qabs_case; intros; lra.
Qed.

Lemma F2Q_bound z : - pow2 1024 <= F2Q z /\ F2Q z <= pow2 1024.
Proof.
  unfold F2Q. pose proof (Prim2SF_valid z) as V. pose proof (pow2_pos 1024) as PT.
  destruct (Prim2SF z) as [s|s| |s m e]; cbn [SF2Q]; try lra.
  - destruct s; cbn [cond_Qopp]; lra.
  - destruct (valid_finite_Q _ _ _ V) as [U L]. pose proof (pow2_pos (-1074)).
    destruct s; cbn [cond_Qopp]; lra.
Qed.

Lemma rne_ge_1 y : (1 # 2) < y -> (1 <= rne y)%Z.
Proof.
  intros H. destruct (Qfloor_bounds y) as [F1 F2].
  assert (F0 : (0 <= Qfloor y)%Z).
  { apply Zlt_Q. change (inject_Z 0) with 0. lra. }
  destruct (rne_cases y) as [[E C]|[E C]]; rewrite E; [|lia].
  destruct (Z.eq_dec (Qfloor y) 0) as [Z|NZ]; [|lia].
  rewrite Z in C. change (inject_Z 0) with 0 in C. lra.
Qed.

(** Nothing above half the least subnormal rounds to zero. *)
Lemma RNpos_pos x : pow2 (-1075) < x -> pow2 (-1074) <= RNpos x.
Proof.
  intros H. pose proof (pow2_pos (-1075)) as P0.
  assert (Hx : 0 < x) by lra.
  destruct (Qmag_spec x Hx) as [M1 M2].
  unfold RNpos. rewrite fexp_eq. set (E := Z.max (Qmag x - 53) (-1074)).
  pose proof (pow2_pos E) as PE. pose proof (pow2_pos (- E)) as PNE.
  assert (Y : (1 # 2) < x * pow2 (- E)).
  { destruct (Z.eq_dec E (-1074)) as [EQ|NE].
    - rewrite EQ. change (- -1074)%Z with 1074%Z.
      assert (K : pow2 (-1075) * pow2 1074 == (1 # 2)).
      { rewrite (pow2_split (-1075) 1074 (-1)) by lia. reflexivity. }
      rewrite <- K. apply Qmult_lt_compat_r; [apply pow2_pos | exact H].
    - assert (EN : E = (Qmag x - 53)%Z) by lia.
      apply Qlt_le_trans with (pow2 52); [reflexivity|].
      apply Qle_trans with (pow2 (Qmag x - 1) * pow2 (- E)).
      + rewrite <- pow2_add. apply pow2_le. lia.
      + apply Qmult_le_compat_r; lra. }
  apply rne_ge_1 in Y.
  assert (R1 : 1 <= inject_Z (rne (x * pow2 (- E)))).
  { change 1 with (inject_Z 1). rewrite <- Zle_Qle. exact Y. }
  assert (V : pow2 (-1074) <= inject_Z (rne (x * pow2 (- E))) * pow2 E).
  { apply Qle_trans with (1 * pow2 E).
    - rewrite Qmult_1_l. apply pow2_le. lia.
    - apply Qmult_le_compat_r; lra. }
  apply Qle_trans with (clamp (pow2 (-1074))).
  - rewrite clamp_lt; [lra|]. apply pow2_lt. lia.
  - apply clamp_mono. exact V.
Qed.

Lemma RN_pos_pos x : pow2 (-1075) < x -> pow2 (-1074) <= RN x.
Proof.
  intros H. pose proof (pow2_pos (-1075)). rewrite RN_pos by lra. apply RNpos_pos. exact H.
Qed.

(** The values of valid data are multiples of the least subnormal. *)
Lemma SF2Q_grid p :
  valid_binary p = true -> SFfin p = true ->
  exists n, SF2Q p == inject_Z n * pow2 (-1074).
Proof.
  intros V F. destruct p as [s|s| |s m e]; try discriminate.
  - exists 0%Z. cbn [SF2Q]. change (inject_Z 0) with 0. ring.
  - destruct (valid_finite_bounds _ _ _ V) as (He & _).
    exists (cond_Zopp s (Z.pos m * 2 ^ (e + 1074))). cbn [SF2Q].
    rewrite inject_Z_cond_Zopp, inject_Z_mult, <- pow2_Z by lia.
    rewrite cond_Qopp_mult_l. rewrite <- Qmult_assoc.
    rewrite (pow2_split (e + 1074) (-1074) e) by lia. reflexivity.
Qed.

Lemma F2Q_grid x : is_finite x = true -> exists n, F2Q x == inject_Z n * pow2 (-1074).
Proof.
  rewrite is_finite_spec. intros F. apply SF2Q_grid; [apply Prim2SF_valid | exact F].
Qed.

(** Two distinct finite numbers are at least one least subnormal apart. *)
Lemma F2Q_gap x y :
  is_finite x = true -> is_finite y = true -> F2Q x < F2Q y ->
  pow2 (-1074) <= F2Q y - F2Q x.
Proof.
  intros Fx Fy L. destruct (F2Q_grid x Fx) as [n Hn]. destruct (F2Q_grid y Fy) as [k Hk].
  pose proof (pow2_pos (-1074)) as P. rewrite Hn, Hk in *.
  assert (NK : (n < k)%Z).
  { destruct (Z_lt_le_dec n k) as [A|A]; [exact A|exfalso].
    rewrite Zle_Qle in A. nra. }
  assert (NK' : inject_Z n + 1 <= inject_Z k).
  { rewrite <- inject_Z_succ. rewrite <- Zle_Qle. lia. }
  nra.
Qed.

(** * Part IV: the claims *)

Local Open Scope float_scope.

Lemma not_nan_cases y :
  is_nan y = false ->
  is_finite y = true \/ Prim2SF y = S754_infinity false \/ Prim2SF y = S754_infinity true.
Proof.
  intros N. rewrite is_finite_spec. apply is_nan_false in N.
  destruct (Prim2SF y) as [s|[|]| |s m e]; try congruence; auto.
Qed.

Lemma F2Q_pinf y : Prim2SF y = S754_infinity false -> (F2Q y == pow2 1024)%Q.
Proof. intros E. unfold F2Q. rewrite E. reflexivity. Qed.

Lemma F2Q_ninf y : Prim2SF y = S754_infinity true -> (F2Q y == - pow2 1024)%Q.
Proof. intros E. unfold F2Q. rewrite E. reflexivity. Qed.

Lemma finite_F2Q_lt p : is_finite p = true -> (- pow2 1024 < F2Q p /\ F2Q p < pow2 1024)%Q.
Proof.
  intros F. pose proof (is_finite_not_nan p F) as N.
  apply (is_finite_F2Q p N) in F. revert F. apply Qabs_case; intros; lra.
Qed.

Lemma RN_0_eq : (RN 0 == 0)%Q.
Proof. apply RN_0. reflexivity. Qed.

(** [p - y] for finite [p]: never [NaN], and antitone in [y]. *)
Lemma sub_inf p y s :
  is_finite p = true -> Prim2SF y = S754_infinity s ->
  Prim2SF (p - y) = S754_infinity (negb s).
Proof.
  rewrite is_finite_spec. intros F E. rewrite sub_spec, E. unfold SF64sub.
  destruct (Prim2SF p); try discriminate; reflexivity.
Qed.

Lemma sub_not_nan p y :
  is_finite p = true -> is_nan y = false -> is_nan (p - y) = false.
Proof.
  intros F N. destruct (not_nan_cases y N) as [Fy|[E|E]].
  - apply sub_F2Q; assumption.
  - apply is_nan_false. rewrite (sub_inf p y false F E). discriminate.
  - apply is_nan_false. rewrite (sub_inf p y true F E). discriminate.
Qed.

Lemma sub_antitone p y1 y2 :
  is_finite p = true -> is_nan y1 = false -> is_nan y2 = false ->
  (F2Q y1 <= F2Q y2)%Q -> (F2Q (p - y2) <= F2Q (p - y1))%Q.
Proof.
  intros F N1 N2 L. pose proof (pow2_pos 1024) as PT.
  pose proof (F2Q_bound (p - y1)) as [B1 B1']. pose proof (F2Q_bound (p - y2)) as [B2 B2'].
  destruct (not_nan_cases y2 N2) as [F2|[E2|E2]].
  - destruct (not_nan_cases y1 N1) as [F1|[E1|E1]].
    + destruct (sub_F2Q p y1 F F1) as [_ ->]. destruct (sub_F2Q p y2 F F2) as [_ ->].
      apply RN_mono. lra.
    + exfalso. rewrite (F2Q_pinf y1 E1) in L. destruct (finite_F2Q_lt y2 F2). lra.
    + unfold F2Q at 2. rewrite (sub_inf p y1 true F E1). cbn [negb SF2Q cond_Qopp]. lra.
  - unfold F2Q at 1. rewrite (sub_inf p y2 false F E2). cbn [negb SF2Q cond_Qopp]. lra.
  - destruct (not_nan_cases y1 N1) as [F1|[E1|E1]].
    + exfalso. rewrite (F2Q_ninf y2 E2) in L. destruct (finite_F2Q_lt y1 F1). lra.
    + exfalso. rewrite (F2Q_ninf y2 E2), (F2Q_pinf y1 E1) in L. lra.
    + unfold F2Q. rewrite (sub_inf p y1 true F E1), (sub_inf p y2 true F E2). lra.
Qed.

Lemma sub_self_le_0 p y :
  is_finite p = true -> is_nan y = false -> (F2Q p <= F2Q y)%Q -> (F2Q (p - y) <= 0)%Q.
Proof.
  intros F N L.
  apply Qle_trans with (F2Q (p - p)).
  - apply sub_antitone; try assumption. apply is_finite_not_nan. exact F.
  - destruct (sub_F2Q p p F F) as [_ ->]. rewrite RN_0; [lra | ring].
Qed.

(** [c * x] for a positive finite [c]: never [NaN] and monotone in [x]. *)
Lemma mul_inf c y s :
  is_finite c = true -> (0 < F2Q c)%Q -> Prim2SF y = S754_infinity s ->
  Prim2SF (c * y) = S754_infinity s.
Proof.
  rewrite is_finite_spec. unfold F2Q. intros F P E. rewrite mul_spec, E. unfold SF64mul.
  destruct (Prim2SF c) as [sc|sc| |sc m e]; try discriminate; cbn [SF2Q] in P.
  destruct sc; cbn [cond_Qopp] in P; [|reflexivity].
  pose proof (Zpos_Qpos m). pose proof (pow2_pos e). nra.
Qed.

Lemma mul_not_nan c y :
  is_finite c = true -> (0 < F2Q c)%Q -> is_nan y = false -> is_nan (c * y) = false.
Proof.
  intros F P N. destruct (not_nan_cases y N) as [Fy|[E|E]].
  - apply mul_F2Q; assumption.
  - apply is_nan_false. rewrite (mul_inf c y false F P E). discriminate.
  - apply is_nan_false. rewrite (mul_inf c y true F P E). discriminate.
Qed.

Lemma mul_monotone c x1 x2 :
  is_finite c = true -> (0 < F2Q c)%Q -> is_nan x1 = false -> is_nan x2 = false ->
  (F2Q x1 <= F2Q x2)%Q -> (F2Q (c * x1) <= F2Q (c * x2))%Q.
Proof.
  intros F P N1 N2 L. pose proof (pow2_pos 1024) as PT.
  pose proof (F2Q_bound (c * x1)) as [B1 B1']. pose proof (F2Q_bound (c * x2)) as [B2 B2'].
  destruct (not_nan_cases x2 N2) as [F2|[E2|E2]].
  - destruct (not_nan_cases x1 N1) as [F1|[E1|E1]].
    + destruct (mul_F2Q c x1 F F1) as [_ ->]. destruct (mul_F2Q c x2 F F2) as [_ ->].
      apply RN_mono. nra.
    + exfalso. rewrite (F2Q_pinf x1 E1) in L. destruct (finite_F2Q_lt x2 F2). lra.
    + unfold F2Q at 1. rewrite (mul_inf c x1 true F P E1). cbn [SF2Q cond_Qopp]. lra.
  - unfold F2Q at 2. rewrite (mul_inf c x2 false F P E2). cbn [SF2Q cond_Qopp]. lra.
  - destruct (not_nan_cases x1 N1) as [F1|[E1|E1]].
    + exfalso. rewrite (F2Q_ninf x2 E2) in L. destruct (finite_F2Q_lt x1 F1). lra.
    + exfalso. rewrite (F2Q_ninf x2 E2), (F2Q_pinf x1 E1) in L. lra.
    + unfold F2Q. rewrite (mul_inf c x1 true F P E1), (mul_inf c x2 true F P E2). lra.
Qed.

Lemma Math_max_0 y :
  JS.Math_max 0 y = if is_nan y then nan else if 0 <? y then y else 0.
Proof.
  unfold JS.Math_max. change (is_nan 0) with false. cbn [orb].
  change (get_sign 0) with false.
  destruct (is_nan y), (0 <? y), (y <? 0); reflexivity.
Qed.

Lemma F2Q_0 : (F2Q 0 == 0)%Q.
Proof. reflexivity. Qed.

Lemma F2Q_half : (F2Q 0.5 == 1 # 2)%Q.
Proof. reflexivity. Qed.

Lemma Prim2SF_0 : Prim2SF 0 = S754_zero false.
Proof. reflexivity. Qed.

Lemma r_gt_half sex : ((1 # 2) < F2Q (r sex))%Q.
Proof.
  rewrite <- F2Q_half. apply ltb_true_F2Q. destruct sex; reflexivity.
Qed.

Lemma r_finite sex : exists m e, Prim2SF (r sex) = S754_finite false m e.
Proof. destruct sex; eexists; eexists; reflexivity. Qed.

(** A positive number times a distribution coefficient is positive: the
    product cannot underflow to zero. *)
Lemma weight_r_positive w sex :
  (w <=? 0) = false -> is_nan w = false ->
  (exists m e, Prim2SF (w * r sex) = S754_finite false m e) \/
  Prim2SF (w * r sex) = S754_infinity false.
Proof.
  intros L N. pose proof (leb_false_F2Q w 0 N eq_refl L) as P. rewrite F2Q_0 in P.
  pose proof (r_gt_half sex) as RH. destruct (r_finite sex) as (mr & er & Er).
  pose proof (Prim2SF_valid w) as Vw. pose proof (Prim2SF_valid (r sex)) as Vr.
  rewrite mul_spec. unfold SF64mul. unfold F2Q in P, RH. rewrite Er in *.
  cbn [SF2Q cond_Qopp] in RH.
  pose proof (pow2_pos 1024) as PT. pose proof (pow2_pos (-1074)) as PS.
  destruct (Prim2SF w) as [s|s| |s m e] eqn:Ew; cbn [SF2Q] in P; try lra.
  - destruct s; cbn [cond_Qopp] in P; [lra|]. right. reflexivity.
  - destruct s; cbn [cond_Qopp] in P.
    { pose proof (Zpos_Qpos m). pose proof (pow2_pos e). nra. }
    destruct (valid_finite_Q _ _ _ Vw) as [_ Lw].
    destruct (SFmul_fin (S754_finite false m e) (S754_finite false mr er) Vw Vr eq_refl eq_refl)
      as [A B].
    assert (V : (pow2 (-1074) <=
                 SF2Q (SFmul prec emax (S754_finite false m e) (S754_finite false mr er)))%Q).
    { rewrite B. apply RN_pos_pos. cbn [SF2Q cond_Qopp].
      assert (K : (pow2 (-1075) == pow2 (-1074) * (1 # 2))%Q).
      { rewrite <- (pow2_split (-1074) (-1) (-1075)) by lia. reflexivity. }
      rewrite K. nra. }
    unfold SFsign_xor in A. cbn [SFsign xorb] in A.
    destruct (SFmul prec emax (S754_finite false m e) (S754_finite false mr er))
      as [s'|s'| |s' m' e'];
      cbn [SFsign SF2Q] in A, V; try discriminate; try lra.
    + injection A as ->. right. reflexivity.
    + injection A as ->. left. eexists; eexists; reflexivity.
Qed.

Lemma peakBAC_zero_grams sex w : peakBAC 0 (r sex) w = 0.
Proof.
  unfold peakBAC. destruct (JS.not w || (w <=? 0)) eqn:G; [reflexivity|].
  apply orb_false_iff in G. destruct G as [G1 L]. unfold JS.not in G1.
  apply orb_false_iff in G1. destruct G1 as [_ N].
  apply Prim2SF_inj. rewrite div_spec. unfold SF64div. rewrite Prim2SF_0.
  destruct (weight_r_positive w sex L N) as [(m & e & E)|E]; rewrite E; reflexivity.
Qed.

Lemma Math_max_0_nonneg h :
  is_nan h = false ->
  is_nan (JS.Math_max 0 h) = false /\ (0 <= F2Q (JS.Math_max 0 h))%Q.
Proof.
  intros N. rewrite Math_max_0, N. destruct (0 <? h) eqn:L.
  - split; [exact N|]. apply ltb_true_F2Q in L. rewrite F2Q_0 in L. lra.
  - split; [reflexivity|]. rewrite F2Q_0. lra.
Qed.

Lemma Math_max_0_nonpos t :
  is_nan t = false -> (F2Q t <= 0)%Q -> JS.Math_max 0 t = 0.
Proof.
  intros N L. rewrite Math_max_0, N. destruct (0 <? t) eqn:C; [|reflexivity].
  apply ltb_true_F2Q in C. rewrite F2Q_0 in C. lra.
Qed.

Lemma BETA_finite : is_finite BETA = true.
Proof. reflexivity. Qed.

Lemma BETA_pos : (0 < F2Q BETA)%Q.
Proof. rewrite <- F2Q_0. apply ltb_true_F2Q. reflexivity. Qed.

Lemma elimination_not_nan h :
  is_nan h = false -> is_nan (BETA * JS.Math_max 0 h) = false.
Proof.
  intros N. apply mul_not_nan; [apply BETA_finite | apply BETA_pos |].
  apply Math_max_0_nonneg. exact N.
Qed.

Lemma elimination_nonneg h :
  is_nan h = false -> (0 <= F2Q (BETA * JS.Math_max 0 h))%Q.
Proof.
  intros N. destruct (Math_max_0_nonneg h N) as [N' P].
  change (0 <= F2Q (BETA * JS.Math_max 0 h))%Q with
    (F2Q (BETA * 0) <= F2Q (BETA * JS.Math_max 0 h))%Q.
  apply mul_monotone;
    [apply BETA_finite | apply BETA_pos | reflexivity | exact N' | rewrite F2Q_0; exact P].
Qed.

(** Once the eliminated amount reaches the peak, the current level is 0. *)
Lemma currentBAC_eliminated p h :
  is_finite p = true -> is_nan h = false ->
  (F2Q p <= F2Q (BETA * JS.Math_max 0 h))%Q ->
  currentBAC p h = 0.
Proof.
  intros F N L. unfold currentBAC.
  pose proof (elimination_not_nan h N) as NY.
  apply Math_max_0_nonpos.
  - apply sub_not_nan; assumption.
  - apply sub_self_le_0; assumption.
Qed.

Lemma currentBAC_zero_peak h : is_nan h = false -> currentBAC 0 h = 0.
Proof.
  intros N. apply currentBAC_eliminated; [reflexivity | exact N |].
  rewrite F2Q_0. apply elimination_nonneg. exact N.
Qed.

Lemma gramsPureAlcohol_snoc ds d :
  gramsPureAlcohol (ds ++ [d]) =
  gramsPureAlcohol ds + volumeMl d * (abv d / 100) * ETHANOL_DENSITY.
Proof. unfold gramsPureAlcohol. rewrite fold_left_app. reflexivity. Qed.

(** C1. The grams of pure alcohol are the running sum, in list order and
    from 0, of volumeMl x (abv / 100) x 0.789 over the drinks; with no
    drinks the grams are 0 and all five outputs are the number 0,
    whatever the sex and the weight, for every elapsed time that is a
    number (not NaN). *)
Theorem C1_grams_sum_and_empty_list :
  gramsPureAlcohol [] = 0 /\
  (forall ds d,
     gramsPureAlcohol (ds ++ [d]) =
     gramsPureAlcohol ds + volumeMl d * (abv d / 100) * 0.789) /\
  (forall sex weight hours,
     is_nan hours = false ->
     render (mkState sex weight hours []) = mkOutputs 0 0 0 0 0).
Proof.
  split; [reflexivity|]. split; [exact gramsPureAlcohol_snoc|].
  intros sex weight hours N. unfold render. cbn [st_drinks st_sex st_weight st_hoursSinceStart].
  change (gramsPureAlcohol []) with 0.
  rewrite peakBAC_zero_grams. rewrite (currentBAC_zero_peak hours N). reflexivity.
Qed.

Lemma C1_witness :
  is_nan 2 = false /\ render (mkState female 60 2 []) = mkOutputs 0 0 0 0 0.
Proof.
  split; [reflexivity|].
  apply (proj2 (proj2 C1_grams_sum_and_empty_list)). reflexivity.
Defined.

Lemma ltb_0_not_leb w : (0 <? w) = true -> (w <=? 0) = false /\ JS.not w = false.
Proof.
  intros H. destruct (ltb_not_nan _ _ H) as [_ N]. pose proof (ltb_true_F2Q _ _ H) as P.
  rewrite F2Q_0 in P. split.
  - destruct (w <=? 0) eqn:L; [|reflexivity]. apply leb_true_F2Q in L. rewrite F2Q_0 in L. lra.
  - unfold JS.not. rewrite N. unfold is_zero.
    destruct (w =? PrimFloat.zero) eqn:E; [|reflexivity].
    apply (eqb_F2Q w PrimFloat.zero N eq_refl) in E. change (F2Q PrimFloat.zero) with (F2Q 0) in E.
    rewrite F2Q_0 in E. lra.
Qed.

(** C2. If weight <= 0 the peak is 0; if weight > 0 it is
    grams / (weight x r(sex)), with r(male) = 0.68 and r(female) = 0.55.
    A weight that is NaN also gives 0 (the [!weight] half of the guard). *)
Theorem C2_peakBAC_guard_and_quotient (grams weight : float) (sex : Sex) :
  ((weight <=? 0) = true -> peakBAC grams (r sex) weight = 0) /\
  ((0 <? weight) = true -> peakBAC grams (r sex) weight = grams / (weight * r sex)) /\
  (is_nan weight = true -> peakBAC grams (r sex) weight = 0) /\
  r male = 0.68 /\ r female = 0.55.
Proof.
  repeat split.
  - intros H. unfold peakBAC. rewrite H, orb_true_r. reflexivity.
  - intros H. destruct (ltb_0_not_leb weight H) as [L N].
    unfold peakBAC. rewrite L, N. reflexivity.
  - intros H. unfold peakBAC, JS.not. rewrite H, orb_true_r. reflexivity.
Qed.

Lemma C2_witness :
  ((-5 <=? 0) = true /\ peakBAC 19.725 (r female) (-5) = 0) /\
  ((0 <? 75) = true /\ peakBAC 19.725 (r male) 75 = 19.725 / (75 * r male)).
Proof.
  split.
  - split; [reflexivity|].
    apply (proj1 (C2_peakBAC_guard_and_quotient 19.725 (-5) female)). reflexivity.
  - split; [reflexivity|].
    apply (proj1 (proj2 (C2_peakBAC_guard_and_quotient 19.725 75 male))). reflexivity.
Defined.

Lemma Math_max_0_fmax y : is_nan y = false -> JS.Math_max 0 y = fmax 0 y.
Proof. intros N. rewrite Math_max_0, N. reflexivity. Qed.

Lemma Math_max_0_neg h : (h <? 0) = true -> JS.Math_max 0 h = 0.
Proof.
  intros H. destruct (ltb_not_nan _ _ H) as [N _]. apply ltb_true_F2Q in H.
  rewrite F2Q_0 in H. apply Math_max_0_nonpos; [exact N | lra].
Qed.

(** C3. The current level is max(0, peak - 0.15 x max(0, hours)), where
    max is the larger of two numbers; negative hours are clamped to 0 and so
    give the same level as 0 hours. *)
Theorem C3_currentBAC_formula (peak hours : float) :
  (is_finite peak = true -> is_nan hours = false ->
   currentBAC peak hours = fmax 0 (peak - 0.15 * fmax 0 hours)) /\
  ((hours <? 0) = true ->
   JS.Math_max 0 hours = 0 /\ currentBAC peak hours = currentBAC peak 0).
Proof.
  split.
  - intros F N. unfold currentBAC. rewrite <- (Math_max_0_fmax hours N).
    apply Math_max_0_fmax. apply sub_not_nan; [exact F|].
    apply elimination_not_nan. exact N.
  - intros H. pose proof (Math_max_0_neg hours H) as E. split; [exact E|].
    unfold currentBAC. rewrite E. reflexivity.
Qed.

Lemma C3_witness :
  (is_finite 0.8 = true /\ is_nan 2 = false /\
   currentBAC 0.8 2 = fmax 0 (0.8 - 0.15 * fmax 0 2)) /\
  ((-3 <? 0) = true /\ JS.Math_max 0 (-3) = 0 /\ currentBAC 0.8 (-3) = currentBAC 0.8 0).
Proof.
  split.
  - split; [reflexivity|]. split; [reflexivity|].
    apply (proj1 (C3_currentBAC_formula 0.8 2)); reflexivity.
  - split; [reflexivity|].
    apply (proj2 (C3_currentBAC_formula 0.8 (-3))). reflexivity.
Defined.

Lemma ltb_neq x y : (x <? y) = true -> x <> y.
Proof. intros H E. subst y. apply ltb_true_F2Q in H. lra. Qed.

Lemma F2Q_pos_ge t :
  is_finite t = true -> (0 < F2Q t)%Q -> (pow2 (-1074) <= F2Q t)%Q.
Proof.
  intros F P. pose proof (F2Q_gap 0 t eq_refl F) as G. rewrite F2Q_0 in G.
  specialize (G P). lra.
Qed.

Lemma pow2_1075_lt : (pow2 (-1075) < pow2 (-1074))%Q.
Proof. apply pow2_lt. lia. Qed.

(** The difference of two distinct finite numbers does not round to zero. *)
Lemma sub_pos a b :
  is_finite a = true -> is_finite b = true -> (F2Q b < F2Q a)%Q ->
  is_nan (a - b) = false /\ (pow2 (-1074) <= F2Q (a - b))%Q.
Proof.
  intros Fa Fb L. destruct (sub_F2Q a b Fa Fb) as [N E]. split; [exact N|].
  rewrite E. apply RN_pos_pos. pose proof (F2Q_gap b a Fb Fa L). pose proof pow2_1075_lt. lra.
Qed.

Lemma BETA_lt_1 : (F2Q BETA < 1)%Q.
Proof.
  assert (E : (F2Q 1 == 1)%Q) by reflexivity.
  rewrite <- E. apply ltb_true_F2Q. reflexivity.
Qed.

Lemma BETA_not_zero : is_zero BETA = false.
Proof. reflexivity. Qed.

Lemma Prim2SF_BETA : Prim2SF BETA = S754_finite false 5404319552844595 (-55).
Proof. reflexivity. Qed.

Lemma div_BETA_pos t :
  is_nan t = false -> (0 < F2Q t)%Q ->
  is_nan (t / BETA) = false /\ (0 < F2Q (t / BETA))%Q.
Proof.
  intros N P. pose proof BETA_pos as BP. pose proof BETA_lt_1 as B1.
  pose proof (pow2_pos 1024) as PT. pose proof (pow2_pos (-1074)) as PS.
  destruct (not_nan_cases t N) as [F|[E|E]].
  - destruct (div_F2Q t BETA F BETA_finite BETA_not_zero) as [N' V]. split; [exact N'|].
    rewrite V. pose proof (F2Q_pos_ge t F P) as G.
    apply Qlt_le_trans with (pow2 (-1074)); [exact PS|].
    apply RN_pos_pos. pose proof pow2_1075_lt.
    apply Qlt_le_trans with (F2Q t); [lra|].
    apply Qle_shift_div_l; [exact BP|]. nra.
  - assert (R : Prim2SF (t / BETA) = S754_infinity false).
    { rewrite div_spec, E, Prim2SF_BETA. reflexivity. }
    split; [apply is_nan_false; rewrite R; discriminate|].
    unfold F2Q. rewrite R. cbn [SF2Q cond_Qopp]. exact PT.
  - exfalso. rewrite (F2Q_ninf t E) in P. lra.
Qed.

Lemma LEGAL_LIMIT_finite : is_finite LEGAL_LIMIT = true.
Proof. reflexivity. Qed.

Lemma above_limit_positive c :
  (LEGAL_LIMIT <? c) = true ->
  is_nan ((c - LEGAL_LIMIT) / BETA) = false /\ (0 < F2Q ((c - LEGAL_LIMIT) / BETA))%Q.
Proof.
  intros H. destruct (ltb_not_nan _ _ H) as [_ N]. apply ltb_true_F2Q in H.
  pose proof (pow2_pos 1024) as PT. pose proof (pow2_pos (-1074)) as PS.
  apply div_BETA_pos.
  - destruct (not_nan_cases c N) as [F|[E|E]].
    + apply sub_pos; [exact F | reflexivity | exact H].
    + apply is_nan_false. rewrite sub_spec, E. discriminate.
    + apply is_nan_false. rewrite sub_spec, E. discriminate.
  - destruct (not_nan_cases c N) as [F|[E|E]].
    + apply Qlt_le_trans with (pow2 (-1074)); [exact PS|].
      apply sub_pos; [exact F | reflexivity | exact H].
    + unfold F2Q. rewrite sub_spec, E. exact PT.
    + exfalso. rewrite (F2Q_ninf c E) in H. rewrite F2Q_half in H. lra.
Qed.

Lemma leb_false_cases c :
  (c <=? LEGAL_LIMIT) = false -> is_nan c = true \/ (LEGAL_LIMIT <? c) = true.
Proof.
  intros H. destruct (is_nan c) eqn:N; [left; reflexivity | right].
  apply (ltb_F2Q LEGAL_LIMIT c eq_refl N).
  apply (leb_false_F2Q c LEGAL_LIMIT N eq_refl H).
Qed.

Lemma nan_sub_div c : is_nan c = true -> Prim2SF ((c - LEGAL_LIMIT) / BETA) = S754_nan.
Proof.
  intros N. apply is_nan_true in N. rewrite div_spec, sub_spec, N. reflexivity.
Qed.

Lemma hoursToLegal_above current :
  (0.5 <? current) = true ->
  hoursToLegal current = (current - 0.5) / 0.15 /\
  (0 <? hoursToLegal current) = true.
Proof.
  intros H. destruct (ltb_not_nan _ _ H) as [_ N].
  assert (L : (current <=? LEGAL_LIMIT) = false).
  { destruct (current <=? LEGAL_LIMIT) eqn:E; [|reflexivity].
    apply leb_true_F2Q in E. apply ltb_true_F2Q in H. change 0.5 with LEGAL_LIMIT in H. lra. }
  unfold hoursToLegal. rewrite L. split; [reflexivity|].
  destruct (above_limit_positive current H) as [N' P].
  apply (ltb_F2Q 0 _ eq_refl N'). rewrite F2Q_0. exact P.
Qed.

(** C4. The hours to the legal threshold are 0 exactly when
    current <= 0.5 (inclusive); above 0.5 they are (current - 0.5) / 0.15
    and strictly positive. *)
Theorem C4_hoursToLegal (current : float) :
  (hoursToLegal current = 0 <-> (current <=? 0.5) = true) /\
  ((0.5 <? current) = true ->
   hoursToLegal current = (current - 0.5) / 0.15 /\
   (0 <? hoursToLegal current) = true).
Proof.
  split; [|apply hoursToLegal_above]. split.
  - intros H. destruct (current <=? 0.5) eqn:L; [reflexivity|exfalso].
    destruct (leb_false_cases current L) as [N|G].
    + unfold hoursToLegal in H. change 0.5 with LEGAL_LIMIT in L. rewrite L in H.
      apply (f_equal Prim2SF) in H. rewrite (nan_sub_div current N) in H. discriminate.
    + destruct (hoursToLegal_above current G) as [_ P]. rewrite H in P. discriminate.
  - intros L. unfold hoursToLegal. change LEGAL_LIMIT with 0.5. rewrite L. reflexivity.
Qed.

Lemma C4_witness :
  (0.5 <? 0.8) = true /\ hoursToLegal 0.8 = (0.8 - 0.5) / 0.15 /\ (0 <? hoursToLegal 0.8) = true.
Proof.
  split; [reflexivity|]. apply (proj2 (C4_hoursToLegal 0.8)). reflexivity.
Defined.

Lemma Math_max_0_mono h1 h2 :
  is_nan h1 = false -> is_nan h2 = false -> (F2Q h1 <= F2Q h2)%Q ->
  (F2Q (JS.Math_max 0 h1) <= F2Q (JS.Math_max 0 h2))%Q.
Proof.
  intros N1 N2 L. rewrite !Math_max_0, N1, N2. pose proof F2Q_0 as Z.
  destruct (0 <? h1) eqn:C1; destruct (0 <? h2) eqn:C2; try lra.
  - apply ltb_true_F2Q in C1. pose proof (ltb_false_F2Q 0 h2 eq_refl N2 C2). lra.
  - apply ltb_true_F2Q in C2. lra.
Qed.

Lemma currentBAC_not_nan p h :
  is_finite p = true -> is_nan h = false -> is_nan (currentBAC p h) = false.
Proof.
  intros F N. unfold currentBAC. apply Math_max_0_nonneg.
  apply sub_not_nan; [exact F | apply elimination_not_nan; exact N].
Qed.

Lemma currentBAC_antitone p h1 h2 :
  is_finite p = true -> is_nan h1 = false -> is_nan h2 = false ->
  (F2Q h1 <= F2Q h2)%Q ->
  (F2Q (currentBAC p h2) <= F2Q (currentBAC p h1))%Q.
Proof.
  intros F N1 N2 L. unfold currentBAC.
  apply Math_max_0_mono.
  - apply sub_not_nan; [exact F | apply elimination_not_nan; exact N2].
  - apply sub_not_nan; [exact F | apply elimination_not_nan; exact N1].
  - apply sub_antitone; [exact F | apply elimination_not_nan; exact N1
                        | apply elimination_not_nan; exact N2 |].
    apply mul_monotone; [apply BETA_finite | apply BETA_pos
                        | apply Math_max_0_nonneg; exact N1
                        | apply Math_max_0_nonneg; exact N2 |].
    apply Math_max_0_mono; assumption.
Qed.

Lemma elimination_nan h : is_nan h = true -> is_nan (BETA * JS.Math_max 0 h) = true.
Proof.
  intros N. rewrite Math_max_0, N. reflexivity.
Qed.

Lemma currentBAC_positive p h :
  is_finite p = true -> is_nan h = false ->
  (F2Q (BETA * JS.Math_max 0 h) < F2Q p)%Q -> (0 < F2Q (currentBAC p h))%Q.
Proof.
  intros F N L. pose proof (elimination_not_nan h N) as NY.
  pose proof (pow2_pos 1024) as PT. pose proof (pow2_pos (-1074)) as PS.
  assert (P : is_nan (p - BETA * JS.Math_max 0 h) = false /\
              (0 < F2Q (p - BETA * JS.Math_max 0 h))%Q).
  { destruct (not_nan_cases _ NY) as [FY|[E|E]].
    - destruct (sub_pos p _ F FY L) as [A B]. split; [exact A | lra].
    - exfalso. rewrite (F2Q_pinf _ E) in L. destruct (finite_F2Q_lt p F). lra.
    - split; [apply sub_not_nan; assumption|].
      unfold F2Q. rewrite (sub_inf p _ true F E). exact PT. }
  destruct P as [NT PT'].
  unfold currentBAC. rewrite Math_max_0, NT.
  assert (C : (0 <? p - BETA * JS.Math_max 0 h) = true).
  { apply (ltb_F2Q 0 _ eq_refl NT). rewrite F2Q_0. exact PT'. }
  rewrite C. exact PT'.
Qed.

Lemma RN_finite p : is_finite p = true -> (RN (F2Q p) == F2Q p)%Q.
Proof.
  rewrite is_finite_spec. intros F. apply RN_valid; [apply Prim2SF_valid | exact F].
Qed.

(** The elimination reaches the peak as soon as it does in exact
    arithmetic. *)
Lemma currentBAC_exact_threshold p h :
  is_finite p = true -> is_finite h = true ->
  (F2Q p <= F2Q BETA * F2Q h)%Q -> currentBAC p h = 0.
Proof.
  intros Fp Fh L. pose proof (is_finite_not_nan h Fh) as N.
  pose proof BETA_pos as BP.
  apply currentBAC_eliminated; [exact Fp | exact N |].
  rewrite Math_max_0, N. destruct (0 <? h) eqn:C.
  - destruct (mul_F2Q BETA h BETA_finite Fh) as [_ ->].
    rewrite <- (RN_finite p Fp). apply RN_mono. exact L.
  - pose proof (ltb_false_F2Q 0 h eq_refl N C) as NP. rewrite F2Q_0 in NP.
    assert (Z : (F2Q (BETA * 0) == 0)%Q) by reflexivity.
    rewrite Z. nra.
Qed.

(** C6, as amended. For a finite peak the current level is non-increasing
    in the elapsed hours, never negative, and it is exactly 0 precisely
    when the eliminated amount 0.15 x max(0, hours), as computed, has
    reached the peak; this is the case whenever 0.15 x hours >= peak holds
    in exact arithmetic. *)
Theorem C6_currentBAC_decreasing_floored (peak : float) :
  is_finite peak = true ->
  (forall h1 h2, (h1 <? h2) = true ->
     (currentBAC peak h2 <=? currentBAC peak h1) = true) /\
  (forall h, is_nan h = false -> (0 <=? currentBAC peak h) = true) /\
  (forall h, is_nan h = false ->
     (currentBAC peak h = 0 <-> (peak <=? 0.15 * JS.Math_max 0 h) = true)) /\
  (forall h, is_finite h = true ->
     (F2Q peak <= F2Q 0.15 * F2Q h)%Q -> currentBAC peak h = 0).
Proof.
  intros F. split; [|split; [|split]].
  - intros h1 h2 H. destruct (ltb_not_nan _ _ H) as [N1 N2].
    apply leb_F2Q; try (apply currentBAC_not_nan; assumption).
    apply currentBAC_antitone; try assumption.
    apply ltb_true_F2Q in H. lra.
  - intros h N. apply leb_F2Q; [reflexivity | apply currentBAC_not_nan; assumption|].
    rewrite F2Q_0. unfold currentBAC. apply Math_max_0_nonneg.
    apply sub_not_nan; [exact F | apply elimination_not_nan; exact N].
  - intros h N. split.
    + intros E. pose proof (elimination_not_nan h N) as NY.
      pose proof (is_finite_not_nan peak F) as NP.
      destruct (peak <=? 0.15 * JS.Math_max 0 h) eqn:L; [reflexivity|exfalso].
      apply (leb_false_F2Q _ _ NP NY) in L.
      pose proof (currentBAC_positive peak h F N L) as P.
      rewrite E, F2Q_0 in P. lra.
    + intros L. apply leb_true_F2Q in L. apply currentBAC_eliminated; assumption.
  - intros h Fh L. apply currentBAC_exact_threshold; assumption.
Qed.

Lemma C6_witness :
  is_finite 0.45 = true /\ (1 <? 2) = true /\ is_nan 4 = false /\
  (currentBAC 0.45 2 <=? currentBAC 0.45 1) = true /\
  (0 <=? currentBAC 0.45 4) = true /\
  (currentBAC 0.45 4 = 0 <-> (0.45 <=? 0.15 * JS.Math_max 0 4) = true).
Proof.
  split; [reflexivity|]. split; [reflexivity|]. split; [reflexivity|].
  pose proof (C6_currentBAC_decreasing_floored 0.45 eq_refl) as (A & B & C & _).
  split; [apply A; reflexivity|]. split; [apply B; reflexivity|].
  apply C. reflexivity.
Defined.

(** At peak 0.45 and 3 hours, 3 >= 0.45 / 0.15 and yet the level is not 0. *)
Lemma C6_counterexample :
  (0.45 / 0.15 <=? 3) = true /\ currentBAC 0.45 3 <> 0.
Proof.
  split; [reflexivity|]. apply not_eq_sym. apply ltb_neq. reflexivity.
Qed.

Lemma binary_round_not_zero s m e :
  (-1074 <= e)%Z -> forall s', binary_round prec emax s m e <> S754_zero s'.
Proof.
  intros He s' E. destruct (binary_round_RN s m e) as [_ V]. rewrite E in V.
  cbn [SF2Q] in V.
  assert (P : (pow2 (-1074) <= RNpos (inject_Z (Z.pos m) * pow2 e))%Q).
  { apply RNpos_pos. pose proof pow2_1075_lt. pose proof (pow2_le (-1074) e He).
    assert (M1 : (1 <= inject_Z (Z.pos m))%Q).
    { change 1%Q with (inject_Z 1). rewrite <- Zle_Qle. lia. }
    pose proof (pow2_pos e). nra. }
  pose proof (pow2_pos (-1074)). destruct s; cbn [cond_Qopp] in V; lra.
Qed.

Lemma SFadd_not_neg_zero x y :
  valid_binary x = true -> valid_binary y = true ->
  x <> S754_zero true -> SFadd prec emax x y <> S754_zero true.
Proof.
  intros Vx Vy N.
  destruct x as [[|]|sx| |sx mx ex]; try congruence;
  destruct y as [[|]|sy| |sy my ey]; cbn [SFadd]; try discriminate; try congruence.
  - destruct sx, sy; discriminate.
  - destruct (valid_finite_bounds _ _ _ Vx) as (Hex & _).
    destruct (valid_finite_bounds _ _ _ Vy) as (Hey & _).
    unfold binary_normalize.
    destruct (cond_Zopp sx (Z.pos (fst (shl_align mx ex (IntDef.Z.min ex ey)))) +
              cond_Zopp sy (Z.pos (fst (shl_align my ey (IntDef.Z.min ex ey)))))%Z;
      [discriminate | apply binary_round_not_zero; lia | apply binary_round_not_zero; lia].
Qed.

Lemma add_not_neg_zero a b :
  Prim2SF a <> S754_zero true -> Prim2SF (a + b) <> S754_zero true.
Proof.
  intros N. rewrite add_spec. apply SFadd_not_neg_zero; try apply Prim2SF_valid. exact N.
Qed.

Lemma gramsPureAlcohol_not_neg_zero ds :
  Prim2SF (gramsPureAlcohol ds) <> S754_zero true.
Proof.
  induction ds as [|d ds IH] using rev_ind.
  - discriminate.
  - rewrite gramsPureAlcohol_snoc. apply add_not_neg_zero. exact IH.
Qed.

Lemma add_zero_absorbed g t :
  Prim2SF g <> S754_zero true -> g + (0 + t) = g + t.
Proof.
  intros N. apply Prim2SF_inj. rewrite !add_spec. rewrite Prim2SF_0. unfold SF64add.
  destruct (Prim2SF t) as [[|]|st| |st mt et]; try reflexivity.
  destruct (Prim2SF g) as [[|]|sg| |sg mg eg]; try reflexivity. congruence.
Qed.

Lemma gramsPureAlcohol_app d1 d2 :
  gramsPureAlcohol (d1 ++ d2) = fold_left addDrinkGrams d2 (gramsPureAlcohol d1).
Proof. unfold gramsPureAlcohol. apply fold_left_app. Qed.

(** C7, as amended. The grams of a concatenation are the grams of the
    first list with the drinks of the second added one by one in order;
    this is the sum of the two totals when the second list has at most one
    drink. *)
Theorem C7_grams_accumulates_in_order (drinks1 drinks2 : list Drink) :
  gramsPureAlcohol (drinks1 ++ drinks2) =
    fold_left addDrinkGrams drinks2 (gramsPureAlcohol drinks1) /\
  (forall d, gramsPureAlcohol (drinks1 ++ [d]) =
             gramsPureAlcohol drinks1 + gramsPureAlcohol [d]) /\
  gramsPureAlcohol (drinks1 ++ []) = gramsPureAlcohol drinks1 + gramsPureAlcohol [].
Proof.
  split; [apply gramsPureAlcohol_app|]. split.
  - intros d. rewrite gramsPureAlcohol_snoc. symmetry.
    apply add_zero_absorbed. apply gramsPureAlcohol_not_neg_zero.
  - rewrite List.app_nil_r. change (gramsPureAlcohol []) with 0.
    apply Prim2SF_inj. rewrite add_spec, Prim2SF_0. unfold SF64add.
    pose proof (gramsPureAlcohol_not_neg_zero drinks1) as N.
    destruct (Prim2SF (gramsPureAlcohol drinks1)) as [[|]|s| |s m e]; try reflexivity.
    congruence.
Qed.

(** Three preset beers: splitting the list changes the total, and so does
    reordering it. *)
Lemma C7_counterexample :
  let drinks1 := [beer25] in
  let drinks2 := [beer25; beer33] in
  Forall (fun d => (0 <=? volumeMl d) = true /\ (0 <=? abv d) = true /\ (abv d <=? 100) = true)
         (drinks1 ++ drinks2) /\
  gramsPureAlcohol (drinks1 ++ drinks2) <>
    gramsPureAlcohol drinks1 + gramsPureAlcohol drinks2 /\
  gramsPureAlcohol [beer25; beer25; beer33] <> gramsPureAlcohol [beer33; beer25; beer25].
Proof.
  cbv zeta. split; [repeat constructor|]. split.
  - apply not_eq_sym, ltb_neq. reflexivity.
  - apply not_eq_sym, ltb_neq. reflexivity.
Qed.

Lemma map_unchanged {A} (f : A -> A) (l : list A) :
  (forall x, In x l -> f x = x) -> map f l = l.
Proof.
  induction l as [|a l IH]; intros H; [reflexivity|]. cbn [map].
  rewrite (H a) by (left; reflexivity). rewrite IH; [reflexivity|].
  intros x Hx. apply H. right. exact Hx.
Qed.

(** C10. [updateDrink] keeps the length and the positions of the list,
    rewrites exactly the entries with the given id and leaves the list as
    it is when no entry has it; [removeDrink] keeps exactly the entries
    with another id, in their order; neither touches the other fields of
    the state. *)
Theorem C10_updateDrink_removeDrink_frame (i : string) (patch : DrinkPatch) (s : State) :
  let updated := st_drinks (updateDrink i patch s) in
  let removed := st_drinks (removeDrink i s) in
  (List.length updated = List.length (st_drinks s) /\
   (forall k, nth_error updated k =
              option_map (fun d => if String.eqb (id d) i then spread d patch else d)
                         (nth_error (st_drinks s) k)) /\
   (forall k d, nth_error (st_drinks s) k = Some d -> id d <> i ->
                nth_error updated k = Some d) /\
   ((forall d, In d (st_drinks s) -> id d <> i) -> updated = st_drinks s)) /\
  ((forall d, In d removed <-> In d (st_drinks s) /\ id d <> i) /\
   (forall l1 d l2, st_drinks s = l1 ++ d :: l2 ->
      removed = st_drinks (removeDrink i (setDrinks (fun _ => l1) s)) ++
                (if String.eqb (id d) i then [] else [d]) ++
                st_drinks (removeDrink i (setDrinks (fun _ => l2) s)))) /\
  (st_sex (updateDrink i patch s) = st_sex s /\
   st_weight (updateDrink i patch s) = st_weight s /\
   st_hoursSinceStart (updateDrink i patch s) = st_hoursSinceStart s /\
   st_sex (removeDrink i s) = st_sex s /\
   st_weight (removeDrink i s) = st_weight s /\
   st_hoursSinceStart (removeDrink i s) = st_hoursSinceStart s).
Proof.
  cbv zeta. unfold updateDrink, removeDrink, setDrinks. cbn [st_drinks st_sex st_weight st_hoursSinceStart].
  split; [|split].
  - split; [apply length_map|]. split; [intros k; apply nth_error_map|]. split.
    + intros k d H N. rewrite nth_error_map, H. cbn [option_map].
      apply String.eqb_neq in N. rewrite N. reflexivity.
    + intros H. apply map_unchanged. intros d Hd.
      specialize (H d Hd). apply String.eqb_neq in H. rewrite H. reflexivity.
  - split.
    + intros d. rewrite filter_In. rewrite negb_true_iff, String.eqb_neq. reflexivity.
    + intros l1 d l2 E. rewrite E. rewrite filter_app. cbn [filter].
      destruct (String.eqb (id d) i); reflexivity.
  - repeat split.
Qed.

Lemma C10_witness :
  let s := mkState male 75 0 [beer25; wine12; beer33] in
  nth_error (st_drinks s) 1 = Some wine12 /\ id wine12 <> "b25"%string /\
  nth_error (st_drinks (updateDrink "b25" (mkPatch None None (Some 500) None) s)) 1
    = Some wine12.
Proof.
  cbv zeta. split; [reflexivity|]. split; [discriminate|].
  apply (proj1 (proj2 (proj2 (proj1
    (C10_updateDrink_removeDrink_frame "b25" (mkPatch None None (Some 500) None)
       (mkState male 75 0 [beer25; wine12; beer33])))))).
  - reflexivity.
  - discriminate.
Defined.

(** C8. One 500 mL drink at 5 % for a 75 kg male at elapsed time 0:
    grams = 500 x 0.05 x 0.789 = 19.725, peak = 19.725 / (75 x 0.68),
    current = peak, hours to the legal threshold = 0 (the peak is below
    0.5) and hours to zero = peak / 0.15, which is within 0.001 of 2.578. *)
Theorem C8_initial_scenario :
  let o := render (mkState male 75 0 [beer50]) in
  out_grams o = 500 * 0.05 * 0.789 /\
  out_grams o = 19.725 /\
  out_peakBAC o = 19.725 / (75 * 0.68) /\
  out_currentBAC o = out_peakBAC o /\
  (out_peakBAC o <? 0.5) = true /\
  out_hoursToLegal o = 0 /\
  out_hoursToZero o = out_peakBAC o / 0.15 /\
  (2.577 <? out_hoursToZero o) = true /\ (out_hoursToZero o <? 2.579) = true.
Proof. vm_compute. repeat split; reflexivity. Qed.

Lemma RN_exact_dyadic N e :
  (-1074 <= e)%Z -> (Z.abs N < 2 ^ 53)%Z ->
  (Qabs (inject_Z N * pow2 e) < pow2 1024)%Q ->
  (RN (inject_Z N * pow2 e) == inject_Z N * pow2 e)%Q.
Proof.
  intros He HN HT. pose proof (pow2_pos e) as Pe.
  destruct (Z.lt_trichotomy N 0) as [L|[->|G]].
  - assert (NQ : (inject_Z N < 0)%Q) by (change 0%Q with (inject_Z 0); rewrite <- Zlt_Qlt; lia).
    assert (X : (inject_Z N * pow2 e < 0)%Q) by nra.
    rewrite (RN_neg _ X).
    assert (E : (- (inject_Z N * pow2 e) == inject_Z (- N) * pow2 e)%Q).
    { rewrite inject_Z_opp. ring. }
    rewrite (RNpos_Proper _ _ E).
    rewrite (RNpos_exact _ (- N) e); try reflexivity; try lia.
    + rewrite <- E. ring.
    + rewrite <- E. lra.
    + rewrite <- E. revert HT. apply Qabs_case; intros; lra.
  - rewrite RN_0; [|change (inject_Z 0) with 0%Q; ring].
    change (inject_Z 0) with 0%Q. ring.
  - assert (NQ : (0 < inject_Z N)%Q) by (change 0%Q with (inject_Z 0); rewrite <- Zlt_Qlt; lia).
    assert (X : (0 < inject_Z N * pow2 e)%Q) by nra.
    rewrite (RN_pos _ X).
    apply (RNpos_exact _ N e); try reflexivity; try lia; try assumption.
    revert HT. apply Qabs_case; intros; lra.
Qed.

Lemma Qabs_inject_Z_lt z b : (Z.abs z < b)%Z -> (Qabs (inject_Z z) < inject_Z b)%Q.
Proof.
  intros H. apply Qabs_case; intros _.
  - rewrite <- Zlt_Qlt. lia.
  - rewrite <- inject_Z_opp. rewrite <- Zlt_Qlt. lia.
Qed.

Lemma pow2_53_lt_1024 : (pow2 53 < pow2 1024)%Q.
Proof. apply pow2_lt. lia. Qed.

Lemma RN_exact_int z : (Z.abs z < 2 ^ 53)%Z -> (RN (inject_Z z) == inject_Z z)%Q.
Proof.
  intros H.
  assert (E : (inject_Z z == inject_Z z * pow2 0)%Q) by (change (pow2 0) with 1%Q; ring).
  rewrite E at 1. rewrite RN_exact_dyadic; try lia; [symmetry; exact E|].
  rewrite <- E. pose proof pow2_53_lt_1024 as P.
  assert (B : (Qabs (inject_Z z) < pow2 53)%Q).
  { rewrite pow2_Z by lia. apply Qabs_inject_Z_lt. exact H. }
  lra.
Qed.

Lemma Prim2SF_of_Z z :
  Prim2SF (JSfmt.of_Z z) = binary_normalize prec emax z 0 false.
Proof. unfold JSfmt.of_Z. apply Prim2SF_SF2Prim. apply binary_normalize_valid. Qed.

Lemma F2Q_of_Z z : (F2Q (JSfmt.of_Z z) == RN (inject_Z z))%Q.
Proof.
  unfold F2Q. rewrite Prim2SF_of_Z.
  destruct (binary_normalize_RN z 0) as [_ V]. rewrite V.
  apply RN_Proper. change (pow2 0) with 1%Q. ring.
Qed.

Lemma of_Z_not_nan z : is_nan (JSfmt.of_Z z) = false.
Proof.
  apply is_nan_false. rewrite Prim2SF_of_Z.
  destruct (binary_normalize_RN z 0) as [S _]. apply SFsign_not_nan. rewrite S. discriminate.
Qed.

Lemma of_Z_is_int z : (Z.abs z < 2 ^ 53)%Z -> is_int (JSfmt.of_Z z) z.
Proof.
  intros H. pose proof (RN_exact_int z H) as E.
  assert (V : (F2Q (JSfmt.of_Z z) == inject_Z z)%Q) by (rewrite F2Q_of_Z; exact E).
  split; [|exact V].
  apply (is_finite_F2Q _ (of_Z_not_nan z)). rewrite V.
  pose proof pow2_53_lt_1024 as P.
  assert (B : (Qabs (inject_Z z) < pow2 53)%Q).
  { rewrite pow2_Z by lia. apply Qabs_inject_Z_lt. exact H. }
  lra.
Qed.

Lemma cond_Qopp_nonneg s q : (0 < q)%Q -> (0 <= cond_Qopp s q)%Q -> s = false.
Proof. intros P H. destruct s; [cbn [cond_Qopp] in H; lra | reflexivity]. Qed.

(** The shape of a non-negative finite number. *)
Lemma nonneg_finite_cases x :
  is_finite x = true -> (0 <= F2Q x)%Q ->
  (exists s, Prim2SF x = S754_zero s) \/
  (exists m e, Prim2SF x = S754_finite false m e /\
               valid_binary (S754_finite false m e) = true /\
               (F2Q x == inject_Z (Z.pos m) * pow2 e)%Q).
Proof.
  rewrite is_finite_spec. unfold F2Q. intros F P. pose proof (Prim2SF_valid x) as V.
  destruct (Prim2SF x) as [s|s| |s m e]; try discriminate.
  - left. exists s. reflexivity.
  - right. cbn [SF2Q] in P.
    assert (S : s = false).
    { apply (cond_Qopp_nonneg s (inject_Z (Z.pos m) * pow2 e)); [|exact P].
      apply Qmult_lt_0_compat; [apply Zpos_Qpos | apply pow2_pos]. }
    subst s. exists m, e. split; [reflexivity|]. split; [exact V | reflexivity].
Qed.

(** Below [2^52] a finite number has a negative exponent. *)
Lemma small_exponent_neg m e :
  valid_binary (S754_finite false m e) = true ->
  (inject_Z (Z.pos m) * pow2 e < pow2 52)%Q -> (e < 0)%Z.
Proof.
  intros V H. destruct (valid_finite_bounds _ _ _ V) as (He & Hm & Hn & _).
  destruct (Z_lt_le_dec e 0) as [L|G]; [exact L|exfalso].
  assert (M : (pow2 52 <= inject_Z (Z.pos m))%Q).
  { rewrite pow2_Z by lia. rewrite <- Zle_Qle. apply Hn. lia. }
  assert (E1 : (1 <= pow2 e)%Q) by (change 1%Q with (pow2 0); apply pow2_le; lia).
  pose proof (pow2_pos 52). nra.
Qed.

Lemma dyadic_as_fraction m e :
  (e < 0)%Z ->
  (inject_Z m * pow2 e == inject_Z m / inject_Z (2 ^ (- e)))%Q.
Proof.
  intros He. rewrite <- pow2_Z by lia. rewrite pow2_opp.
  pose proof (pow2_pos e). field. lra.
Qed.

Lemma Math_floor_is_int y :
  is_finite y = true -> (0 <= F2Q y)%Q -> (F2Q y < pow2 52)%Q ->
  is_int (JSfmt.Math_floor y) (Qfloor (F2Q y)).
Proof.
  intros F P U. unfold JSfmt.Math_floor.
  destruct (nonneg_finite_cases y F P) as [[s E]|(m & e & E & V & Q)]; rewrite E.
  - split; [exact F|]. unfold F2Q. rewrite E. reflexivity.
  - rewrite Q in U. pose proof (small_exponent_neg m e V U) as He.
    assert (L : (0 <=? e)%Z = false) by (apply Z.leb_gt; exact He).
    rewrite L. cbn [cond_Zopp].
    assert (FL : Qfloor (F2Q y) = (Z.pos m / 2 ^ (- e))%Z).
    { rewrite (Qfloor_eq _ _ Q). rewrite (Qfloor_eq _ _ (dyadic_as_fraction _ e He)).
      symmetry. apply Zdiv_Qdiv. }
    rewrite FL. apply of_Z_is_int.
    assert (P2 : (0 < 2 ^ (- e))%Z) by (apply Z.pow_pos_nonneg; lia).
    destruct (valid_finite_bounds _ _ _ V) as (_ & Hm & _).
    assert (D0 : (0 <= Z.pos m / 2 ^ (- e))%Z) by (apply Z.div_pos; lia).
    assert (D1 : (Z.pos m / 2 ^ (- e) <= Z.pos m)%Z) by (apply Z.div_le_upper_bound; nia).
    lia.
Qed.

Lemma Math_round_is_int x :
  is_finite x = true -> (0 <= F2Q x)%Q -> (F2Q x < pow2 52)%Q ->
  is_int (JSfmt.Math_round x) (Qfloor (F2Q x + (1 # 2))).
Proof.
  intros F P U. unfold JSfmt.Math_round.
  destruct (nonneg_finite_cases x F P) as [[s E]|(m & e & E & V & Q)]; rewrite E.
  - split; [exact F|]. unfold F2Q. rewrite E. reflexivity.
  - rewrite Q in U. pose proof (small_exponent_neg m e V U) as He.
    assert (L : (0 <=? e)%Z = false) by (apply Z.leb_gt; exact He).
    rewrite L. cbn [cond_Zopp]. cbv zeta. rewrite andb_false_r.
    assert (P2 : (0 < 2 ^ (- e))%Z) by (apply Z.pow_pos_nonneg; lia).
    assert (P3 : (2 ^ (1 - e) = 2 * 2 ^ (- e))%Z).
    { replace (1 - e)%Z with (1 + - e)%Z by lia. rewrite Z.pow_add_r by lia. reflexivity. }
    assert (FL : Qfloor (F2Q x + (1 # 2)) =
                 ((2 * Z.pos m + 2 ^ (- e)) / 2 ^ (1 - e))%Z).
    { rewrite Zdiv_Qdiv. apply Qfloor_eq. rewrite Q, (dyadic_as_fraction _ e He).
      rewrite P3. rewrite inject_Z_plus, !inject_Z_mult.
      assert (0 < inject_Z (2 ^ (- e)))%Q
        by (change 0%Q with (inject_Z 0); rewrite <- Zlt_Qlt; exact P2).
      change (inject_Z 2) with 2%Q. field. lra. }
    rewrite FL. apply of_Z_is_int.
    destruct (valid_finite_bounds _ _ _ V) as (_ & Hm & _).
    assert (D0 : (0 <= (2 * Z.pos m + 2 ^ (- e)) / 2 ^ (1 - e))%Z) by (apply Z.div_pos; lia).
    assert (D1 : ((2 * Z.pos m + 2 ^ (- e)) / 2 ^ (1 - e) <= Z.pos m)%Z).
    { assert (P4 : (2 ^ 1 <= 2 ^ (- e))%Z) by (apply Z.pow_le_mono_r; lia).
      apply Z.div_le_upper_bound; [lia|]. rewrite P3. nia. }
    lia.
Qed.

Lemma inject_Z_inj a b : (inject_Z a == inject_Z b)%Q -> a = b.
Proof. intros H. apply Z.le_antisymm; rewrite Zle_Qle; lra. Qed.

(** The mantissa and exponent of an integral number. *)
Lemma int_mantissa m e k :
  (inject_Z (Z.pos m) * pow2 e == inject_Z k)%Q ->
  ((0 <= e)%Z -> k = (Z.pos m * 2 ^ e)%Z) /\
  ((e < 0)%Z -> Z.pos m = (k * 2 ^ (- e))%Z).
Proof.
  intros H. split; intros He.
  - apply inject_Z_inj. rewrite inject_Z_mult. rewrite <- pow2_Z by lia.
    symmetry. exact H.
  - apply inject_Z_inj. rewrite inject_Z_mult. rewrite <- pow2_Z by lia.
    rewrite <- H. rewrite <- Qmult_assoc.
    rewrite (pow2_split e (- e) 0) by lia. change (pow2 0) with 1%Q. ring.
Qed.

Lemma Number_toString_int x k :
  is_int x k -> (0 <= k <= 2 ^ 53)%Z ->
  JSfmt.Number_toString x = Some (JSfmt.decimal (Z.to_N k)).
Proof.
  intros [F V] Hk. unfold JSfmt.Number_toString.
  assert (P : (0 <= F2Q x)%Q) by (rewrite V; apply Zpos_Q; lia).
  destruct (nonneg_finite_cases x F P) as [[s E]|(m & e & E & Vm & Q)]; rewrite E.
  - unfold F2Q in V. rewrite E in V. cbn [SF2Q] in V.
    assert (k = 0%Z) by (apply inject_Z_inj; rewrite <- V; reflexivity).
    subst k. reflexivity.
  - rewrite Q in V. destruct (int_mantissa m e k V) as [A B].
    destruct (Z.leb_spec 0 e) as [L|L].
    + specialize (A L). rewrite <- A.
      assert (C : (k <=? 2 ^ 53)%Z = true) by (apply Z.leb_le; lia).
      rewrite C. reflexivity.
    + specialize (B L). rewrite B.
      assert (P2 : (0 < 2 ^ (- e))%Z) by (apply Z.pow_pos_nonneg; lia).
      rewrite Z.mod_mul by lia. rewrite Z.div_mul by lia. reflexivity.
Qed.

Lemma is_int_zero_sign x s : Prim2SF x = S754_zero s -> is_int x 0.
Proof.
  intros E. split.
  - rewrite is_finite_spec, E. reflexivity.
  - unfold F2Q. rewrite E. reflexivity.
Qed.

(** The remainder of non-negative integral numbers. *)
Lemma rem_is_int a b ka kb :
  is_int a ka -> is_int b kb -> (0 <= ka < 2 ^ 53)%Z -> (0 < kb < 2 ^ 53)%Z ->
  is_int (JSfmt.rem a b) (ka mod kb).
Proof.
  intros [Fa Va] [Fb Vb] Ha Hb.
  assert (Pa : (0 <= F2Q a)%Q) by (rewrite Va; apply Zpos_Q; lia).
  assert (Pb : (0 <= F2Q b)%Q) by (rewrite Vb; apply Zpos_Q; lia).
  unfold JSfmt.rem.
  destruct (nonneg_finite_cases b Fb Pb) as [[sb Eb]|(mb & eb & Eb & Vmb & Qb)].
  { exfalso. unfold F2Q in Vb. rewrite Eb in Vb. cbn [SF2Q] in Vb.
    assert (kb = 0%Z) by (apply inject_Z_inj; rewrite <- Vb; reflexivity). lia. }
  rewrite Eb.
  destruct (nonneg_finite_cases a Fa Pa) as [[sa Ea]|(ma & ea & Ea & Vma & Qa)]; rewrite Ea.
  { unfold F2Q in Va. rewrite Ea in Va. cbn [SF2Q] in Va.
    assert (ka = 0%Z) by (apply inject_Z_inj; rewrite <- Va; reflexivity). subst ka.
    rewrite Z.mod_0_l by lia. apply (is_int_zero_sign a sa Ea). }
  rewrite Qa in Va. rewrite Qb in Vb.
  destruct (valid_finite_bounds _ _ _ Vma) as (Hea & Hma & Hna & _).
  destruct (valid_finite_bounds _ _ _ Vmb) as (Heb & Hmb & Hnb & _).
  assert (KA : (inject_Z ka < pow2 53)%Q)
    by (rewrite pow2_Z by lia; rewrite <- Zlt_Qlt; lia).
  assert (KB : (inject_Z kb < pow2 53)%Q)
    by (rewrite pow2_Z by lia; rewrite <- Zlt_Qlt; lia).
  assert (NA : (ea <= 0)%Z).
  { destruct (Z_le_gt_dec ea 0) as [L|G]; [exact L|exfalso].
    assert (M : (pow2 52 <= inject_Z (Z.pos ma))%Q).
    { rewrite pow2_Z by lia. rewrite <- Zle_Qle. apply Hna. lia. }
    assert (E1 : (2 <= pow2 ea)%Q) by (change 2%Q with (pow2 1); apply pow2_le; lia).
    assert (K : (pow2 53 == pow2 52 * 2)%Q) by reflexivity.
    pose proof (pow2_pos 52). nra. }
  assert (NB : (eb <= 0)%Z).
  { destruct (Z_le_gt_dec eb 0) as [L|G]; [exact L|exfalso].
    assert (M : (pow2 52 <= inject_Z (Z.pos mb))%Q).
    { rewrite pow2_Z by lia. rewrite <- Zle_Qle. apply Hnb. lia. }
    assert (E1 : (2 <= pow2 eb)%Q) by (change 2%Q with (pow2 1); apply pow2_le; lia).
    assert (K : (pow2 53 == pow2 52 * 2)%Q) by reflexivity.
    pose proof (pow2_pos 52). nra. }
  cbv zeta. cbn [cond_Zopp].
  set (e := Z.min ea eb).
  assert (He : (-1074 <= e <= 0)%Z) by (unfold e; lia).
  assert (P2 : (0 < 2 ^ (- e))%Z) by (apply Z.pow_pos_nonneg; lia).
  (* both scaled mantissas are the integers times 2^(-e) *)
  assert (XA : (Z.pos ma * 2 ^ (ea - e) = ka * 2 ^ (- e))%Z).
  { apply inject_Z_inj. rewrite !inject_Z_mult. rewrite <- !pow2_Z by lia.
    rewrite <- Va. rewrite <- Qmult_assoc.
    rewrite (pow2_split ea (- e) (ea - e)) by lia. reflexivity. }
  assert (XB : (Z.pos mb * 2 ^ (eb - e) = kb * 2 ^ (- e))%Z).
  { apply inject_Z_inj. rewrite !inject_Z_mult. rewrite <- !pow2_Z by lia.
    rewrite <- Vb. rewrite <- Qmult_assoc.
    rewrite (pow2_split eb (- e) (eb - e)) by lia. reflexivity. }
  rewrite XA, XB.
  rewrite Z.rem_mod_nonneg by nia.
  rewrite Z.mul_mod_distr_r by lia.
  pose proof (Z.mod_pos_bound ka kb ltac:(lia)) as MB.
  destruct (Z.eqb_spec (ka mod kb * 2 ^ (- e)) 0) as [Z0|NZ].
  - assert (ka mod kb = 0)%Z by nia. rewrite H. split; reflexivity.
  - set (r := (ka mod kb)%Z) in *.
    assert (PV : Prim2SF (SF2Prim (binary_normalize prec emax (r * 2 ^ (- e)) e false))
                 = binary_normalize prec emax (r * 2 ^ (- e)) e false).
    { apply Prim2SF_SF2Prim. apply binary_normalize_valid. }
    destruct (binary_normalize_RN (r * 2 ^ (- e)) e) as [S V].
    assert (VE : (inject_Z (r * 2 ^ (- e)) * pow2 e == inject_Z r)%Q).
    { rewrite inject_Z_mult. rewrite <- pow2_Z by lia. rewrite <- Qmult_assoc.
      rewrite (pow2_split (- e) e 0) by lia. change (pow2 0) with 1%Q. ring. }
    assert (VR : (SF2Q (binary_normalize prec emax (r * 2 ^ (- e)) e false) == inject_Z r)%Q).
    { rewrite V. rewrite (RN_Proper _ _ VE). apply RN_exact_int. lia. }
    assert (NN : is_nan (SF2Prim (binary_normalize prec emax (r * 2 ^ (- e)) e false)) = false).
    { apply is_nan_false. rewrite PV. apply SFsign_not_nan. rewrite S. discriminate. }
    split.
    + apply (is_finite_F2Q _ NN). unfold F2Q. rewrite PV, VR.
      pose proof pow2_53_lt_1024.
      assert (Qabs (inject_Z r) < pow2 53)%Q.
      { rewrite pow2_Z by lia. apply Qabs_inject_Z_lt. lia. }
      lra.
    + unfold F2Q. rewrite PV. exact VR.
Qed.

(** The absolute error of rounding below [2^d]. *)
Lemma RNpos_error v d :
  (0 < v)%Q -> (v < pow2 d)%Q -> (-1021 <= d <= 1000)%Z ->
  (Qabs (RNpos v - v) <= pow2 (d - 54))%Q.
Proof.
  intros Hv Hd Bd. destruct (Qmag_spec v Hv) as [M1 M2].
  assert (MD : (Qmag v <= d)%Z).
  { assert (Qmag v - 1 < d)%Z by (apply pow2_lt_inv; lra). lia. }
  unfold RNpos. rewrite fexp_eq. set (E := Z.max (Qmag v - 53) (-1074)).
  pose proof (pow2_pos E) as PE. pose proof (pow2_pos (- E)) as PNE.
  set (y := (v * pow2 (- E))%Q).
  pose proof (rne_error y) as RE.
  assert (VY : (v == y * pow2 E)%Q).
  { unfold y. rewrite <- Qmult_assoc. rewrite (pow2_split (- E) E 0) by lia.
    change (pow2 0) with 1%Q. ring. }
  assert (HALF : (pow2 (E - 1) == pow2 E * (1 # 2))%Q) by apply pow2_pred.
  assert (EB : (pow2 (E - 1) <= pow2 (d - 54))%Q) by (apply pow2_le; lia).
  assert (ERR : (Qabs (inject_Z (rne y) * pow2 E - v) <= pow2 (E - 1))%Q).
  { rewrite HALF. apply Qabs_Qle_condition. apply Qabs_Qle_condition in RE.
    destruct RE as [R1 R2]. rewrite VY at 1 2. split; nra. }
  assert (NOV : (inject_Z (rne y) * pow2 E < pow2 1024)%Q).
  { apply Qabs_Qle_condition in ERR. destruct ERR as [_ R2].
    assert (pow2 d <= pow2 1000)%Q by (apply pow2_le; lia).
    assert (pow2 (d - 54) <= pow2 1000)%Q by (apply pow2_le; lia).
    assert (K : (pow2 1000 + pow2 1000 == pow2 1001)%Q).
    { rewrite <- (pow2_split 1000 1 1001) by lia. rewrite pow2_1. ring. }
    assert (pow2 1001 < pow2 1024)%Q by (apply pow2_lt; lia).
    lra. }
  rewrite (clamp_lt _ NOV). lra.
Qed.

Lemma F2Q_60 : (F2Q 60 == 60)%Q.
Proof. reflexivity. Qed.

(** Dividing a whole number of minutes by 60 and flooring gives the whole
    hours: the quotient cannot round up to the next integer. *)
Lemma whole_hours Tf T :
  is_int Tf T -> (0 <= T < 2 ^ 50)%Z ->
  is_int (JSfmt.Math_floor (Tf / 60)) (T / 60).
Proof.
  intros [F V] HT.
  destruct (div_F2Q Tf 60 F eq_refl eq_refl) as [N Q]. rewrite V, F2Q_60 in Q.
  set (q := (T / 60)%Z).
  assert (Q0 : (0 <= q)%Z) by (apply Z.div_pos; lia).
  assert (Q1 : (q < 2 ^ 45)%Z) by (apply Z.div_lt_upper_bound; lia).
  pose proof (Z.mod_pos_bound T 60 ltac:(lia)) as MB.
  pose proof (Z.div_mod T 60 ltac:(lia)) as DM. fold q in DM.
  assert (TQ : (inject_Z T == 60 * inject_Z q + inject_Z (T mod 60))%Q).
  { rewrite DM at 1. rewrite inject_Z_plus, inject_Z_mult. reflexivity. }
  assert (R0 : (0 <= inject_Z (T mod 60))%Q) by (apply Zpos_Q; lia).
  assert (R1 : (inject_Z (T mod 60) <= 59)%Q).
  { change 59%Q with (inject_Z 59). rewrite <- Zle_Qle. lia. }
  assert (LO : (inject_Z q <= inject_Z T / 60)%Q).
  { apply Qle_shift_div_l; lra. }
  set (g := (inject_Z (64 * q + 63) * pow2 (-6))%Q).
  assert (GV : (g == inject_Z q + (63 # 64))%Q).
  { unfold g. rewrite inject_Z_plus, inject_Z_mult.
    assert (K : (pow2 (-6) == 1 # 64)%Q) by reflexivity. rewrite K.
    change (inject_Z 64) with 64%Q. change (inject_Z 63) with 63%Q. field. }
  assert (HI : (inject_Z T / 60 <= g)%Q).
  { apply Qle_shift_div_r; lra. }
  assert (QP : (0 <= inject_Z q)%Q) by (apply Zpos_Q; exact Q0).
  assert (QU : (inject_Z q < pow2 45)%Q).
  { rewrite pow2_Z by lia. rewrite <- Zlt_Qlt. exact Q1. }
  assert (P46 : (pow2 45 + pow2 45 == pow2 46)%Q).
  { rewrite <- (pow2_split 45 1 46) by lia. rewrite pow2_1. ring. }
  assert (P45 : (pow2 46 < pow2 52)%Q) by (apply pow2_lt; lia).
  assert (P52 : (pow2 52 < pow2 1024)%Q) by (apply pow2_lt; lia).
  assert (P1 : (1 <= pow2 45)%Q) by (change 1%Q with (pow2 0); apply pow2_le; lia).
  assert (RG : (RN g == g)%Q).
  { unfold g. apply RN_exact_dyadic; [lia | lia |]. fold g. rewrite GV.
    apply Qabs_case; intros; lra. }
  assert (RQ : (RN (inject_Z q) == inject_Z q)%Q) by (apply RN_exact_int; lia).
  pose proof (RN_mono _ _ LO) as L1. pose proof (RN_mono _ _ HI) as L2.
  rewrite RQ in L1. rewrite RG in L2. rewrite <- Q in L1, L2.
  assert (FL : Qfloor (F2Q (Tf / 60)) = q) by (apply Qfloor_unique; lra).
  rewrite <- FL. apply Math_floor_is_int; try lra.
  apply (is_finite_F2Q _ N). apply Qabs_case; intros; lra.
Qed.

Lemma string_of_uint_digits d : all_digits (NilEmpty.string_of_uint d) = true.
Proof. induction d; cbn [NilEmpty.string_of_uint all_digits]; try rewrite IHd; reflexivity. Qed.

Lemma decimal_digits n : all_digits (JSfmt.decimal n) = true.
Proof. apply string_of_uint_digits. Qed.

Lemma decimal_nonempty n : JSfmt.decimal n <> EmptyString.
Proof.
  unfold JSfmt.decimal. destruct n as [|p]; [discriminate|].
  cbn [N.to_uint]. pose proof (DecimalPos.Unsigned.to_uint_nonnil p) as H.
  destruct (Pos.to_uint p); try congruence; discriminate.
Qed.

Lemma decimal_parse n :
  option_map N.of_uint (NilEmpty.uint_of_string (JSfmt.decimal n)) = Some n.
Proof.
  unfold JSfmt.decimal. rewrite NilEmpty.usu. cbn [option_map].
  f_equal. apply DecimalN.Unsigned.of_to.
Qed.

Lemma split_at_digits c s rest :
  all_digits s = true -> is_digit c = false ->
  split_at c (s ++ String c rest) = Some (s, rest).
Proof.
  intros D NC. induction s as [|a s IH]; cbn [append split_at].
  - rewrite Ascii.eqb_refl. reflexivity.
  - cbn [all_digits] in D. apply andb_true_iff in D. destruct D as [Da Ds].
    destruct (Ascii.eqb_spec a c) as [->|NE]; [congruence|].
    rewrite (IH Ds). reflexivity.
Qed.

(** Padding a digit string to two characters. *)
Lemma padStart_2_cases s :
  s <> EmptyString ->
  JSfmt.padStart 2 "0" s = s \/ JSfmt.padStart 2 "0" s = String "0" s.
Proof.
  intros NE. destruct s as [|a [|b s]]; [congruence | right; reflexivity | left; reflexivity].
Qed.

Lemma padStart_2_decimal n :
  all_digits (JSfmt.padStart 2 "0" (JSfmt.decimal n)) = true /\
  JSfmt.padStart 2 "0" (JSfmt.decimal n) <> EmptyString /\
  option_map N.of_uint (NilEmpty.uint_of_string (JSfmt.padStart 2 "0" (JSfmt.decimal n)))
    = Some n.
Proof.
  pose proof (decimal_digits n) as D. pose proof (decimal_nonempty n) as NE.
  pose proof (decimal_parse n) as P.
  destruct (padStart_2_cases _ NE) as [E|E]; rewrite E.
  - repeat split; assumption.
  - split; [cbn [all_digits]; rewrite D; reflexivity|]. split; [discriminate|].
    cbn [NilEmpty.uint_of_string]. 
    destruct (NilEmpty.uint_of_string (JSfmt.decimal n)) as [u|]; [|discriminate].
    cbn [uint_of_char option_map] in *. exact P.
Qed.

Lemma string_eqb_empty s : s <> EmptyString -> (s =? "")%string = false.
Proof. intros H. apply String.eqb_neq. exact H. Qed.

(** Reading back what [fmtHM] writes. *)
Lemma parseHM_format h m :
  parseHM (JSfmt.decimal h ++ "h " ++ JSfmt.padStart 2 "0" (JSfmt.decimal m) ++ "m")
  = Some (h * 60 + m)%N.
Proof.
  unfold parseHM.
  change ("h " ++ JSfmt.padStart 2 "0" (JSfmt.decimal m) ++ "m")%string
    with (String "h" (String " " (JSfmt.padStart 2 "0" (JSfmt.decimal m) ++ "m"))).
  rewrite (split_at_digits "h" _ _ (decimal_digits h) eq_refl).
  destruct (padStart_2_decimal m) as (D & NE & P).
  change (JSfmt.padStart 2 "0" (JSfmt.decimal m) ++ "m")%string
    with (JSfmt.padStart 2 "0" (JSfmt.decimal m) ++ String "m" EmptyString)%string.
  rewrite (split_at_digits "m" _ _ D eq_refl).
  pose proof (decimal_parse h) as PH.
  destruct (NilEmpty.uint_of_string (JSfmt.decimal h)) as [uh|]; [|discriminate].
  destruct (NilEmpty.uint_of_string (JSfmt.padStart 2 "0" (JSfmt.decimal m))) as [um|];
    [|discriminate].
  cbn [option_map] in PH, P. injection PH as ->. injection P as ->.
  rewrite (string_eqb_empty _ (decimal_nonempty h)), (string_eqb_empty _ NE).
  reflexivity.
Qed.

Lemma parseHM_hm_string k : parseHM (hm_string k) = Some k.
Proof.
  unfold hm_string. rewrite parseHM_format. f_equal.
  rewrite N.mul_comm. symmetry. apply N.div_mod. discriminate.
Qed.

Lemma F2Q_1e13 : (F2Q 1e13 == inject_Z 10000000000000)%Q.
Proof. reflexivity. Qed.

Lemma is_int_60 : is_int 60 60.
Proof. split; reflexivity. Qed.

Lemma RN_error_below v d :
  (0 <= v)%Q -> (v < pow2 d)%Q -> (-1021 <= d <= 1000)%Z ->
  (Qabs (RN v - v) <= pow2 (d - 54))%Q.
Proof.
  intros P U Bd. destruct (Qle_lt_or_eq _ _ P) as [L|E].
  - rewrite (RN_pos v L). apply RNpos_error; assumption.
  - assert (Z : (v == 0)%Q) by (symmetry; exact E).
    rewrite (RN_0 v Z). pose proof (pow2_pos (d - 54)). apply Qabs_case; intros; lra.
Qed.

Lemma RN_error_50 v :
  (0 <= v)%Q -> (v < pow2 50)%Q -> (Qabs (RN v - v) <= 1 # 16)%Q.
Proof.
  intros P U. destruct (Qle_lt_or_eq _ _ P) as [L|E].
  - rewrite (RN_pos v L). pose proof (RNpos_error v 50 L U ltac:(lia)) as H.
    assert (K : (pow2 (50 - 54) == 1 # 16)%Q) by reflexivity. rewrite K in H. exact H.
  - assert (Z : (v == 0)%Q) by (symmetry; exact E).
    rewrite (RN_0 v Z). apply Qabs_case; intros; lra.
Qed.

(** What [fmtHM] prints when the rounded product is the integer [T]. *)
Lemma fmtHM_of_minutes n T :
  is_finite n = true ->
  is_finite (n * 60) = true -> (0 <= F2Q (n * 60))%Q ->
  (F2Q (n * 60) <= inject_Z 600000000000000)%Q ->
  Qfloor (F2Q (n * 60) + (1 # 2)) = T ->
  fmtHM n = Some (hm_string (Z.to_N T)).
Proof.
  intros Fn Fx P U HT.
  assert (P50 : (pow2 50 < pow2 52)%Q) by (apply pow2_lt; lia).
  assert (B50 : (inject_Z 600000000000000 < pow2 50)%Q).
  { rewrite pow2_Z by lia. rewrite <- Zlt_Qlt. reflexivity. }
  assert (I : is_int (JSfmt.Math_round (n * 60)) T).
  { rewrite <- HT. apply Math_round_is_int; [exact Fx | exact P | lra]. }
  assert (T0 : (0 <= T)%Z).
  { rewrite <- HT. apply Zlt_Q. change (inject_Z 0) with 0%Q.
    destruct (Qfloor_bounds (F2Q (n * 60) + (1 # 2))). lra. }
  assert (T1 : (T < 2 ^ 50)%Z).
  { assert (A : (inject_Z T <= F2Q (n * 60) + (1 # 2))%Q) by (rewrite <- HT; apply Qfloor_le).
    assert (C : (inject_Z T < inject_Z 600000000000000 + 1)%Q) by lra.
    apply Zlt_Q in C. lia. }
  pose proof (whole_hours _ T I ltac:(lia)) as IH.
  pose proof (rem_is_int _ _ T 60 I is_int_60 ltac:(lia) ltac:(lia)) as IM.
  pose proof (Z.mod_pos_bound T 60 ltac:(lia)) as MB.
  assert (H0 : (0 <= T / 60)%Z) by (apply Z.div_pos; lia).
  assert (H1 : (T / 60 <= T)%Z) by (apply Z.div_le_upper_bound; lia).
  unfold fmtHM. cbv zeta.
  rewrite (Number_toString_int _ _ IH) by lia.
  rewrite (Number_toString_int _ _ IM) by lia.
  unfold hm_string.
  rewrite Z2N.inj_div by lia. rewrite Z2N.inj_mod by lia. reflexivity.
Qed.

Lemma hours_in_range n :
  (0 <=? n) = true -> (n <=? 1e13) = true ->
  is_finite n = true /\ is_finite (n * 60) = true /\
  (0 <= F2Q (n * 60))%Q /\ (F2Q (n * 60) <= inject_Z 600000000000000)%Q /\
  (F2Q (n * 60) == RN (F2Q n * 60))%Q /\ (0 <= F2Q n * 60)%Q /\ (F2Q n * 60 < pow2 50)%Q.
Proof.
  intros L U. destruct (leb_not_nan _ _ L) as [_ N].
  apply leb_true_F2Q in L, U. rewrite F2Q_0 in L. rewrite F2Q_1e13 in U.
  assert (B : (inject_Z 10000000000000 * 60 == inject_Z 600000000000000)%Q) by reflexivity.
  assert (B50 : (inject_Z 600000000000000 < pow2 50)%Q).
  { rewrite pow2_Z by lia. rewrite <- Zlt_Qlt. reflexivity. }
  assert (P50 : (pow2 50 < pow2 1024)%Q) by (apply pow2_lt; lia).
  assert (Fn : is_finite n = true).
  { apply (is_finite_F2Q n N). apply Qabs_case; intros; lra. }
  destruct (mul_F2Q n 60 Fn eq_refl) as [Nx Vx]. rewrite F2Q_60 in Vx.
  assert (X0 : (0 <= F2Q (n * 60))%Q).
  { rewrite Vx. rewrite <- RN_0_eq. apply RN_mono. lra. }
  assert (X1 : (F2Q (n * 60) <= inject_Z 600000000000000)%Q).
  { rewrite Vx. rewrite <- (RN_exact_int 600000000000000) by (cbn; lia).
    apply RN_mono. lra. }
  split; [exact Fn|]. split.
  { apply (is_finite_F2Q _ Nx). apply Qabs_case; intros; lra. }
  repeat split; try lra; exact Vx.
Qed.

(** C9, as amended. For every hour count from 0 to ten trillion, [fmtHM]
    writes "Hh MMm" where minutes = round(n x 60) (the product in double
    precision, then rounded to the nearest integer, halves up),
    H = minutes div 60 and M = minutes mod 60 padded to two digits; reading
    the text back gives these minutes, and they are the whole number k of
    minutes whenever n x 60 is within a quarter of a minute of k, in
    particular when n is k / 60 computed in double precision. *)
Theorem C9_fmtHM_format_and_round_trip :
  (forall n : float,
     (0 <=? n) = true -> (n <=? 1e13) = true ->
     let minutes := Z.to_N (Qfloor (F2Q (n * 60) + (1 # 2))) in
     fmtHM n = Some (hm_string minutes) /\
     parseHM (hm_string minutes) = Some minutes /\
     (forall k : Z, (Qabs (F2Q n * 60 - inject_Z k) <= 1 # 4)%Q -> minutes = Z.to_N k)) /\
  (forall k : Z,
     (0 <= k <= 600000000000000)%Z ->
     fmtHM (JSfmt.of_Z k / 60) = Some (hm_string (Z.to_N k)) /\
     parseHM (hm_string (Z.to_N k)) = Some (Z.to_N k)).
Proof.
  assert (NEAR : forall n k,
            (0 <=? n) = true -> (n <=? 1e13) = true ->
            (Qabs (F2Q n * 60 - inject_Z k) <= 1 # 4)%Q ->
            Qfloor (F2Q (n * 60) + (1 # 2)) = k).
  { intros n k L U H.
    destruct (hours_in_range n L U) as (Fn & Fx & X0 & X1 & Vx & V0 & V1).
    pose proof (RN_error_50 _ V0 V1) as E. rewrite <- Vx in E.
    apply Qabs_Qle_condition in E. apply Qabs_Qle_condition in H.
    apply Qfloor_unique; lra. }
  split.
  - intros n L U. cbv zeta.
    destruct (hours_in_range n L U) as (Fn & Fx & X0 & X1 & Vx & V0 & V1).
    split; [apply fmtHM_of_minutes; try assumption; reflexivity|].
    split; [apply parseHM_hm_string|].
    intros k H. f_equal. apply NEAR; assumption.
  - intros k Hk. split; [|apply parseHM_hm_string].
    destruct (of_Z_is_int k ltac:(lia)) as [Fk Vk].
    destruct (div_F2Q (JSfmt.of_Z k) 60 Fk eq_refl eq_refl) as [Nq Vq].
    rewrite Vk, F2Q_60 in Vq.
    assert (K0 : (0 <= inject_Z k)%Q) by (apply Zpos_Q; lia).
    assert (K1 : (inject_Z k <= inject_Z 600000000000000)%Q) by (rewrite <- Zle_Qle; lia).
    assert (B50 : (inject_Z 600000000000000 < pow2 50)%Q).
    { rewrite pow2_Z by lia. rewrite <- Zlt_Qlt. reflexivity. }
    assert (D0 : (0 <= inject_Z k / 60)%Q) by (apply Qle_shift_div_l; lra).
    assert (D1 : (inject_Z k / 60 <= inject_Z k)%Q) by (apply Qle_shift_div_r; lra).
    assert (B44 : (inject_Z 600000000000000 / 60 < pow2 44)%Q).
    { rewrite pow2_Z by lia. apply Qlt_shift_div_r; [reflexivity|].
      rewrite <- (inject_Z_mult _ 60). rewrite <- Zlt_Qlt. reflexivity. }
    assert (D2 : (inject_Z k / 60 <= inject_Z 600000000000000 / 60)%Q).
    { apply Qle_shift_div_r; [reflexivity|].
      assert (inject_Z 600000000000000 / 60 * 60 == inject_Z 600000000000000)%Q by field.
      lra. }
    pose proof (RN_error_below _ 44 D0 ltac:(lra) ltac:(lia)) as E. rewrite <- Vq in E.
    assert (K44 : (pow2 (44 - 54) == 1 # 1024)%Q) by reflexivity. rewrite K44 in E.
    apply Qabs_Qle_condition in E. destruct E as [E1 E2].
    assert (KQ : (inject_Z k / 60 * 60 == inject_Z k)%Q) by (field).
    assert (F1 : (F2Q 1e13 == inject_Z 10000000000000)%Q) by reflexivity.
    assert (QU : (F2Q (JSfmt.of_Z k / 60) <= F2Q 1e13)%Q).
    { rewrite Vq, F1. rewrite <- (RN_exact_int 10000000000000) by (cbn; lia).
      apply RN_mono. apply Qle_shift_div_r; [lra|].
      assert (inject_Z 10000000000000 * 60 == inject_Z 600000000000000)%Q by reflexivity. lra. }
    assert (QL : (0 <= F2Q (JSfmt.of_Z k / 60))%Q).
    { rewrite Vq. rewrite <- RN_0_eq. apply RN_mono. exact D0. }
    assert (L : (0 <=? JSfmt.of_Z k / 60) = true)
      by (apply (leb_F2Q 0 _ eq_refl Nq); rewrite F2Q_0; exact QL).
    assert (U : (JSfmt.of_Z k / 60 <=? 1e13) = true)
      by (apply (leb_F2Q _ 1e13 Nq eq_refl); exact QU).
    destruct (hours_in_range _ L U) as (Fn & Fx & X0 & X1 & Vx & V0 & V1).
    apply fmtHM_of_minutes; try assumption.
    apply NEAR; try assumption.
    apply Qabs_Qle_condition. split; lra.
Qed.

Lemma C9_witness :
  (0 <=? 2.5) = true /\ (2.5 <=? 1e13) = true /\
  fmtHM 2.5 = Some (hm_string (Z.to_N (Qfloor (F2Q (2.5 * 60) + (1 # 2))))) /\
  (0 <= 67 <= 600000000000000)%Z /\
  fmtHM (JSfmt.of_Z 67 / 60) = Some (hm_string (Z.to_N 67)).
Proof.
  split; [reflexivity|]. split; [reflexivity|]. split.
  - apply (proj1 C9_fmtHM_format_and_round_trip 2.5%float); reflexivity.
  - split; [lia|]. apply (proj2 C9_fmtHM_format_and_round_trip 67%Z). lia.
Defined.

(** 2^50 + 3/4 hours is a whole number of minutes (67553994410557485), but
    its product by 60 is not a binary64 number: [fmtHM] writes 48 minutes
    past the hour instead of 45, and reading the text back gives three
    minutes more. *)
Lemma C9_counterexample :
  let n := 1125899906842624.75 in
  (0 <=? n) = true /\
  (F2Q n * 60 == inject_Z 67553994410557485)%Q /\
  fmtHM n = Some "1125899906842624h 48m"%string /\
  parseHM "1125899906842624h 48m" = Some 67553994410557488%N /\
  fmtHM n <> Some (hm_string 67553994410557485).
Proof.
  cbv zeta. split; [reflexivity|]. split; [reflexivity|].
  split; [vm_compute; reflexivity|]. split; [vm_compute; reflexivity|].
  vm_compute. discriminate.
Qed.

(** The relative error of rounding in the normal range is at most
    [2^-53]. *)
Lemma RN_relative v :
  (pow2 (-1022) <= v)%Q -> (v < pow2 1000)%Q ->
  (v * (1 - pow2 (-53)) <= RN v /\ RN v <= v * (1 + pow2 (-53)))%Q.
Proof.
  intros L U. pose proof (pow2_pos (-1022)) as P0.
  assert (Hv : (0 < v)%Q) by lra.
  destruct (Qmag_spec v Hv) as [M1 M2].
  assert (A : (-1022 < Qmag v)%Z) by (apply pow2_lt_inv; lra).
  assert (B : (Qmag v - 1 < 1000)%Z) by (apply pow2_lt_inv; lra).
  pose proof (RNpos_error v (Qmag v) Hv M2 ltac:(lia)) as E.
  rewrite (RN_pos v Hv).
  assert (K : (pow2 (Qmag v - 54) == pow2 (Qmag v - 1) * pow2 (-53))%Q).
  { symmetry. apply pow2_split. lia. }
  pose proof (pow2_pos (-53)) as P53. pose proof (pow2_pos (Qmag v - 1)) as PM.
  apply Qabs_Qle_condition in E. destruct E as [E1 E2].
  rewrite K in E1, E2. split; nra.
Qed.

(** The next number after 0.5 is [0.5 + 2^-53]. *)
Lemma above_half_gap c :
  is_finite c = true -> ((1 # 2) < F2Q c)%Q -> (pow2 (-53) <= F2Q c - (1 # 2))%Q.
Proof.
  intros F H.
  destruct (nonneg_finite_cases c F ltac:(lra)) as [[s E]|(m & e & E & V & Q)].
  { exfalso. unfold F2Q in H. rewrite E in H. cbn [SF2Q] in H. lra. }
  rewrite Q in *. destruct (valid_finite_bounds _ _ _ V) as (He & Hm & _).
  pose proof (pow2_pos e) as Pe. pose proof (Zpos_Qpos m) as Pm.
  assert (MQ : (inject_Z (Z.pos m) < pow2 53)%Q).
  { rewrite pow2_Z by lia. rewrite <- Zlt_Qlt. exact Hm. }
  assert (HALF : (pow2 (-1) == 1 # 2)%Q) by reflexivity.
  assert (E53 : (-53 <= e)%Z).
  { destruct (Z_le_gt_dec (-53) e) as [A|A]; [exact A|exfalso].
    assert (B : (pow2 e <= pow2 (-54))%Q) by (apply pow2_le; lia).
    assert (C : (pow2 53 * pow2 (-54) == pow2 (-1))%Q) by (apply pow2_split; lia).
    pose proof (pow2_pos (-54)). nra. }
  assert (G : (inject_Z (Z.pos m) * pow2 e == inject_Z (Z.pos m * 2 ^ (e + 53)) * pow2 (-53))%Q).
  { rewrite inject_Z_mult. rewrite <- pow2_Z by lia. rewrite <- Qmult_assoc.
    rewrite (pow2_split (e + 53) (-53) e) by lia. reflexivity. }
  assert (H2 : ((1 # 2) == inject_Z (2 ^ 52) * pow2 (-53))%Q) by reflexivity.
  rewrite G in *. set (K := (Z.pos m * 2 ^ (e + 53))%Z) in *.
  pose proof (pow2_pos (-53)) as P53.
  assert (KK : (2 ^ 52 < K)%Z).
  { destruct (Z_lt_le_dec (2 ^ 52) K) as [A|A]; [exact A|exfalso].
    rewrite Zle_Qle in A. rewrite H2 in H. nra. }
  assert (KQ : (inject_Z (2 ^ 52) + 1 <= inject_Z K)%Q).
  { rewrite <- inject_Z_succ. rewrite <- Zle_Qle. lia. }
  rewrite H2. nra.
Qed.

Lemma finite_of_bound x b :
  is_nan x = false -> (0 <= F2Q x)%Q -> (F2Q x <= pow2 b)%Q -> (b < 1024)%Z ->
  is_finite x = true.
Proof.
  intros N P U B. apply (is_finite_F2Q x N).
  assert (pow2 b < pow2 1024)%Q by (apply pow2_lt; exact B).
  apply Qabs_case; intros; lra.
Qed.

Lemma BETA_gt_eighth : ((1 # 8) < F2Q BETA)%Q.
Proof.
  assert (E : (F2Q 0.125 == 1 # 8)%Q) by reflexivity.
  rewrite <- E. apply ltb_true_F2Q. reflexivity.
Qed.

Lemma F2Q_1e100_lt : (F2Q 1e100 < pow2 333)%Q.
Proof.
  assert (E : (F2Q (SF2Prim (S754_finite false 4503599627370496 281)) == pow2 333)%Q).
  { unfold F2Q. rewrite Prim2SF_SF2Prim by reflexivity. cbn [SF2Q cond_Qopp].
    rewrite <- (pow2_split 52 281 333) by lia. rewrite (pow2_Z 52) by lia. reflexivity. }
  rewrite <- E. apply ltb_true_F2Q. reflexivity.
Qed.

Lemma cubic_up d : (0 < d)%Q -> (d <= 1 # 4)%Q ->
  ((1 + d) * (1 + d) * (1 + d) - (1 - d) <= 8 * d * (1 - d))%Q.
Proof. intros. nra. Qed.

Lemma cubic_down d : (0 < d)%Q -> (d <= 1 # 4)%Q ->
  ((1 + d) - (1 - d) * (1 - d) * (1 - d) <= 8 * d * (1 - d))%Q.
Proof. intros. nra. Qed.

(** A rounded positive quantity with its relative error bounds. *)
Lemma round_bounds z v :
  is_nan z = false -> (F2Q z == RN v)%Q ->
  (pow2 (-60) <= v)%Q -> (v <= pow2 400)%Q ->
  is_finite z = true /\
  (v * (1 - pow2 (-53)) <= F2Q z)%Q /\ (F2Q z <= v * (1 + pow2 (-53)))%Q.
Proof.
  intros N E L U.
  assert (A : (pow2 (-1022) <= pow2 (-60))%Q) by (apply pow2_le; lia).
  assert (B : (pow2 400 < pow2 1000)%Q) by (apply pow2_lt; lia).
  destruct (RN_relative v ltac:(lra) ltac:(lra)) as [R1 R2]. rewrite <- E in R1, R2.
  pose proof (pow2_pos (-60)) as P60. pose proof (pow2_pos (-53)) as P53.
  assert (D1 : (pow2 (-53) <= 1)%Q) by (change 1%Q with (pow2 0); apply pow2_le; lia).
  split; [|split; assumption].
  apply (finite_of_bound z 401 N); [nra | | lia].
  assert (K : (pow2 401 == pow2 400 * 2)%Q).
  { rewrite <- (pow2_split 400 1 401) by lia. rewrite pow2_1. reflexivity. }
  rewrite K. nra.
Qed.

(** Five roundings, each within [d] in relative error, of the two sides
    of [(C - 1/2) / beta + (1/2) / beta = C / beta]. *)
Lemma five_roundings_abstract (d X1 X2 X A hl k s hz : Q) :
  (0 < d)%Q -> (d <= 1 # 4)%Q -> (0 < X1)%Q -> (0 < X2)%Q -> (X1 + X2 == X)%Q ->
  (X1 * (1 - d) <= A)%Q -> (A <= X1 * (1 + d))%Q ->
  (A * (1 - d) <= hl)%Q -> (hl <= A * (1 + d))%Q ->
  (X2 * (1 - d) <= k)%Q -> (k <= X2 * (1 + d))%Q ->
  ((hl + k) * (1 - d) <= s)%Q -> (s <= (hl + k) * (1 + d))%Q ->
  (X * (1 - d) <= hz)%Q -> (hz <= X * (1 + d))%Q ->
  (Qabs (s - hz) <= 8 * d * hz)%Q.
Proof.
  intros Pd Dq X1P X2P XE A1 A2 H1 H2 K1 K2 S1 S2 Z1 Z2.
  pose proof (cubic_up d Pd Dq) as CU. pose proof (cubic_down d Pd Dq) as CD.
  assert (XP : (0 < X)%Q) by lra.
  assert (HU : (hl <= X1 * ((1 + d) * (1 + d)))%Q) by nra.
  assert (HL : (X1 * ((1 - d) * (1 - d)) <= hl)%Q) by nra.
  assert (KU : (k <= X2 * ((1 + d) * (1 + d)))%Q) by nra.
  assert (KL : (X2 * ((1 - d) * (1 - d)) <= k)%Q) by nra.
  assert (SU : (hl + k <= X * ((1 + d) * (1 + d)))%Q) by nra.
  assert (SL : (X * ((1 - d) * (1 - d)) <= hl + k)%Q) by nra.
  assert (U3 : (s <= X * ((1 + d) * (1 + d) * (1 + d)))%Q) by nra.
  assert (L3 : (X * ((1 - d) * (1 - d) * (1 - d)) <= s)%Q) by nra.
  apply Qabs_Qle_condition. split; nra.
Qed.

Lemma five_roundings (d beta C a hl k s hz : Q) :
  (0 < d)%Q -> (d <= 1 # 4)%Q -> (0 < beta)%Q -> ((1 # 2) < C)%Q ->
  ((C - (1 # 2)) * (1 - d) <= a)%Q -> (a <= (C - (1 # 2)) * (1 + d))%Q ->
  (a / beta * (1 - d) <= hl)%Q -> (hl <= a / beta * (1 + d))%Q ->
  ((1 # 2) / beta * (1 - d) <= k)%Q -> (k <= (1 # 2) / beta * (1 + d))%Q ->
  ((hl + k) * (1 - d) <= s)%Q -> (s <= (hl + k) * (1 + d))%Q ->
  (C / beta * (1 - d) <= hz)%Q -> (hz <= C / beta * (1 + d))%Q ->
  (Qabs (s - hz) <= 8 * d * hz)%Q.
Proof.
  intros Pd Dq Pb HC A1 A2 H1 H2 K1 K2 S1 S2 Z1 Z2.
  assert (IB : (0 < / beta)%Q) by (apply Qinv_lt_0_compat; exact Pb).
  apply (five_roundings_abstract d ((C - (1 # 2)) / beta) ((1 # 2) / beta) (C / beta)
           (a / beta) hl k s hz); try assumption.
  - unfold Qdiv. nra.
  - unfold Qdiv. nra.
  - field. lra.
  - unfold Qdiv. nra.
  - unfold Qdiv. nra.
Qed.

Lemma pow2_chain_bounds :
  (pow2 (-60) <= pow2 (-53) * (1 # 4))%Q /\ (pow2 (-60) <= 1 # 8)%Q /\
  (pow2 333 * 64 <= pow2 400)%Q /\ (1 <= pow2 333)%Q /\ (pow2 (-53) <= 1 # 4)%Q /\
  (0 < pow2 (-53))%Q.
Proof.
  assert (A : (pow2 (-53) * (1 # 4) == pow2 (-55))%Q).
  { rewrite <- (pow2_split (-53) (-2) (-55)) by lia. reflexivity. }
  assert (B : (pow2 333 * 64 == pow2 339)%Q).
  { rewrite <- (pow2_split 333 6 339) by lia. reflexivity. }
  assert (C1 : (pow2 (-60) <= pow2 (-55))%Q) by (apply pow2_le; lia).
  assert (C2 : (pow2 (-60) <= pow2 (-3))%Q) by (apply pow2_le; lia).
  assert (C3 : (pow2 339 <= pow2 400)%Q) by (apply pow2_le; lia).
  assert (C4 : (pow2 0 <= pow2 333)%Q) by (apply pow2_le; lia).
  assert (C5 : (pow2 (-53) <= pow2 (-2))%Q) by (apply pow2_le; lia).
  pose proof (pow2_pos (-53)) as C6.
  rewrite A, B. change (1 # 8)%Q with (pow2 (-3)). change 1%Q with (pow2 0).
  change (1 # 4)%Q with (pow2 (-2)). tauto.
Qed.

(** Above the threshold, the hours to the legal level plus 0.5 / 0.15 and
    the hours to zero differ by rounding only: by at most [2^-50] of the
    hours to zero. *)
Lemma hoursToZero_vs_hoursToLegal c :
  (0.5 <? c) = true -> (c <=? 1e100) = true ->
  (Qabs (F2Q (hoursToLegal c + 0.5 / 0.15) - F2Q (hoursToZero c))
   <= pow2 (-50) * F2Q (hoursToZero c))%Q.
Proof.
  intros H U. destruct (hoursToLegal_above c H) as [EL _]. rewrite EL.
  unfold hoursToZero. change 0.15 with BETA.
  destruct (ltb_not_nan _ _ H) as [_ Nc].
  apply ltb_true_F2Q in H. rewrite F2Q_half in H.
  apply leb_true_F2Q in U. pose proof F2Q_1e100_lt as U'.
  pose proof BETA_gt_eighth as B8. pose proof BETA_lt_1 as B1.
  destruct pow2_chain_bounds as (W1 & W2 & W3 & W4 & W5 & W6).
  assert (Fc : is_finite c = true).
  { apply (finite_of_bound c 333 Nc); [lra | lra | lia]. }
  pose proof (above_half_gap c Fc H) as GAP.
  (* a = c - 0.5 *)
  destruct (sub_F2Q c 0.5 Fc eq_refl) as [Na Va]. rewrite F2Q_half in Va.
  destruct (round_bounds _ _ Na Va ltac:(lra) ltac:(lra)) as (Fa & A1 & A2).
  (* hl = a / BETA *)
  destruct (div_F2Q (c - 0.5) BETA Fa BETA_finite BETA_not_zero) as [Nh Vh].
  assert (AL : (pow2 (-53) * (1 # 2) <= F2Q (c - 0.5))%Q) by nra.
  assert (AU : (F2Q (c - 0.5) <= pow2 333 * 2)%Q) by nra.
  assert (XH1 : (F2Q (c - 0.5) <= F2Q (c - 0.5) / F2Q BETA)%Q)
    by (apply Qle_shift_div_l; nra).
  assert (XH2 : (F2Q (c - 0.5) / F2Q BETA <= F2Q (c - 0.5) * 8)%Q)
    by (apply Qle_shift_div_r; nra).
  destruct (round_bounds _ _ Nh Vh ltac:(lra) ltac:(lra)) as (Fh & H1 & H2).
  (* k = 0.5 / BETA *)
  destruct (div_F2Q 0.5 BETA eq_refl BETA_finite BETA_not_zero) as [Nk Vk].
  rewrite F2Q_half in Vk.
  assert (XK1 : ((1 # 2) <= (1 # 2) / F2Q BETA)%Q) by (apply Qle_shift_div_l; nra).
  assert (XK2 : ((1 # 2) / F2Q BETA <= 4)%Q) by (apply Qle_shift_div_r; nra).
  destruct (round_bounds _ _ Nk Vk ltac:(lra) ltac:(lra)) as (Fk & K1 & K2).
  (* s = hl + k *)
  destruct (add_F2Q _ _ Fh Fk) as [Ns Vs].
  assert (HL : (pow2 (-53) * (1 # 4) <= F2Q ((c - 0.5) / BETA))%Q) by nra.
  assert (HU : (F2Q ((c - 0.5) / BETA) <= pow2 333 * 32)%Q) by nra.
  assert (KL : (0 <= F2Q (0.5 / BETA))%Q) by nra.
  assert (KU : (F2Q (0.5 / BETA) <= 8)%Q) by nra.
  destruct (round_bounds _ _ Ns Vs ltac:(lra) ltac:(lra)) as (Fs & S1 & S2).
  (* hz = c / BETA *)
  destruct (div_F2Q c BETA Fc BETA_finite BETA_not_zero) as [Nz Vz].
  assert (XZ1 : (F2Q c <= F2Q c / F2Q BETA)%Q) by (apply Qle_shift_div_l; nra).
  assert (XZ2 : (F2Q c / F2Q BETA <= F2Q c * 8)%Q) by (apply Qle_shift_div_r; nra).
  destruct (round_bounds _ _ Nz Vz ltac:(lra) ltac:(lra)) as (Fz & Z1 & Z2).
  assert (E50 : (pow2 (-50) == 8 * pow2 (-53))%Q) by reflexivity.
  rewrite E50.
  apply (five_roundings (pow2 (-53)) (F2Q BETA) (F2Q c) (F2Q (c - 0.5))
           (F2Q ((c - 0.5) / BETA)) (F2Q (0.5 / BETA))); try assumption; lra.
Qed.

(** C5, as amended. The hours to zero are current / 0.15, which is 0 at
    level 0; above 0.5 the hours to the legal threshold are
    (current - 0.5) / 0.15, and adding 0.5 / 0.15 to them gives the hours
    to zero up to rounding: the two differ by at most 2^-50 of the hours
    to zero (for levels up to 1e100). *)
Theorem C5_hoursToZero (current : float) :
  hoursToZero current = current / 0.15 /\
  hoursToZero 0 = 0 /\
  ((0.5 <? current) = true ->
   hoursToLegal current = (current - 0.5) / 0.15 /\
   ((current <=? 1e100) = true ->
    (Qabs (F2Q (hoursToLegal current + 0.5 / 0.15) - F2Q (hoursToZero current))
     <= pow2 (-50) * F2Q (hoursToZero current))%Q)).
Proof.
  split; [reflexivity|]. split; [reflexivity|].
  intros H. split; [apply (hoursToLegal_above current); exact H|].
  intros U. apply hoursToZero_vs_hoursToLegal; assumption.
Qed.

Lemma C5_witness :
  (0.5 <? 0.8) = true /\ (0.8 <=? 1e100) = true /\
  hoursToLegal 0.8 = (0.8 - 0.5) / 0.15 /\
  (Qabs (F2Q (hoursToLegal 0.8 + 0.5 / 0.15) - F2Q (hoursToZero 0.8))
   <= pow2 (-50) * F2Q (hoursToZero 0.8))%Q.
Proof.
  split; [reflexivity|]. split; [reflexivity|].
  destruct (proj2 (proj2 (C5_hoursToZero 0.8)) eq_refl) as [A B].
  split; [exact A | apply B; reflexivity].
Defined.

(** At level 0.7 the two sides are different numbers. *)
Lemma C5_counterexample :
  (0.5 <? 0.7) = true /\ hoursToZero 0.7 <> hoursToLegal 0.7 + 0.5 / 0.15.
Proof. split; [reflexivity|]. apply not_eq_sym, ltb_neq. reflexivity. Qed.

(** * Part V: further properties of the handlers, the five values and the page *)

Lemma state_eq s l : st_drinks s = l ->
  mkState (st_sex s) (st_weight s) (st_hoursSinceStart s) l = s.
Proof. intros <-. destruct s; reflexivity. Qed.

Lemma filter_id_all {A} (f : A -> bool) (l : list A) :
  (forall x, In x l -> f x = true) -> filter f l = l.
Proof.
  induction l as [|a l IH]; intros H; [reflexivity|]. cbn [filter].
  rewrite (H a) by (left; reflexivity). f_equal. apply IH.
  intros x Hx. apply H. right. exact Hx.
Qed.

Lemma filter_filter_comm {A} (f g : A -> bool) (l : list A) :
  filter f (filter g l) = filter g (filter f l).
Proof.
  induction l as [|a l IH]; [reflexivity|]. cbn [filter].
  destruct (f a) eqn:F, (g a) eqn:G; cbn [filter]; rewrite ?F, ?G, IH; reflexivity.
Qed.

Lemma filter_idem {A} (f : A -> bool) (l : list A) :
  filter f (filter f l) = filter f l.
Proof.
  induction l as [|a l IH]; [reflexivity|]. cbn [filter].
  destruct (f a) eqn:F; cbn [filter]; rewrite ?F, IH; reflexivity.
Qed.

Lemma other_id d i : id d <> i -> negb (String.eqb (id d) i) = true.
Proof. intros H. apply negb_true_iff, String.eqb_neq. exact H. Qed.

(** X1. [addDrink] puts exactly one drink at the end of the list and
    leaves the drinks already there, and the rest of the state, as they
    are.  The new drink carries the identifier drawn for it, even when the
    preset has an [id] of its own; without a preset it is "Boisson",
    500 mL at 5 %, and a preset that gives label, volume and strength
    gives the drink these. *)
Theorem X1_addDrink_appends (uid : string) (preset : option DrinkPatch) (s : State) :
  let s' := addDrink uid preset s in
  (exists d, st_drinks s' = st_drinks s ++ [d] /\ id d = uid) /\
  List.length (st_drinks s') = S (List.length (st_drinks s)) /\
  (forall k d, nth_error (st_drinks s) k = Some d -> nth_error (st_drinks s') k = Some d) /\
  st_drinks (addDrink uid None s) = st_drinks s ++ [mkDrink uid "Boisson" 500 5] /\
  (forall i l v a,
     st_drinks (addDrink uid (Some (mkPatch i (Some l) (Some v) (Some a))) s)
     = st_drinks s ++ [mkDrink uid l v a]) /\
  st_sex s' = st_sex s /\ st_weight s' = st_weight s /\
  st_hoursSinceStart s' = st_hoursSinceStart s.
Proof.
  cbn zeta. split; [|split; [|split; [|split; [|split]]]].
  - eexists. split; [reflexivity|reflexivity].
  - unfold addDrink, setDrinks. cbn [st_drinks]. rewrite length_app. cbn [List.length]. lia.
  - intros k d H. unfold addDrink, setDrinks. cbn [st_drinks].
    rewrite nth_error_app1; [exact H|]. apply nth_error_Some. rewrite H. discriminate.
  - reflexivity.
  - reflexivity.
  - split; [|split]; reflexivity.
Qed.

Lemma X1_witness :
  let s := mkState male 75 0 [beer25; wine12] in
  nth_error (st_drinks s) 1 = Some wine12 /\
  nth_error (st_drinks (addDrink "x7" None s)) 1 = Some wine12.
Proof.
  cbn zeta. split; [reflexivity|].
  apply (proj1 (proj2 (proj2 (X1_addDrink_appends "x7" None
           (mkState male 75 0 [beer25; wine12]))))).
  reflexivity.
Defined.

Lemma removeDrink_added uid preset s :
  removeDrink uid (addDrink uid preset s) = removeDrink uid s.
Proof.
  unfold removeDrink, addDrink, setDrinks. cbn [st_sex st_weight st_hoursSinceStart st_drinks].
  f_equal. rewrite filter_app. cbn [filter id]. rewrite String.eqb_refl. cbn [negb].
  apply List.app_nil_r.
Qed.

Lemma removeDrink_absent i s :
  (forall d, In d (st_drinks s) -> id d <> i) -> removeDrink i s = s.
Proof.
  intros H. unfold removeDrink, setDrinks. apply state_eq. symmetry.
  apply filter_id_all. intros d Hd. apply other_id, H, Hd.
Qed.

(** X2. Removing the identifier just added undoes [addDrink] when no
    drink of the list had that identifier; in general it gives what
    removing that identifier from the old list gives, so a drink that
    shared the identifier goes as well. *)
Theorem X2_addDrink_removeDrink_undo (uid : string) (preset : option DrinkPatch) (s : State) :
  removeDrink uid (addDrink uid preset s) = removeDrink uid s /\
  ((forall d, In d (st_drinks s) -> id d <> uid) ->
   removeDrink uid (addDrink uid preset s) = s).
Proof.
  split; [apply removeDrink_added|].
  intros H. rewrite removeDrink_added. apply removeDrink_absent, H.
Qed.

Lemma X2_witness :
  let s := mkState female 60 1 [beer25; wine12] in
  (forall d, In d (st_drinks s) -> id d <> "x7"%string) /\
  removeDrink "x7" (addDrink "x7" (Some (mkPatch None None (Some 40) (Some 40))) s) = s.
Proof.
  cbn zeta.
  assert (H : forall d, In d (st_drinks (mkState female 60 1 [beer25; wine12])) ->
                        id d <> "x7"%string).
  { intros d [<-|[<-|[]]]; discriminate. }
  split; [exact H|].
  apply (proj2 (X2_addDrink_removeDrink_undo "x7" _ _) H).
Defined.

(** X3. Removals compose as expected: removing an identifier twice is
    removing it once, removals of two identifiers can be done in either
    order, a removal never lengthens the list, and removing an identifier
    that no drink has changes nothing. *)
Theorem X3_removeDrink_composition (i j : string) (s : State) :
  removeDrink i (removeDrink i s) = removeDrink i s /\
  removeDrink i (removeDrink j s) = removeDrink j (removeDrink i s) /\
  (List.length (st_drinks (removeDrink i s)) <= List.length (st_drinks s))%nat /\
  ((forall d, In d (st_drinks s) -> id d <> i) -> removeDrink i s = s).
Proof.
  split; [|split; [|split]].
  - unfold removeDrink, setDrinks. cbn [st_sex st_weight st_hoursSinceStart st_drinks].
    rewrite filter_idem. reflexivity.
  - unfold removeDrink, setDrinks. cbn [st_sex st_weight st_hoursSinceStart st_drinks].
    rewrite filter_filter_comm. reflexivity.
  - apply filter_length_le.
  - apply removeDrink_absent.
Qed.

Lemma X3_witness :
  let s := mkState male 75 0 [beer25; wine12] in
  (forall d, In d (st_drinks s) -> id d <> "b33"%string) /\ removeDrink "b33" s = s.
Proof.
  cbn zeta.
  assert (H : forall d, In d (st_drinks (mkState male 75 0 [beer25; wine12])) ->
                        id d <> "b33"%string).
  { intros d [<-|[<-|[]]]; discriminate. }
  split; [exact H|].
  apply (proj2 (proj2 (proj2 (X3_removeDrink_composition "b33" "b33" _))) H).
Defined.

Lemma spread_keeps_id d p : patch_id p = None -> id (spread d p) = id d.
Proof. intros H. unfold spread. rewrite H. reflexivity. Qed.

Lemma spread_idem d p : spread (spread d p) p = spread d p.
Proof. unfold spread. cbn [id label volumeMl abv]. destruct p as [[?|] [?|] [?|] [?|]]; reflexivity. Qed.

(** X4. For patches that leave the identifier alone (the only ones the
    page sends): an empty patch changes nothing, applying a patch twice is
    applying it once, patches to two different identifiers can be applied
    in either order, and removing a drink makes a patch to it irrelevant,
    while a removal and a patch to another identifier commute. *)
Theorem X4_updateDrink_composition (i j : string) (p q : DrinkPatch) (s : State) :
  patch_id p = None -> patch_id q = None ->
  updateDrink i (mkPatch None None None None) s = s /\
  updateDrink i p (updateDrink i p s) = updateDrink i p s /\
  (i <> j -> updateDrink i p (updateDrink j q s) = updateDrink j q (updateDrink i p s)) /\
  removeDrink i (updateDrink i p s) = removeDrink i s /\
  (i <> j -> removeDrink i (updateDrink j q s) = updateDrink j q (removeDrink i s)).
Proof.
  intros Hp Hq. split; [|split; [|split; [|split]]].
  - unfold updateDrink, setDrinks. apply state_eq. symmetry. apply map_unchanged.
    intros d _. destruct (String.eqb (id d) i); [|reflexivity]. destruct d; reflexivity.
  - unfold updateDrink, setDrinks. cbn [st_sex st_weight st_hoursSinceStart st_drinks].
    f_equal. rewrite map_map. apply map_ext. intros d.
    destruct (String.eqb (id d) i) eqn:E.
    + rewrite (spread_keeps_id d p Hp), E. apply spread_idem.
    + rewrite E. reflexivity.
  - intros N. unfold updateDrink, setDrinks.
    cbn [st_sex st_weight st_hoursSinceStart st_drinks]. f_equal.
    rewrite !map_map. apply map_ext. intros d.
    destruct (String.eqb (id d) j) eqn:Ej, (String.eqb (id d) i) eqn:Ei;
      rewrite ?spread_keeps_id, ?Ei, ?Ej by assumption; try reflexivity.
    apply String.eqb_eq in Ei, Ej. congruence.
  - unfold removeDrink, updateDrink, setDrinks.
    cbn [st_sex st_weight st_hoursSinceStart st_drinks]. f_equal.
    induction (st_drinks s) as [|d l IH]; [reflexivity|]. cbn [map filter].
    destruct (String.eqb (id d) i) eqn:E.
    + rewrite (spread_keeps_id d p Hp), E. cbn [negb]. exact IH.
    + rewrite E. cbn [negb]. f_equal. exact IH.
  - intros N. unfold removeDrink, updateDrink, setDrinks.
    cbn [st_sex st_weight st_hoursSinceStart st_drinks]. f_equal.
    induction (st_drinks s) as [|d l IH]; [reflexivity|]. cbn [map filter].
    destruct (String.eqb (id d) j) eqn:Ej.
    + rewrite (spread_keeps_id d q Hq).
      destruct (String.eqb (id d) i) eqn:Ei; cbn [negb map]; rewrite ?Ej, IH; reflexivity.
    + destruct (String.eqb (id d) i) eqn:Ei; cbn [negb map]; rewrite ?Ej, IH; reflexivity.
Qed.

Lemma X4_witness :
  let s := mkState male 75 0 [beer25; wine12; beer33] in
  let p := mkPatch None None (Some 500) None in
  let q := mkPatch None None None (Some 13) in
  patch_id p = None /\ patch_id q = None /\ "b25"%string <> "w12"%string /\
  updateDrink "b25" p (updateDrink "w12" q s) = updateDrink "w12" q (updateDrink "b25" p s) /\
  removeDrink "b25" (updateDrink "w12" q s) = updateDrink "w12" q (removeDrink "b25" s).
Proof.
  cbn zeta.
  assert (N : "b25"%string <> "w12"%string) by discriminate.
  split; [reflexivity|]. split; [reflexivity|]. split; [exact N|].
  destruct (X4_updateDrink_composition "b25" "w12" (mkPatch None None (Some 500) None)
              (mkPatch None None None (Some 13))
              (mkState male 75 0 [beer25; wine12; beer33]) eq_refl eq_refl)
    as (_ & _ & A & _ & B).
  split; [apply A, N | apply B, N].
Defined.

Lemma updateDrink_twice i p q s :
  patch_id p = None ->
  updateDrink i q (updateDrink i p s)
  = setDrinks (map (fun d => if String.eqb (id d) i then spread (spread d p) q else d)) s.
Proof.
  intros Hp. unfold updateDrink, setDrinks.
  cbn [st_sex st_weight st_hoursSinceStart st_drinks]. f_equal.
  rewrite map_map. apply map_ext. intros d.
  destruct (String.eqb (id d) i) eqn:E.
  - rewrite (spread_keeps_id d p Hp), E. reflexivity.
  - rewrite E. reflexivity.
Qed.

(** X5. Edits of the fields of a drink: a later edit of a field replaces
    an earlier edit of the same field, and edits of the volume, the
    strength and the name of a drink can be made in any order. *)
Theorem X5_field_edits_compose (i : string) (v w a : float) (l : string) (s : State) :
  onVolumeChange i v (onVolumeChange i w s) = onVolumeChange i v s /\
  onAbvChange i v (onAbvChange i w s) = onAbvChange i v s /\
  onVolumeChange i v (onAbvChange i a s) = onAbvChange i a (onVolumeChange i v s) /\
  onVolumeChange i v (onLabelChange i l s) = onLabelChange i l (onVolumeChange i v s) /\
  onAbvChange i a (onLabelChange i l s) = onLabelChange i l (onAbvChange i a s).
Proof.
  unfold onVolumeChange, onAbvChange, onLabelChange.
  rewrite !updateDrink_twice by reflexivity.
  repeat split; unfold updateDrink, setDrinks; f_equal; apply map_ext; intros d;
    destruct (String.eqb (id d) i); reflexivity.
Qed.

Lemma fold_left_map_same (f : Drink -> Drink) (l : list Drink) (acc : float) :
  (forall d, volumeMl (f d) = volumeMl d /\ abv (f d) = abv d) ->
  fold_left addDrinkGrams (map f l) acc = fold_left addDrinkGrams l acc.
Proof.
  intros H. revert acc. induction l as [|d l IH]; intros acc; [reflexivity|].
  cbn [map fold_left]. rewrite IH. f_equal. unfold addDrinkGrams.
  destruct (H d) as [-> ->]. reflexivity.
Qed.

(** X6. The name of a drink plays no part in the computation: renaming a
    drink changes none of the five values, and neither does any patch
    that gives neither a volume nor a strength. *)
Theorem X6_label_is_irrelevant (i : string) (l : string) (p : DrinkPatch) (s : State) :
  render (onLabelChange i l s) = render s /\
  (patch_volumeMl p = None -> patch_abv p = None ->
   render (updateDrink i p s) = render s).
Proof.
  assert (G : forall q, patch_volumeMl q = None -> patch_abv q = None ->
                        render (updateDrink i q s) = render s).
  { intros q Hv Ha. unfold render, updateDrink, setDrinks, gramsPureAlcohol.
    cbn [st_sex st_weight st_hoursSinceStart st_drinks].
    rewrite fold_left_map_same; [reflexivity|].
    intros d. destruct (String.eqb (id d) i); [|split; reflexivity].
    unfold spread. cbn [volumeMl abv]. rewrite Hv, Ha. split; reflexivity. }
  split; [apply G; reflexivity | apply G].
Qed.

Lemma X6_witness :
  let s := mkState male 75 0 [beer25; wine12] in
  let p := mkPatch (Some "z"%string) (Some "Rouge"%string) None None in
  patch_volumeMl p = None /\ patch_abv p = None /\
  render (updateDrink "w12" p s) = render s.
Proof.
  cbn zeta. split; [reflexivity|]. split; [reflexivity|].
  apply (proj2 (X6_label_is_irrelevant "w12" "" _ _)); reflexivity.
Defined.

Lemma NN_leb x : (0 <=? x) = true <-> NN x.
Proof.
  unfold NN. split.
  - intros H. destruct (leb_not_nan _ _ H) as [_ N]. split; [exact N|].
    apply leb_true_F2Q in H. rewrite F2Q_0 in H. exact H.
  - intros [N P]. apply leb_F2Q; [reflexivity | exact N | rewrite F2Q_0; exact P].
Qed.

Lemma NN_0 : NN 0.
Proof. split; [reflexivity | rewrite F2Q_0; lra]. Qed.

Lemma NN_cases x : NN x -> is_finite x = true \/ Prim2SF x = S754_infinity false.
Proof.
  intros [N P]. destruct (not_nan_cases x N) as [F|[E|E]]; auto.
  exfalso. rewrite (F2Q_ninf x E) in P. pose proof (pow2_pos 1024). lra.
Qed.

Lemma pinf_NN x : Prim2SF x = S754_infinity false -> NN x.
Proof.
  intros E. split; [apply is_nan_false; rewrite E; discriminate|].
  rewrite (F2Q_pinf x E). pose proof (pow2_pos 1024). lra.
Qed.

Lemma le_pinf x y : Prim2SF y = S754_infinity false -> (F2Q x <= F2Q y)%Q.
Proof. intros E. rewrite (F2Q_pinf y E). apply F2Q_bound. Qed.

Lemma finite_le x y :
  NN x -> is_finite y = true -> (F2Q x <= F2Q y)%Q -> is_finite x = true.
Proof.
  intros [N P] F L. apply (is_finite_F2Q x N). destruct (finite_F2Q_lt y F).
  rewrite Qabs_pos by exact P. lra.
Qed.

Lemma pos_finite_shape d :
  is_finite d = true -> (0 < F2Q d)%Q -> exists m e, Prim2SF d = S754_finite false m e.
Proof.
  intros F P. destruct (nonneg_finite_cases d F) as [[s E]|(m & e & E & _)]; [lra| |eauto].
  exfalso. unfold F2Q in P. rewrite E in P. cbn in P. lra.
Qed.

Lemma pos_not_zero d : is_nan d = false -> (0 < F2Q d)%Q -> is_zero d = false.
Proof.
  intros N P. unfold is_zero. destruct (d =? PrimFloat.zero) eqn:E; [|reflexivity].
  apply (eqb_F2Q d PrimFloat.zero N eq_refl) in E.
  change (F2Q PrimFloat.zero) with (F2Q 0) in E. rewrite F2Q_0 in E. lra.
Qed.

Lemma add_pinf_l x y :
  Prim2SF x = S754_infinity false -> NN y -> Prim2SF (x + y) = S754_infinity false.
Proof.
  intros E Ny. rewrite add_spec, E. unfold SF64add.
  destruct (NN_cases y Ny) as [F|Ey].
  - rewrite is_finite_spec in F. destruct (Prim2SF y); try discriminate; reflexivity.
  - rewrite Ey. reflexivity.
Qed.

Lemma add_pinf_r x y :
  NN x -> Prim2SF y = S754_infinity false -> Prim2SF (x + y) = S754_infinity false.
Proof.
  intros Nx E. rewrite add_spec, E. unfold SF64add.
  destruct (NN_cases x Nx) as [F|Ex].
  - rewrite is_finite_spec in F. destruct (Prim2SF x); try discriminate; reflexivity.
  - rewrite Ex. reflexivity.
Qed.

Lemma add_NN x y : NN x -> NN y -> NN (x + y).
Proof.
  intros Nx Ny. destruct (NN_cases x Nx) as [Fx|Ex].
  - destruct (NN_cases y Ny) as [Fy|Ey].
    + destruct (add_F2Q x y Fx Fy) as [N V]. split; [exact N|]. rewrite V.
      rewrite <- RN_0_eq. apply RN_mono. destruct Nx, Ny. lra.
    + apply pinf_NN, add_pinf_r; assumption.
  - apply pinf_NN, add_pinf_l; assumption.
Qed.

Lemma add_mono x x' y y' :
  NN x -> NN x' -> NN y -> NN y' ->
  (F2Q x <= F2Q x')%Q -> (F2Q y <= F2Q y')%Q -> (F2Q (x + y) <= F2Q (x' + y'))%Q.
Proof.
  intros Nx Nx' Ny Ny' Lx Ly.
  destruct (NN_cases x' Nx') as [Fx'|Ex']; [|apply le_pinf, add_pinf_l; assumption].
  destruct (NN_cases y' Ny') as [Fy'|Ey']; [|apply le_pinf, add_pinf_r; assumption].
  pose proof (finite_le x x' Nx Fx' Lx) as Fx. pose proof (finite_le y y' Ny Fy' Ly) as Fy.
  destruct (add_F2Q x y Fx Fy) as [_ ->]. destruct (add_F2Q x' y' Fx' Fy') as [_ ->].
  apply RN_mono. lra.
Qed.

Lemma add_ge_l x t : NN x -> NN t -> (F2Q x <= F2Q (x + t))%Q.
Proof.
  intros Nx Nt.
  destruct (NN_cases x Nx) as [Fx|Ex]; [|apply le_pinf, add_pinf_l; assumption].
  destruct (NN_cases t Nt) as [Ft|Et]; [|apply le_pinf, add_pinf_r; assumption].
  destruct (add_F2Q x t Fx Ft) as [_ ->].
  apply Qle_trans with (RN (F2Q x)); [rewrite (RN_finite x Fx); lra|].
  apply RN_mono. destruct Nt. lra.
Qed.

Lemma mul_NN x y :
  is_finite x = true -> is_finite y = true -> (0 <= F2Q x)%Q -> (0 <= F2Q y)%Q ->
  NN (x * y).
Proof.
  intros Fx Fy Px Py. destruct (mul_F2Q x y Fx Fy) as [N V]. split; [exact N|].
  rewrite V, <- RN_0_eq. apply RN_mono. nra.
Qed.

Lemma mul_mono_fin x x' y y' :
  is_finite x = true -> is_finite x' = true -> is_finite y = true -> is_finite y' = true ->
  (0 <= F2Q x)%Q -> (0 <= F2Q y)%Q -> (F2Q x <= F2Q x')%Q -> (F2Q y <= F2Q y')%Q ->
  (F2Q (x * y) <= F2Q (x' * y'))%Q.
Proof.
  intros Fx Fx' Fy Fy' Px Py Lx Ly.
  destruct (mul_F2Q x y Fx Fy) as [_ ->]. destruct (mul_F2Q x' y' Fx' Fy') as [_ ->].
  apply RN_mono. nra.
Qed.

Lemma mul_r_pinf t c :
  Prim2SF t = S754_infinity false -> is_finite c = true -> (0 < F2Q c)%Q ->
  Prim2SF (t * c) = S754_infinity false.
Proof.
  intros E F P. destruct (pos_finite_shape c F P) as (m & e & Ec).
  rewrite mul_spec, E, Ec. reflexivity.
Qed.

Lemma mul_r_NN t c : NN t -> is_finite c = true -> (0 < F2Q c)%Q -> NN (t * c).
Proof.
  intros Nt F P. destruct (NN_cases t Nt) as [Ft|Et].
  - apply mul_NN; try assumption; [apply Nt | lra].
  - apply pinf_NN, mul_r_pinf; assumption.
Qed.

Lemma mul_r_mono t t' c :
  NN t -> NN t' -> (F2Q t <= F2Q t')%Q -> is_finite c = true -> (0 < F2Q c)%Q ->
  (F2Q (t * c) <= F2Q (t' * c))%Q.
Proof.
  intros Nt Nt' L F P.
  destruct (NN_cases t' Nt') as [Ft'|Et']; [|apply le_pinf, mul_r_pinf; assumption].
  pose proof (finite_le t t' Nt Ft' L) as Ft.
  apply mul_mono_fin; try assumption; [apply Nt | lra | lra].
Qed.

Lemma div_pinf g d :
  Prim2SF g = S754_infinity false -> is_finite d = true -> (0 < F2Q d)%Q ->
  Prim2SF (g / d) = S754_infinity false.
Proof.
  intros E F P. destruct (pos_finite_shape d F P) as (m & e & Ed).
  rewrite div_spec, E, Ed. reflexivity.
Qed.

Lemma div_fin g d :
  is_finite g = true -> is_finite d = true -> (0 < F2Q d)%Q ->
  is_nan (g / d) = false /\ (F2Q (g / d) == RN (F2Q g / F2Q d))%Q.
Proof.
  intros Fg Fd P. apply div_F2Q; try assumption.
  apply pos_not_zero; [apply is_finite_not_nan; exact Fd | exact P].
Qed.

Lemma Qdiv_nonneg a b : (0 <= a)%Q -> (0 < b)%Q -> (0 <= a / b)%Q.
Proof. intros A B. apply Qle_shift_div_l; [exact B | lra]. Qed.

Lemma Qdiv_mono_num a a' b : (a <= a')%Q -> (0 < b)%Q -> (a / b <= a' / b)%Q.
Proof.
  intros A B. unfold Qdiv. apply Qmult_le_compat_r; [exact A|].
  apply Qlt_le_weak, Qinv_lt_0_compat. exact B.
Qed.

Lemma Qdiv_antitone_den a b b' : (0 <= a)%Q -> (0 < b)%Q -> (b <= b')%Q -> (a / b' <= a / b)%Q.
Proof.
  intros A B L.
  assert (E : (a / b == a / b' + a * (b' - b) / (b * b'))%Q) by (field; lra).
  rewrite E. assert (0 <= a * (b' - b) / (b * b'))%Q by (apply Qdiv_nonneg; nra). lra.
Qed.

Lemma div_NN g d : NN g -> is_finite d = true -> (0 < F2Q d)%Q -> NN (g / d).
Proof.
  intros Ng F P. destruct (NN_cases g Ng) as [Fg|Eg].
  - destruct (div_fin g d Fg F P) as [N V]. split; [exact N|].
    rewrite V, <- RN_0_eq. apply RN_mono, Qdiv_nonneg; [apply Ng | exact P].
  - apply pinf_NN, div_pinf; assumption.
Qed.

Lemma div_mono g g' d :
  NN g -> NN g' -> (F2Q g <= F2Q g')%Q -> is_finite d = true -> (0 < F2Q d)%Q ->
  (F2Q (g / d) <= F2Q (g' / d))%Q.
Proof.
  intros Ng Ng' L F P.
  destruct (NN_cases g' Ng') as [Fg'|Eg']; [|apply le_pinf, div_pinf; assumption].
  pose proof (finite_le g g' Ng Fg' L) as Fg.
  destruct (div_fin g d Fg F P) as [_ ->]. destruct (div_fin g' d Fg' F P) as [_ ->].
  apply RN_mono, Qdiv_mono_num; assumption.
Qed.

Lemma div_antitone g d d' :
  NN g -> is_finite d = true -> is_finite d' = true ->
  (0 < F2Q d)%Q -> (F2Q d <= F2Q d')%Q -> (F2Q (g / d') <= F2Q (g / d))%Q.
Proof.
  intros Ng F F' P L.
  destruct (NN_cases g Ng) as [Fg|Eg]; [|apply le_pinf, div_pinf; assumption].
  destruct (div_fin g d Fg F P) as [_ ->].
  destruct (div_fin g d' Fg F') as [_ ->]; [lra|].
  apply RN_mono, Qdiv_antitone_den; [apply Ng | exact P | exact L].
Qed.

Lemma sub_pinf x e :
  Prim2SF x = S754_infinity false -> is_finite e = true ->
  Prim2SF (x - e) = S754_infinity false.
Proof.
  intros E F. rewrite sub_spec, E. unfold SF64sub. rewrite is_finite_spec in F.
  destruct (Prim2SF e); try discriminate; reflexivity.
Qed.

Lemma sub_l_not_nan x e : NN x -> is_finite e = true -> is_nan (x - e) = false.
Proof.
  intros Nx F. destruct (NN_cases x Nx) as [Fx|Ex].
  - apply sub_F2Q; assumption.
  - apply is_nan_false. rewrite (sub_pinf x e Ex F). discriminate.
Qed.

Lemma sub_l_mono x x' e :
  NN x -> NN x' -> (F2Q x <= F2Q x')%Q -> is_finite e = true ->
  (F2Q (x - e) <= F2Q (x' - e))%Q.
Proof.
  intros Nx Nx' L F.
  destruct (NN_cases x' Nx') as [Fx'|Ex']; [|apply le_pinf, sub_pinf; assumption].
  pose proof (finite_le x x' Nx Fx' L) as Fx.
  destruct (sub_F2Q x e Fx F) as [_ ->]. destruct (sub_F2Q x' e Fx' F) as [_ ->].
  apply RN_mono. lra.
Qed.

Lemma Fle_leb x y : Fle x y -> (x <=? y) = true.
Proof. intros ([Nx _] & [Ny _] & L). apply leb_F2Q; assumption. Qed.

Lemma Fle_refl x : NN x -> Fle x x.
Proof. intros N. split; [exact N|]. split; [exact N|]. lra. Qed.

Lemma Fle_trans x y z : Fle x y -> Fle y z -> Fle x z.
Proof. intros (A & _ & L) (_ & B & L'). split; [exact A|]. split; [exact B|]. lra. Qed.

Lemma Fle_0 x : NN x -> Fle 0 x.
Proof. intros N. split; [exact NN_0|]. split; [exact N|]. rewrite F2Q_0. apply N. Qed.

Lemma sane_drink_spec d :
  sane_drink d = true ->
  is_finite (volumeMl d) = true /\ (0 <= F2Q (volumeMl d))%Q /\
  is_finite (abv d) = true /\ (0 <= F2Q (abv d))%Q.
Proof.
  unfold sane_drink. rewrite !andb_true_iff. intros [[[Fv Pv] Fa] Pa].
  apply NN_leb in Pv, Pa. destruct Pv, Pa. auto.
Qed.

Lemma F2Q_100 : (F2Q 100 == 100)%Q.
Proof. reflexivity. Qed.

Lemma ETHANOL_DENSITY_pos : (0 < F2Q ETHANOL_DENSITY)%Q.
Proof. reflexivity. Qed.

Lemma percent_fraction a :
  is_finite a = true -> (0 <= F2Q a)%Q ->
  is_finite (a / 100) = true /\ (0 <= F2Q (a / 100))%Q /\
  (F2Q (a / 100) == RN (F2Q a / 100))%Q.
Proof.
  intros F P. pose proof F2Q_100 as H.
  destruct (div_fin a 100 F eq_refl) as [N V]; [rewrite H; lra|]. rewrite H in V.
  assert (Q0 : (0 <= F2Q (a / 100))%Q).
  { rewrite V, <- RN_0_eq. apply RN_mono. apply Qdiv_nonneg; lra. }
  split; [|split; [exact Q0 | exact V]].
  apply (finite_le (a / 100) a); [split; assumption | exact F |].
  rewrite V. apply Qle_trans with (RN (F2Q a)); [|rewrite (RN_finite a F); lra].
  apply RN_mono. apply Qle_shift_div_r; lra.
Qed.

Lemma drinkGrams_NN d : sane_drink d = true -> NN (drinkGrams d).
Proof.
  intros S. destruct (sane_drink_spec d S) as (Fv & Pv & Fa & Pa).
  destruct (percent_fraction (abv d) Fa Pa) as (Fq & Pq & _).
  unfold drinkGrams. apply mul_r_NN; [|reflexivity | exact ETHANOL_DENSITY_pos].
  apply mul_NN; assumption.
Qed.

Lemma drinkGrams_mono d d' :
  sane_drink d = true -> sane_drink d' = true ->
  (F2Q (volumeMl d) <= F2Q (volumeMl d'))%Q -> (F2Q (abv d) <= F2Q (abv d'))%Q ->
  (F2Q (drinkGrams d) <= F2Q (drinkGrams d'))%Q.
Proof.
  intros S S' Lv La.
  destruct (sane_drink_spec d S) as (Fv & Pv & Fa & Pa).
  destruct (sane_drink_spec d' S') as (Fv' & Pv' & Fa' & Pa').
  destruct (percent_fraction (abv d) Fa Pa) as (Fq & Pq & Vq).
  destruct (percent_fraction (abv d') Fa' Pa') as (Fq' & Pq' & Vq').
  unfold drinkGrams.
  apply mul_r_mono; [apply mul_NN; assumption | apply mul_NN; assumption | |
                     reflexivity | exact ETHANOL_DENSITY_pos].
  apply mul_mono_fin; try assumption.
  rewrite Vq, Vq'. apply RN_mono, Qdiv_mono_num; [exact La | lra].
Qed.

Lemma fold_NN ds acc :
  forallb sane_drink ds = true -> NN acc -> NN (fold_left addDrinkGrams ds acc).
Proof.
  revert acc. induction ds as [|d ds IH]; intros acc S N; [exact N|].
  cbn [forallb] in S. apply andb_true_iff in S as [Sd S]. cbn [fold_left].
  apply IH; [exact S|]. apply add_NN; [exact N | apply drinkGrams_NN, Sd].
Qed.

Lemma gramsPureAlcohol_NN ds :
  forallb sane_drink ds = true -> NN (gramsPureAlcohol ds).
Proof. intros S. apply fold_NN; [exact S | exact NN_0]. Qed.

Lemma fold_mono_acc ds acc acc' :
  forallb sane_drink ds = true -> Fle acc acc' ->
  Fle (fold_left addDrinkGrams ds acc) (fold_left addDrinkGrams ds acc').
Proof.
  revert acc acc'. induction ds as [|d ds IH]; intros acc acc' S L; [exact L|].
  cbn [forallb] in S. apply andb_true_iff in S as [Sd S]. cbn [fold_left].
  destruct L as (N & N' & L). pose proof (drinkGrams_NN d Sd) as Nd.
  apply IH; [exact S|]. split; [apply add_NN; assumption|].
  split; [apply add_NN; assumption|].
  apply add_mono; try assumption. lra.
Qed.

Lemma fold_filter_le (f : Drink -> bool) ds acc acc' :
  forallb sane_drink ds = true -> Fle acc acc' ->
  Fle (fold_left addDrinkGrams (filter f ds) acc) (fold_left addDrinkGrams ds acc').
Proof.
  revert acc acc'. induction ds as [|d ds IH]; intros acc acc' S L; [exact L|].
  cbn [forallb] in S. apply andb_true_iff in S as [Sd S]. cbn [fold_left filter].
  destruct L as (N & N' & L). pose proof (drinkGrams_NN d Sd) as Nd.
  destruct (f d); cbn [fold_left]; apply IH; try exact S.
  - split; [apply add_NN; assumption|]. split; [apply add_NN; assumption|].
    apply add_mono; try assumption. lra.
  - split; [exact N|]. split; [apply add_NN; assumption|].
    apply Qle_trans with (F2Q acc'); [exact L|]. apply add_ge_l; assumption.
Qed.

Lemma fold_pointwise (f g : Drink -> Drink) ds acc acc' :
  (forall d, In d ds ->
     sane_drink (f d) = true /\ sane_drink (g d) = true /\
     (F2Q (volumeMl (f d)) <= F2Q (volumeMl (g d)))%Q /\
     (F2Q (abv (f d)) <= F2Q (abv (g d)))%Q) ->
  Fle acc acc' ->
  Fle (fold_left addDrinkGrams (map f ds) acc) (fold_left addDrinkGrams (map g ds) acc').
Proof.
  revert acc acc'. induction ds as [|d ds IH]; intros acc acc' H L; [exact L|].
  cbn [fold_left map].
  destruct L as (N & N' & L). destruct (H d (or_introl eq_refl)) as (Sf & Sg & Lv & La).
  apply IH; [intros x Hx; apply H; right; exact Hx |].
  split; [apply add_NN; [exact N | apply drinkGrams_NN, Sf]|].
  split; [apply add_NN; [exact N' | apply drinkGrams_NN, Sg]|].
  apply add_mono; try assumption; try (apply drinkGrams_NN; assumption).
  apply drinkGrams_mono; assumption.
Qed.

Lemma r_lt_1 sex : (F2Q (r sex) < 1)%Q.
Proof. destruct sex; reflexivity. Qed.

Lemma r_is_finite sex : is_finite (r sex) = true.
Proof. destruct sex; reflexivity. Qed.

Lemma guard_false w :
  JS.not w || (w <=? 0) = false -> is_nan w = false /\ (0 < F2Q w)%Q.
Proof.
  intros G. apply orb_false_iff in G as [G1 G2]. unfold JS.not in G1.
  apply orb_false_iff in G1 as [_ N]. split; [exact N|].
  pose proof (leb_false_F2Q w 0 N eq_refl G2) as P. rewrite F2Q_0 in P. exact P.
Qed.

Lemma guard_of_pos w : is_nan w = false -> (0 < F2Q w)%Q -> JS.not w || (w <=? 0) = false.
Proof.
  intros N P. destruct (ltb_0_not_leb w) as [A B]; [|rewrite A, B; reflexivity].
  apply (ltb_F2Q 0 w eq_refl N). rewrite F2Q_0. exact P.
Qed.

Lemma denominator_pos w sex :
  is_finite w = true -> (0 < F2Q w)%Q ->
  is_finite (w * r sex) = true /\ (0 < F2Q (w * r sex))%Q.
Proof.
  intros F P. pose proof (is_finite_not_nan w F) as N.
  pose proof (r_lt_1 sex) as R1. pose proof (r_gt_half sex) as RH.
  destruct (mul_F2Q w (r sex) F (r_is_finite sex)) as [Nd V].
  assert (L : (w <=? 0) = false).
  { destruct (w <=? 0) eqn:E; [|reflexivity]. apply leb_true_F2Q in E.
    rewrite F2Q_0 in E. lra. }
  assert (Pd : (0 < F2Q (w * r sex))%Q).
  { destruct (weight_r_positive w sex L N) as [(m & e & E)|E]; unfold F2Q; rewrite E;
      cbn [SF2Q cond_Qopp].
    - pose proof (Zpos_Qpos m). pose proof (pow2_pos e). nra.
    - apply pow2_pos. }
  split; [|exact Pd].
  apply (finite_le (w * r sex) w); [split; [exact Nd | lra] | exact F |].
  rewrite V. apply Qle_trans with (RN (F2Q w)); [|rewrite (RN_finite w F); lra].
  apply RN_mono. nra.
Qed.

Lemma peakBAC_mono g g' w sex :
  Fle g g' -> is_finite w = true ->
  Fle (peakBAC g (r sex) w) (peakBAC g' (r sex) w).
Proof.
  intros (N & N' & L) F. unfold peakBAC.
  destruct (JS.not w || (w <=? 0)) eqn:G; [apply Fle_refl, NN_0|].
  destruct (guard_false w G) as [_ P]. destruct (denominator_pos w sex F P) as [Fd Pd].
  split; [apply div_NN; assumption|]. split; [apply div_NN; assumption|].
  apply div_mono; assumption.
Qed.

Lemma peakBAC_NN g w sex : NN g -> is_finite w = true -> NN (peakBAC g (r sex) w).
Proof. intros N F. apply (peakBAC_mono g g w sex (Fle_refl g N) F). Qed.

Lemma peakBAC_sex g w :
  NN g -> is_finite w = true -> Fle (peakBAC g (r male) w) (peakBAC g (r female) w).
Proof.
  intros N F. split; [apply peakBAC_NN; assumption|].
  split; [apply peakBAC_NN; assumption|]. unfold peakBAC.
  destruct (JS.not w || (w <=? 0)) eqn:G; [lra|].
  destruct (guard_false w G) as [Nw P].
  destruct (denominator_pos w male F P) as [Fm Pm].
  destruct (denominator_pos w female F P) as [Ff Pf].
  apply div_antitone; try assumption.
  apply mul_monotone; try assumption; try reflexivity.
  apply Qlt_le_weak. reflexivity.
Qed.

Lemma peakBAC_weight g w w' sex :
  NN g -> is_finite w = true -> is_finite w' = true ->
  (0 < F2Q w)%Q -> (F2Q w <= F2Q w')%Q ->
  Fle (peakBAC g (r sex) w') (peakBAC g (r sex) w).
Proof.
  intros N F F' P L. split; [apply peakBAC_NN; assumption|].
  split; [apply peakBAC_NN; assumption|]. unfold peakBAC.
  rewrite (guard_of_pos w (is_finite_not_nan w F) P).
  rewrite (guard_of_pos w' (is_finite_not_nan w' F')) by lra.
  destruct (denominator_pos w sex F P) as [Fd Pd].
  destruct (denominator_pos w' sex F') as [Fd' Pd']; [lra|].
  apply div_antitone; try assumption.
  pose proof (r_gt_half sex).
  apply mul_mono_fin; try assumption; try apply r_is_finite; lra.
Qed.

Lemma Math_max_0_finite h : is_finite h = true -> is_finite (JS.Math_max 0 h) = true.
Proof.
  intros F. rewrite Math_max_0, (is_finite_not_nan h F).
  destruct (0 <? h); [exact F | reflexivity].
Qed.

Lemma Math_max_0_le y b :
  is_nan y = false -> (0 <= b)%Q -> (F2Q y <= b)%Q -> (F2Q (JS.Math_max 0 y) <= b)%Q.
Proof.
  intros N P L. rewrite Math_max_0, N. destruct (0 <? y); [exact L|].
  rewrite F2Q_0. exact P.
Qed.

Lemma elimination_finite h :
  is_finite h = true -> is_finite (BETA * JS.Math_max 0 h) = true.
Proof.
  intros F. pose proof (is_finite_not_nan h F) as N.
  pose proof (Math_max_0_finite h F) as Fm.
  destruct (Math_max_0_nonneg h N) as [_ Pm].
  pose proof BETA_pos as BP. pose proof BETA_lt_1 as B1.
  apply (finite_le _ (JS.Math_max 0 h)); [|exact Fm|].
  - split; [apply elimination_not_nan | apply elimination_nonneg]; exact N.
  - destruct (mul_F2Q BETA _ BETA_finite Fm) as [_ ->].
    apply Qle_trans with (RN (F2Q (JS.Math_max 0 h))); [|rewrite (RN_finite _ Fm); lra].
    apply RN_mono. nra.
Qed.

Lemma elimination_mono h h' :
  is_nan h = false -> is_nan h' = false -> (F2Q h <= F2Q h')%Q ->
  (F2Q (BETA * JS.Math_max 0 h) <= F2Q (BETA * JS.Math_max 0 h'))%Q.
Proof.
  intros N N' L.
  apply mul_monotone; [exact BETA_finite | exact BETA_pos | | |].
  - apply Math_max_0_nonneg, N.
  - apply Math_max_0_nonneg, N'.
  - apply Math_max_0_mono; assumption.
Qed.

Lemma sub_both_mono p p' e e' :
  Fle p p' -> is_finite e = true -> is_finite e' = true -> (F2Q e' <= F2Q e)%Q ->
  (F2Q (p - e) <= F2Q (p' - e'))%Q.
Proof.
  intros (N & N' & L) F F' Le.
  apply Qle_trans with (F2Q (p' - e)); [apply sub_l_mono; assumption|].
  destruct (NN_cases p' N') as [Fp'|Ep']; [|apply le_pinf, sub_pinf; assumption].
  apply sub_antitone; try assumption; apply is_finite_not_nan; assumption.
Qed.

Lemma currentBAC_mono p p' h h' :
  Fle p p' -> is_finite h = true -> is_finite h' = true -> (F2Q h' <= F2Q h)%Q ->
  Fle (currentBAC p h) (currentBAC p' h').
Proof.
  intros L F F' Lh. pose proof (is_finite_not_nan h F) as N.
  pose proof (is_finite_not_nan h' F') as N'.
  pose proof (elimination_finite h F) as Fe. pose proof (elimination_finite h' F') as Fe'.
  destruct L as (Np & Np' & L).
  pose proof (sub_l_not_nan p _ Np Fe) as Nx. pose proof (sub_l_not_nan p' _ Np' Fe') as Nx'.
  unfold currentBAC.
  split; [apply Math_max_0_nonneg, Nx|]. split; [apply Math_max_0_nonneg, Nx'|].
  apply Math_max_0_mono; try assumption.
  apply sub_both_mono; try assumption; [split; [|split]; assumption|].
  apply elimination_mono; assumption.
Qed.

Lemma currentBAC_le_peak p h :
  NN p -> is_finite h = true -> Fle (currentBAC p h) p.
Proof.
  intros Np F. pose proof (is_finite_not_nan h F) as N.
  pose proof (elimination_finite h F) as Fe.
  pose proof (elimination_nonneg h N) as Pe.
  pose proof (sub_l_not_nan p _ Np Fe) as Nx.
  unfold currentBAC. split; [apply Math_max_0_nonneg, Nx|]. split; [exact Np|].
  apply Math_max_0_le; [exact Nx | apply Np |].
  destruct (NN_cases p Np) as [Fp|Ep]; [|apply le_pinf, Ep].
  destruct (sub_F2Q p _ Fp Fe) as [_ ->].
  apply Qle_trans with (RN (F2Q p)); [|rewrite (RN_finite p Fp); lra].
  apply RN_mono. lra.
Qed.

Lemma above_limit c : NN c -> (c <=? LEGAL_LIMIT) = false -> (LEGAL_LIMIT <? c) = true.
Proof.
  intros [N _] H. destruct (leb_false_cases c H) as [E|E]; [congruence | exact E].
Qed.

Lemma sub_limit_Fle c :
  NN c -> (LEGAL_LIMIT <? c) = true -> Fle (c - LEGAL_LIMIT) c.
Proof.
  intros Nc H. pose proof (sub_l_not_nan c LEGAL_LIMIT Nc LEGAL_LIMIT_finite) as Nx.
  apply ltb_true_F2Q in H. pose proof F2Q_half as HF.
  change (F2Q LEGAL_LIMIT) with (F2Q 0.5) in H.
  destruct (NN_cases c Nc) as [Fc|Ec].
  - destruct (sub_F2Q c LEGAL_LIMIT Fc LEGAL_LIMIT_finite) as [_ V].
    change (F2Q LEGAL_LIMIT) with (F2Q 0.5) in V.
    split; [split; [exact Nx|]|split; [exact Nc|]]; rewrite V.
    + rewrite <- RN_0_eq. apply RN_mono. lra.
    + apply Qle_trans with (RN (F2Q c)); [|rewrite (RN_finite c Fc); lra].
      apply RN_mono. lra.
  - pose proof (sub_pinf c LEGAL_LIMIT Ec LEGAL_LIMIT_finite) as Ex.
    split; [apply pinf_NN, Ex|]. split; [exact Nc | apply le_pinf, Ec].
Qed.

Lemma hoursToZero_mono c c' : Fle c c' -> Fle (hoursToZero c) (hoursToZero c').
Proof.
  intros (N & N' & L). unfold hoursToZero.
  split; [apply div_NN; [exact N | exact BETA_finite | exact BETA_pos]|].
  split; [apply div_NN; [exact N' | exact BETA_finite | exact BETA_pos]|].
  apply div_mono; try assumption; [exact BETA_finite | exact BETA_pos].
Qed.

Lemma hoursToLegal_NN c : NN c -> NN (hoursToLegal c).
Proof.
  intros Nc. unfold hoursToLegal. destruct (c <=? LEGAL_LIMIT) eqn:E; [exact NN_0|].
  destruct (above_limit_positive c (above_limit c Nc E)) as [N P].
  split; [exact N | lra].
Qed.

Lemma hoursToLegal_mono c c' : Fle c c' -> Fle (hoursToLegal c) (hoursToLegal c').
Proof.
  intros (N & N' & L).
  split; [apply hoursToLegal_NN, N|]. split; [apply hoursToLegal_NN, N'|].
  unfold hoursToLegal.
  destruct (c' <=? LEGAL_LIMIT) eqn:E'.
  - assert (E : (c <=? LEGAL_LIMIT) = true).
    { apply leb_F2Q; [apply N | reflexivity|]. apply leb_true_F2Q in E'. lra. }
    rewrite E. lra.
  - pose proof (above_limit c' N' E') as A'.
    destruct (c <=? LEGAL_LIMIT) eqn:E.
    + destruct (above_limit_positive c' A') as [_ P]. rewrite F2Q_0. lra.
    + pose proof (above_limit c N E) as A.
      destruct (sub_limit_Fle c N A) as (Nx & _ & _).
      destruct (sub_limit_Fle c' N' A') as (Nx' & _ & _).
      apply div_mono; try assumption; [|exact BETA_finite | exact BETA_pos].
      apply sub_l_mono; try assumption. reflexivity.
Qed.

Lemma hoursToLegal_le_hoursToZero c : NN c -> Fle (hoursToLegal c) (hoursToZero c).
Proof.
  intros N. split; [apply hoursToLegal_NN, N|].
  destruct (hoursToZero_mono c c (Fle_refl c N)) as (NZ & _ & _). split; [exact NZ|].
  unfold hoursToLegal. destruct (c <=? LEGAL_LIMIT) eqn:E.
  - rewrite F2Q_0. apply NZ.
  - pose proof (above_limit c N E) as A. unfold hoursToZero.
    destruct (sub_limit_Fle c N A) as (Nx & _ & Lx).
    apply div_mono; try assumption; [exact BETA_finite | exact BETA_pos].
Qed.

Lemma outputs_le_intro g g' p p' c c' :
  Fle g g' -> Fle p p' -> Fle c c' ->
  outputs_le (mkOutputs g p c (hoursToLegal c) (hoursToZero c))
             (mkOutputs g' p' c' (hoursToLegal c') (hoursToZero c')) = true.
Proof.
  intros G P C. unfold outputs_le.
  cbn [out_grams out_peakBAC out_currentBAC out_hoursToLegal out_hoursToZero].
  rewrite (Fle_leb _ _ G), (Fle_leb _ _ P), (Fle_leb _ _ C).
  rewrite (Fle_leb _ _ (hoursToLegal_mono c c' C)).
  rewrite (Fle_leb _ _ (hoursToZero_mono c c' C)). reflexivity.
Qed.

Lemma render_grams_mono sex w h ds ds' :
  Fle (gramsPureAlcohol ds) (gramsPureAlcohol ds') ->
  is_finite w = true -> is_finite h = true ->
  outputs_le (render (mkState sex w h ds)) (render (mkState sex w h ds')) = true.
Proof.
  intros G Fw Fh. unfold render. cbn [st_sex st_weight st_hoursSinceStart st_drinks].
  pose proof (peakBAC_mono _ _ w sex G Fw) as P.
  apply outputs_le_intro; [exact G | exact P |].
  apply currentBAC_mono; try assumption. lra.
Qed.

Lemma sane_state_spec s :
  sane_state s = true ->
  forallb sane_drink (st_drinks s) = true /\ is_finite (st_weight s) = true /\
  is_finite (st_hoursSinceStart s) = true.
Proof. unfold sane_state. rewrite !andb_true_iff. tauto. Qed.

Lemma Math_max_0_pos_id y : is_nan y = false -> (0 < F2Q y)%Q -> JS.Math_max 0 y = y.
Proof.
  intros N P. rewrite Math_max_0, N.
  assert (H : (0 <? y) = true) by (apply (ltb_F2Q 0 y eq_refl N); rewrite F2Q_0; exact P).
  rewrite H. reflexivity.
Qed.

Lemma Math_max_0_zero_or_pos y :
  is_nan y = false ->
  JS.Math_max 0 y = 0 \/ (0 < F2Q (JS.Math_max 0 y))%Q.
Proof.
  intros N. rewrite Math_max_0, N. destruct (0 <? y) eqn:E; [right | left; reflexivity].
  apply ltb_true_F2Q in E. rewrite F2Q_0 in E. exact E.
Qed.

Lemma clamp_hoursToLegal c : NN c -> JS.Math_max 0 (hoursToLegal c) = hoursToLegal c.
Proof.
  intros N. unfold hoursToLegal. destruct (c <=? LEGAL_LIMIT) eqn:E; [reflexivity|].
  destruct (above_limit_positive c (above_limit c N E)) as [Nx P].
  apply Math_max_0_pos_id; assumption.
Qed.

Lemma clamp_hoursToZero p h :
  NN p -> is_finite h = true ->
  JS.Math_max 0 (hoursToZero (currentBAC p h)) = hoursToZero (currentBAC p h).
Proof.
  intros Np F. destruct (currentBAC_le_peak p h Np F) as ([Nc _] & _ & _).
  pose proof (elimination_finite h F) as Fe.
  pose proof (sub_l_not_nan p _ Np Fe) as Nx.
  unfold currentBAC in *. destruct (Math_max_0_zero_or_pos _ Nx) as [Z|P].
  - rewrite Z. reflexivity.
  - unfold hoursToZero. destruct (div_BETA_pos _ Nc P) as [Nq Pq].
    apply Math_max_0_pos_id; assumption.
Qed.

Lemma render_values s :
  sane_state s = true ->
  let o := render s in
  NN (out_grams o) /\ NN (out_peakBAC o) /\ Fle (out_currentBAC o) (out_peakBAC o) /\
  Fle (out_hoursToLegal o) (out_hoursToZero o).
Proof.
  intros S. destruct (sane_state_spec s S) as (Sd & Fw & Fh). cbn zeta.
  unfold render. cbn [out_grams out_peakBAC out_currentBAC out_hoursToLegal out_hoursToZero].
  pose proof (gramsPureAlcohol_NN _ Sd) as Ng.
  pose proof (peakBAC_NN _ (st_weight s) (st_sex s) Ng Fw) as Np.
  pose proof (currentBAC_le_peak _ _ Np Fh) as Lc.
  split; [exact Ng|]. split; [exact Np|]. split; [exact Lc|].
  apply hoursToLegal_le_hoursToZero, Lc.
Qed.

(** X7. For every state whose drinks have finite, non-negative volumes
    and strengths and whose weight and elapsed time are finite, none of the
    five values is negative or [NaN]; the two waiting times are therefore
    printed as they are, the [Math.max(0, ...)] around them changing
    nothing. *)
Theorem X7_outputs_never_negative (s : State) :
  sane_state s = true ->
  let o := render s in
  (0 <=? out_grams o) = true /\ (0 <=? out_peakBAC o) = true /\
  (0 <=? out_currentBAC o) = true /\ (0 <=? out_hoursToLegal o) = true /\
  (0 <=? out_hoursToZero o) = true /\
  legalCard o = fmtHM (out_hoursToLegal o) /\
  zeroCard o = fmtHM (out_hoursToZero o).
Proof.
  intros S. destruct (render_values s S) as (Ng & Np & (Nc & _ & _) & (Nl & Nz & _)).
  destruct (sane_state_spec s S) as (_ & _ & Fh). cbn zeta.
  rewrite !NN_leb. repeat (split; [assumption|]).
  unfold legalCard, zeroCard, render in *.
  cbn [out_grams out_peakBAC out_currentBAC out_hoursToLegal out_hoursToZero] in *.
  rewrite clamp_hoursToLegal by exact Nc.
  rewrite clamp_hoursToZero by assumption. split; reflexivity.
Qed.

Lemma X7_witness :
  let s := mkState female 60 1 [beer25; wine12; beer33] in
  sane_state s = true /\
  (0 <=? out_hoursToLegal (render s)) = true /\
  zeroCard (render s) = fmtHM (out_hoursToZero (render s)).
Proof.
  cbn zeta. split; [reflexivity|].
  destruct (X7_outputs_never_negative (mkState female 60 1 [beer25; wine12; beer33]) eq_refl)
    as (_ & _ & _ & A & _ & _ & B).
  split; [exact A | exact B].
Defined.

(** X8. In such a state the values are ordered as one expects: the
    current level never exceeds the peak, and the time to the legal
    threshold never exceeds the time to zero. *)
Theorem X8_outputs_are_ordered (s : State) :
  sane_state s = true ->
  (out_currentBAC (render s) <=? out_peakBAC (render s)) = true /\
  (out_hoursToLegal (render s) <=? out_hoursToZero (render s)) = true.
Proof.
  intros S. destruct (render_values s S) as (_ & _ & A & B).
  split; apply Fle_leb; assumption.
Qed.

Lemma X8_witness :
  let s := mkState male 75 0.5 [beer50; beer50; wine12] in
  sane_state s = true /\
  (out_currentBAC (render s) <=? out_peakBAC (render s)) = true /\
  (out_hoursToLegal (render s) <=? out_hoursToZero (render s)) = true.
Proof.
  cbn zeta. split; [reflexivity|].
  apply (X8_outputs_are_ordered (mkState male 75 0.5 [beer50; beer50; wine12])).
  reflexivity.
Defined.

Lemma forallb_app_l {A} (f : A -> bool) l1 l2 :
  forallb f (l1 ++ l2) = true -> forallb f l1 = true /\ forallb f l2 = true.
Proof. rewrite forallb_app, andb_true_iff. tauto. Qed.

(** X9. More drinks never give lower figures, fewer never higher: in a
    sane state, removing the drinks of an identifier raises none of the
    five values, and adding a drink (with a finite, non-negative volume and
    strength) lowers none of them. *)
Theorem X9_drinks_monotone (i : string) (preset : option DrinkPatch) (s : State) :
  (sane_state s = true ->
   outputs_le (render (removeDrink i s)) (render s) = true) /\
  (sane_state (addDrink i preset s) = true ->
   outputs_le (render s) (render (addDrink i preset s)) = true).
Proof.
  split.
  - intros S. destruct (sane_state_spec s S) as (Sd & Fw & Fh). destruct s as [sx w h ds].
    cbn [st_drinks st_weight st_hoursSinceStart] in *.
    unfold removeDrink, setDrinks. cbn [st_sex st_weight st_hoursSinceStart st_drinks].
    apply render_grams_mono; try assumption.
    apply fold_filter_le; [exact Sd | apply Fle_refl, NN_0].
  - intros S. destruct (sane_state_spec _ S) as (Sd & Fw & Fh). destruct s as [sx w h ds].
    unfold addDrink, setDrinks in *. cbn [st_sex st_weight st_hoursSinceStart st_drinks] in *.
    apply render_grams_mono; try assumption.
    destruct (forallb_app_l _ _ _ Sd) as [S1 S2].
    pose proof (gramsPureAlcohol_NN ds S1) as Ng.
    rewrite gramsPureAlcohol_snoc. cbn [forallb] in S2. apply andb_true_iff in S2 as [S2 _].
    pose proof (drinkGrams_NN _ S2) as Nd.
    split; [exact Ng|]. split; [apply add_NN; assumption|].
    apply add_ge_l; assumption.
Qed.

Lemma X9_witness :
  let s := mkState male 75 1 [beer25; wine12] in
  let shot := Some (mkPatch None (Some "Shot 4 cL (40%)"%string) (Some 40) (Some 40)) in
  sane_state s = true /\ sane_state (addDrink "x7" shot s) = true /\
  outputs_le (render (removeDrink "w12" s)) (render s) = true /\
  outputs_le (render s) (render (addDrink "x7" shot s)) = true.
Proof.
  cbn zeta. split; [reflexivity|]. split; [reflexivity|].
  destruct (X9_drinks_monotone "w12" None (mkState male 75 1 [beer25; wine12])) as [A _].
  destruct (X9_drinks_monotone "x7"
              (Some (mkPatch None (Some "Shot 4 cL (40%)"%string) (Some 40) (Some 40)))
              (mkState male 75 1 [beer25; wine12])) as [_ B].
  split; [apply A | apply B]; reflexivity.
Defined.

Lemma leb_Q x y : (x <=? y) = true -> (F2Q x <= F2Q y)%Q.
Proof. apply leb_true_F2Q. Qed.

Lemma updateDrink_grams_mono (f g : Drink -> Drink) ds :
  forallb sane_drink (map f ds) = true -> forallb sane_drink (map g ds) = true ->
  (forall d, In d ds ->
     (volumeMl (f d) <=? volumeMl (g d)) = true /\ (abv (f d) <=? abv (g d)) = true) ->
  Fle (gramsPureAlcohol (map f ds)) (gramsPureAlcohol (map g ds)).
Proof.
  intros Sf Sg H. apply fold_pointwise; [|apply Fle_refl, NN_0].
  intros d Hd. rewrite forallb_forall in Sf, Sg.
  destruct (H d Hd) as [Lv La].
  split; [apply Sf, in_map, Hd|]. split; [apply Sg, in_map, Hd|].
  split; apply leb_Q; assumption.
Qed.

Lemma leb_refl_finite x : is_finite x = true -> (x <=? x) = true.
Proof.
  intros F. pose proof (is_finite_not_nan x F). apply leb_F2Q; try assumption. lra.
Qed.

Lemma sane_drink_finite d :
  sane_drink d = true -> is_finite (volumeMl d) = true /\ is_finite (abv d) = true.
Proof. intros S. destruct (sane_drink_spec d S) as (A & _ & B & _). auto. Qed.

(** X10. Editing a drink moves the figures the way the edit goes: in a
    sane state that stays sane, a patch that lowers neither the volume
    nor the strength of the drinks it applies to lowers none of the five
    values, and one that raises neither raises none of them. *)
Theorem X10_updateDrink_monotone (i : string) (p : DrinkPatch) (s : State) :
  sane_state s = true -> sane_state (updateDrink i p s) = true ->
  ((forall d, In d (st_drinks s) -> id d = i ->
      (volumeMl d <=? volumeMl (spread d p)) = true /\ (abv d <=? abv (spread d p)) = true) ->
   outputs_le (render s) (render (updateDrink i p s)) = true) /\
  ((forall d, In d (st_drinks s) -> id d = i ->
      (volumeMl (spread d p) <=? volumeMl d) = true /\ (abv (spread d p) <=? abv d) = true) ->
   outputs_le (render (updateDrink i p s)) (render s) = true).
Proof.
  intros S S'. destruct (sane_state_spec s S) as (Sd & Fw & Fh).
  destruct (sane_state_spec _ S') as (Sd' & _ & _). destruct s as [sx w h ds].
  unfold updateDrink, setDrinks in *. cbn [st_sex st_weight st_hoursSinceStart st_drinks] in *.
  rewrite <- (map_id ds) in Sd.
  assert (R : forall d, In d ds ->
                (volumeMl d <=? volumeMl d) = true /\ (abv d <=? abv d) = true).
  { intros d Hd. rewrite forallb_forall in Sd.
    destruct (sane_drink_finite d) as [A B]; [apply Sd; rewrite map_id; exact Hd|].
    split; apply leb_refl_finite; assumption. }
  split; intros H; apply render_grams_mono; try assumption.
  - rewrite <- (map_id ds) at 1. apply updateDrink_grams_mono; try assumption.
    intros d Hd. destruct (String.eqb (id d) i) eqn:E; [|apply R, Hd].
    apply H; [exact Hd | apply String.eqb_eq, E].
  - rewrite <- (map_id ds) at 2. apply updateDrink_grams_mono; try assumption.
    intros d Hd. destruct (String.eqb (id d) i) eqn:E; [|apply R, Hd].
    apply H; [exact Hd | apply String.eqb_eq, E].
Qed.

Lemma X10_witness :
  let s := mkState male 75 1 [beer25; wine12] in
  let p := mkPatch None None (Some 150) None in
  sane_state s = true /\ sane_state (updateDrink "w12" p s) = true /\
  outputs_le (render s) (render (updateDrink "w12" p s)) = true.
Proof.
  cbn zeta. split; [reflexivity|]. split; [reflexivity|].
  apply (X10_updateDrink_monotone "w12" (mkPatch None None (Some 150) None)
           (mkState male 75 1 [beer25; wine12]) eq_refl eq_refl).
  intros d [<-|[<-|[]]]; [discriminate|]. intros _. split; reflexivity.
Defined.

Lemma render_peak_mono sex sex' w w' h ds :
  forallb sane_drink ds = true -> is_finite h = true ->
  Fle (peakBAC (gramsPureAlcohol ds) (r sex) w) (peakBAC (gramsPureAlcohol ds) (r sex') w') ->
  outputs_le (render (mkState sex w h ds)) (render (mkState sex' w' h ds)) = true.
Proof.
  intros Sd Fh P. unfold render. cbn [st_sex st_weight st_hoursSinceStart st_drinks].
  apply outputs_le_intro; [apply Fle_refl, gramsPureAlcohol_NN, Sd | exact P |].
  apply currentBAC_mono; try assumption. lra.
Qed.

(** X11. The peak depends on the person as Widmark's formula says: in a
    sane state none of the five values is lower for a woman than for a
    man, and none is higher for a heavier person than for a lighter one
    (both weights positive). *)
Theorem X11_sex_and_weight_monotone (w w' : float) (s : State) :
  sane_state s = true ->
  outputs_le (render (setSex male s)) (render (setSex female s)) = true /\
  (is_finite w = true -> is_finite w' = true -> (0 <? w) = true -> (w <=? w') = true ->
   outputs_le (render (setWeight w' s)) (render (setWeight w s)) = true).
Proof.
  intros S. destruct (sane_state_spec s S) as (Sd & Fw & Fh). destruct s as [sx w0 h ds].
  unfold setSex, setWeight. cbn [st_sex st_weight st_hoursSinceStart st_drinks] in *.
  pose proof (gramsPureAlcohol_NN ds Sd) as Ng. split.
  - apply render_peak_mono; try assumption. apply peakBAC_sex; assumption.
  - intros F F' P L. apply render_peak_mono; try assumption.
    apply ltb_true_F2Q in P. rewrite F2Q_0 in P.
    apply peakBAC_weight; try assumption. apply leb_Q, L.
Qed.

Lemma X11_witness :
  let s := mkState male 75 1 [beer50; wine12] in
  sane_state s = true /\ is_finite 60 = true /\ is_finite 90 = true /\
  (0 <? 60) = true /\ (60 <=? 90) = true /\
  outputs_le (render (setWeight 90 s)) (render (setWeight 60 s)) = true.
Proof.
  cbn zeta. repeat (split; [reflexivity|]).
  apply (proj2 (X11_sex_and_weight_monotone 60 90 (mkState male 75 1 [beer50; wine12])
                  eq_refl)); reflexivity.
Defined.

(** X12. Time only helps: in a sane state, a later elapsed time raises
    none of the five values; the grams and the peak stay as they are and
    the current level and both waiting times do not increase. *)
Theorem X12_later_never_higher (h h' : float) (s : State) :
  sane_state s = true -> is_finite h = true -> is_finite h' = true ->
  (h <=? h') = true ->
  outputs_le (render (setHoursSinceStart h' s)) (render (setHoursSinceStart h s)) = true /\
  out_grams (render (setHoursSinceStart h' s)) = out_grams (render (setHoursSinceStart h s)) /\
  out_peakBAC (render (setHoursSinceStart h' s))
    = out_peakBAC (render (setHoursSinceStart h s)).
Proof.
  intros S F F' L. destruct (sane_state_spec s S) as (Sd & Fw & _).
  destruct s as [sx w h0 ds]. unfold setHoursSinceStart, render.
  cbn [st_sex st_weight st_hoursSinceStart st_drinks out_grams out_peakBAC] in *.
  split; [|split; reflexivity].
  pose proof (gramsPureAlcohol_NN ds Sd) as Ng.
  pose proof (peakBAC_NN _ w sx Ng Fw) as Np.
  apply outputs_le_intro; [apply Fle_refl, Ng | apply Fle_refl, Np |].
  apply currentBAC_mono; try assumption; [apply Fle_refl, Np | apply leb_Q, L].
Qed.

Lemma X12_witness :
  let s := mkState male 75 0 [beer50; beer50; wine12] in
  sane_state s = true /\ is_finite 1 = true /\ is_finite 2.5 = true /\ (1 <=? 2.5) = true /\
  outputs_le (render (setHoursSinceStart 2.5 s)) (render (setHoursSinceStart 1 s)) = true.
Proof.
  cbn zeta. repeat (split; [reflexivity|]).
  apply (X12_later_never_higher 1 2.5 (mkState male 75 0 [beer50; beer50; wine12]));
    reflexivity.
Defined.

Lemma bacClass_red c : bacClass c = "text-red-600"%string <-> (0.5 <=? c) = true.
Proof.
  unfold bacClass. change LEGAL_LIMIT with 0.5.
  destruct (0.5 <=? c); split; intros H; try reflexivity; discriminate.
Qed.

Lemma hoursToLegal_zero_iff c : hoursToLegal c = 0 <-> (c <=? 0.5) = true.
Proof.
  unfold hoursToLegal. change LEGAL_LIMIT with 0.5. split.
  - destruct (c <=? 0.5) eqn:E; [reflexivity|]. intros H. exfalso.
    destruct (leb_false_cases c E) as [N|A].
    + pose proof (nan_sub_div c N) as R. change LEGAL_LIMIT with 0.5 in R.
      rewrite H in R. discriminate.
    + destruct (above_limit_positive c A) as [_ P]. change LEGAL_LIMIT with 0.5 in P.
      rewrite H, F2Q_0 in P. lra.
  - intros ->. reflexivity.
Qed.

(** X13. The colour of the current level and the wait agree except at
    the threshold itself: whenever a wait is due the level is shown in
    red, a level shown in green has no wait unless it is [NaN], and the
    level is red with no wait exactly when it equals 0.5. *)
Theorem X13_colour_and_wait (c : float) :
  ((0 <? hoursToLegal c) = true -> bacClass c = "text-red-600"%string) /\
  (bacClass c = "text-emerald-700"%string -> is_nan c = false -> hoursToLegal c = 0) /\
  (bacClass c = "text-red-600"%string /\ hoursToLegal c = 0 <-> (c =? 0.5) = true).
Proof.
  split; [|split].
  - intros H. apply bacClass_red.
    destruct (c <=? 0.5) eqn:E.
    + apply hoursToLegal_zero_iff in E. rewrite E in H. discriminate.
    + destruct (leb_false_cases c E) as [N|A].
      * exfalso. unfold hoursToLegal in H. change LEGAL_LIMIT with 0.5 in *. rewrite E in H.
        destruct (ltb_not_nan _ _ H) as [_ N']. apply is_nan_false in N'.
        apply N'. apply (nan_sub_div c N).
      * destruct (ltb_not_nan _ _ A) as [_ N]. apply leb_F2Q; [reflexivity | exact N|].
        apply ltb_true_F2Q in A. change LEGAL_LIMIT with 0.5 in A. lra.
  - intros G N. apply hoursToLegal_zero_iff.
    destruct (0.5 <=? c) eqn:E.
    + apply bacClass_red in E. rewrite E in G. discriminate.
    + apply leb_F2Q; [exact N | reflexivity|].
      pose proof (leb_false_F2Q 0.5 c eq_refl N E). lra.
  - rewrite bacClass_red, hoursToLegal_zero_iff. split.
    + intros [A B]. destruct (leb_not_nan _ _ A) as [_ N].
      apply (eqb_F2Q c 0.5 N eq_refl). apply leb_true_F2Q in A, B. lra.
    + intros E. assert (N : is_nan c = false).
      { destruct (is_nan c) eqn:N; [|reflexivity]. apply is_nan_true in N.
        rewrite FloatAxioms.eqb_spec, N in E. discriminate. }
      apply (eqb_F2Q c 0.5 N eq_refl) in E.
      split; apply leb_F2Q; try assumption; try reflexivity; lra.
Qed.

Lemma X13_witness :
  (0 <? hoursToLegal 0.8) = true /\ bacClass 0.8 = "text-red-600"%string /\
  bacClass 0.3 = "text-emerald-700"%string /\ is_nan 0.3 = false /\ hoursToLegal 0.3 = 0 /\
  (0.5 =? 0.5) = true /\ bacClass 0.5 = "text-red-600"%string /\ hoursToLegal 0.5 = 0.
Proof.
  split; [reflexivity|]. split; [apply (proj1 (X13_colour_and_wait 0.8)); reflexivity|].
  split; [reflexivity|]. split; [reflexivity|].
  split; [apply (proj1 (proj2 (X13_colour_and_wait 0.3))); reflexivity|].
  split; [reflexivity|].
  apply (proj2 (proj2 (proj2 (X13_colour_and_wait 0.5)))). reflexivity.
Defined.

Lemma F2Q_10 : (F2Q 10 == 10)%Q.
Proof. reflexivity. Qed.

Lemma times_ten_back c :
  is_finite c = true -> is_finite (c * 10) = true ->
  (F2Q (c * 10) == F2Q c * 10)%Q -> (c * 10 / 10 =? c) = true.
Proof.
  intros F F10 E. pose proof F2Q_10 as T.
  destruct (div_fin (c * 10) 10 F10 eq_refl) as [N V]; [rewrite T; lra|].
  apply eqb_F2Q; [exact N | apply is_finite_not_nan, F|].
  rewrite V, E, T. rewrite <- (RN_finite c F) at 2. apply RN_Proper. field.
Qed.

Lemma whole_times_ten k :
  (Z.abs k <= 2 ^ 49)%Z ->
  is_finite (JSfmt.of_Z k) = true /\ is_finite (JSfmt.of_Z k * 10) = true /\
  (F2Q (JSfmt.of_Z k * 10) == F2Q (JSfmt.of_Z k) * 10)%Q.
Proof.
  intros B. destruct (of_Z_is_int k) as [F V]; [lia|].
  destruct (mul_F2Q (JSfmt.of_Z k) 10 F eq_refl) as [N M].
  pose proof F2Q_10 as T. rewrite V, T in M.
  assert (X : (RN (inject_Z k * 10) == inject_Z k * 10)%Q).
  { change 10%Q with (inject_Z 10). rewrite <- inject_Z_mult. apply RN_exact_int. lia. }
  rewrite X in M. split; [exact F|]. split; [|rewrite M, V; reflexivity].
  apply (is_finite_F2Q _ N). rewrite M. change 10%Q with (inject_Z 10).
  rewrite <- inject_Z_mult.
  apply Qlt_trans with (inject_Z (2 ^ 53)).
  - apply Qabs_inject_Z_lt. lia.
  - change (inject_Z (2 ^ 53)) with (pow2 53). exact pow2_53_lt_1024.
Qed.

(** X14. The volume field shows centilitres and stores millilitres.
    When the number entered times ten is computed without rounding, the
    field shows the number entered again; this is the case of every whole
    number up to 2^49.  It is not the case of every number: after 0.11
    is entered the field holds another number. *)
Theorem X14_volume_field_round_trip (i : string) (s : State) :
  (forall c d,
     is_finite c = true -> is_finite (c * 10) = true ->
     (F2Q (c * 10) == F2Q c * 10)%Q ->
     In d (st_drinks (onVolumeChange i c s)) -> id d = i ->
     (volumeField d =? c) = true) /\
  (forall k d,
     (Z.abs k <= 2 ^ 49)%Z ->
     In d (st_drinks (onVolumeChange i (JSfmt.of_Z k) s)) -> id d = i ->
     (volumeField d =? JSfmt.of_Z k) = true) /\
  (forall d,
     In d (st_drinks (onVolumeChange i 0.11 s)) -> id d = i ->
     (volumeField d =? 0.11) = false).
Proof.
  assert (U : forall c d, In d (st_drinks (onVolumeChange i c s)) -> id d = i ->
                          volumeField d = c * 10 / 10).
  { intros c d H E. unfold onVolumeChange, updateDrink, setDrinks in H.
    cbn [st_drinks] in H. apply in_map_iff in H as (d0 & <- & _).
    destruct (String.eqb (id d0) i) eqn:E0; [reflexivity|].
    apply String.eqb_neq in E0. contradiction. }
  split; [|split].
  - intros c d F F10 X H E. rewrite (U c d H E). apply times_ten_back; assumption.
  - intros k d B H E. rewrite (U _ d H E).
    destruct (whole_times_ten k B) as (F & F10 & X). apply times_ten_back; assumption.
  - intros d H E. rewrite (U _ d H E). reflexivity.
Qed.

Lemma X14_witness :
  let s := mkState male 75 0 [beer25; wine12] in
  let d := mkDrink "w12" "Vin 12 cL (12%)" (JSfmt.of_Z 15 * 10) 12 in
  (Z.abs 15 <= 2 ^ 49)%Z /\
  In d (st_drinks (onVolumeChange "w12" (JSfmt.of_Z 15) s)) /\ id d = "w12"%string /\
  (volumeField d =? JSfmt.of_Z 15) = true.
Proof.
  cbn zeta.
  assert (B : (Z.abs 15 <= 2 ^ 49)%Z) by (vm_compute; discriminate).
  assert (H : In (mkDrink "w12" "Vin 12 cL (12%)" (JSfmt.of_Z 15 * 10) 12)
                 (st_drinks (onVolumeChange "w12" (JSfmt.of_Z 15)
                               (mkState male 75 0 [beer25; wine12])))).
  { right. left. reflexivity. }
  split; [exact B|]. split; [exact H|]. split; [reflexivity|].
  apply (proj1 (proj2 (X14_volume_field_round_trip "w12" _)) 15%Z _ B H eq_refl).
Defined.

Lemma nan_unique x : is_nan x = true -> x = nan.
Proof. intros N. apply is_nan_true in N. apply Prim2SF_inj. rewrite N. reflexivity. Qed.

Lemma add_nan_l y : nan + y = nan.
Proof. apply Prim2SF_inj. rewrite add_spec. reflexivity. Qed.

Lemma add_nan_r x : x + nan = nan.
Proof.
  apply Prim2SF_inj. rewrite add_spec. change (Prim2SF nan) with S754_nan.
  unfold SF64add. destruct (Prim2SF x); reflexivity.
Qed.

Lemma sub_nan_r x : x - nan = nan.
Proof.
  apply Prim2SF_inj. rewrite sub_spec. change (Prim2SF nan) with S754_nan.
  unfold SF64sub. destruct (Prim2SF x); reflexivity.
Qed.

Lemma mul_nan_l y : nan * y = nan.
Proof. apply Prim2SF_inj. rewrite mul_spec. reflexivity. Qed.

Lemma mul_nan_r x : x * nan = nan.
Proof.
  apply Prim2SF_inj. rewrite mul_spec. change (Prim2SF nan) with S754_nan.
  unfold SF64mul. destruct (Prim2SF x); reflexivity.
Qed.

Lemma div_nan_l y : nan / y = nan.
Proof. apply Prim2SF_inj. rewrite div_spec. reflexivity. Qed.

Lemma drinkGrams_nan d :
  is_nan (volumeMl d) = true \/ is_nan (abv d) = true -> drinkGrams d = nan.
Proof.
  unfold drinkGrams. intros [N|N]; rewrite (nan_unique _ N).
  - rewrite mul_nan_l. apply mul_nan_l.
  - rewrite div_nan_l, mul_nan_r. apply mul_nan_l.
Qed.

Lemma fold_nan ds : fold_left addDrinkGrams ds nan = nan.
Proof.
  induction ds as [|d ds IH]; [reflexivity|]. cbn [fold_left].
  unfold addDrinkGrams at 2. rewrite add_nan_l. exact IH.
Qed.

Lemma gramsPureAlcohol_nan ds d :
  In d ds -> is_nan (volumeMl d) = true \/ is_nan (abv d) = true ->
  gramsPureAlcohol ds = nan.
Proof.
  intros H N. apply in_split in H as (l1 & l2 & ->).
  rewrite gramsPureAlcohol_app. cbn [fold_left]. unfold addDrinkGrams at 2.
  change (volumeMl d * (abv d / 100) * ETHANOL_DENSITY) with (drinkGrams d).
  rewrite (drinkGrams_nan d N), add_nan_r. apply fold_nan.
Qed.

Lemma currentBAC_nan_hours p : currentBAC p nan = nan.
Proof.
  unfold currentBAC. change (BETA * JS.Math_max 0 nan) with nan.
  rewrite sub_nan_r. reflexivity.
Qed.

(** X15. [NaN] is not filtered anywhere but in the weight: if the
    elapsed time is [NaN], the current level and both waiting times are
    [NaN] and the three durations of the page read "NaNh NaNm"; if a
    drink has a [NaN] volume or strength, the grams are [NaN], and so is
    the peak for every positive weight. *)
Theorem X15_NaN_propagates (s : State) :
  (is_nan (st_hoursSinceStart s) = true ->
   let o := render s in
   out_currentBAC o = nan /\ out_hoursToLegal o = nan /\ out_hoursToZero o = nan /\
   elapsedText s = Some "NaNh NaNm"%string /\
   legalCard o = Some "NaNh NaNm"%string /\
   zeroCard o = Some "NaNh NaNm"%string) /\
  (forall d,
     In d (st_drinks s) -> is_nan (volumeMl d) = true \/ is_nan (abv d) = true ->
     out_grams (render s) = nan /\
     ((0 <? st_weight s) = true -> out_peakBAC (render s) = nan)).
Proof.
  split.
  - intros N. cbn zeta. unfold legalCard, zeroCard, elapsedText, render.
    cbn [out_currentBAC out_hoursToLegal out_hoursToZero].
    rewrite (nan_unique _ N), currentBAC_nan_hours. repeat split; reflexivity.
  - intros d H N. unfold render. cbn [out_grams out_peakBAC].
    rewrite (gramsPureAlcohol_nan _ d H N). split; [reflexivity|].
    intros W. unfold peakBAC. destruct (ltb_0_not_leb _ W) as [A B].
    rewrite A, B. apply div_nan_l.
Qed.

Lemma X15_witness :
  let s := mkState male 75 nan [beer25; mkDrink "q" "?" nan 5] in
  let d := mkDrink "q" "?" nan 5 in
  is_nan (st_hoursSinceStart s) = true /\ zeroCard (render s) = Some "NaNh NaNm"%string /\
  In d (st_drinks s) /\ (is_nan (volumeMl d) = true \/ is_nan (abv d) = true) /\
  (0 <? st_weight s) = true /\ out_peakBAC (render s) = nan.
Proof.
  cbn zeta.
  destruct (X15_NaN_propagates (mkState male 75 nan [beer25; mkDrink "q" "?" nan 5]))
    as [A B].
  assert (H : In (mkDrink "q" "?" nan 5)
                 (st_drinks (mkState male 75 nan [beer25; mkDrink "q" "?" nan 5])))
    by (right; left; reflexivity).
  split; [reflexivity|]. split; [apply (A eq_refl)|]. split; [exact H|].
  split; [left; reflexivity|]. split; [reflexivity|].
  apply (proj2 (B _ H (or_introl eq_refl))). reflexivity.
Defined.

Lemma fmtHM_minutes n :
  (0 <=? n) = true -> (n <=? 1e13) = true ->
  fmtHM n = Some (hm_string (Z.to_N (Qfloor (F2Q (n * 60) + (1 # 2))))).
Proof.
  intros L U. destruct (hours_in_range n L U) as (Fn & Fx & X0 & X1 & _).
  apply fmtHM_of_minutes; try assumption. reflexivity.
Qed.

Lemma fmtHM_monotone n1 n2 :
  (0 <=? n1) = true -> (n1 <=? n2) = true -> (n2 <=? 1e13) = true ->
  exists m1 m2 : N,
    fmtHM n1 = Some (hm_string m1) /\ fmtHM n2 = Some (hm_string m2) /\ (m1 <= m2)%N.
Proof.
  intros L0 L U.
  assert (U1 : (n1 <=? 1e13) = true).
  { destruct (leb_not_nan _ _ L) as [N1 _].
    apply leb_F2Q; [exact N1 | reflexivity|]. apply leb_true_F2Q in L, U. lra. }
  assert (L2 : (0 <=? n2) = true).
  { destruct (leb_not_nan _ _ L) as [_ N2].
    apply leb_F2Q; [reflexivity | exact N2|]. apply leb_true_F2Q in L, L0. lra. }
  eexists. eexists. split; [apply fmtHM_minutes; assumption|].
  split; [apply fmtHM_minutes; assumption|].
  destruct (hours_in_range n1 L0 U1) as (F1 & _ & _ & _ & V1 & _).
  destruct (hours_in_range n2 L2 U) as (F2 & _ & _ & _ & V2 & _).
  destruct (hours_in_range n1 L0 U1) as (_ & _ & X1 & _).
  destruct (hours_in_range n2 L2 U) as (_ & _ & X2 & _).
  apply leb_true_F2Q in L.
  assert (P : forall x, (0 <= x)%Q -> (0 <= Qfloor (x + (1 # 2)))%Z).
  { intros x Hx. change 0%Z with (Qfloor 0). apply Qfloor_resp_le. lra. }
  apply Z2N.inj_le; [apply P, X1 | apply P, X2 |].
  apply Qfloor_resp_le. rewrite V1, V2. apply Qplus_le_l, RN_mono. lra.
Qed.

(** X16. Within ten trillion hours [fmtHM] keeps the order of
    durations: a longer one never prints fewer minutes.  On the page, in a
    sane state whose time to zero is in that range, both waiting times are
    printed as whole hours and two-digit minutes, and the time to the legal
    threshold printed is never more than the time to zero printed. *)
Theorem X16_printed_durations_ordered :
  (forall n1 n2,
     (0 <=? n1) = true -> (n1 <=? n2) = true -> (n2 <=? 1e13) = true ->
     exists m1 m2 : N,
       fmtHM n1 = Some (hm_string m1) /\ fmtHM n2 = Some (hm_string m2) /\ (m1 <= m2)%N) /\
  (forall s,
     sane_state s = true -> (out_hoursToZero (render s) <=? 1e13) = true ->
     exists m1 m2 : N,
       legalCard (render s) = Some (hm_string m1) /\
       zeroCard (render s) = Some (hm_string m2) /\ (m1 <= m2)%N).
Proof.
  split; [exact fmtHM_monotone|].
  intros s S U. destruct (render_values s S) as (_ & _ & (Nc & _ & _) & Lz).
  destruct (sane_state_spec s S) as (_ & _ & Fh).
  unfold legalCard, zeroCard, render in *.
  cbn [out_grams out_peakBAC out_currentBAC out_hoursToLegal out_hoursToZero] in *.
  rewrite clamp_hoursToLegal by exact Nc.
  rewrite clamp_hoursToZero.
  - apply fmtHM_monotone; [| apply Fle_leb, Lz | exact U].
    apply NN_leb. apply Lz.
  - apply peakBAC_NN; [apply gramsPureAlcohol_NN|]; apply (sane_state_spec s S).
  - exact Fh.
Qed.

Lemma X16_witness :
  let s := mkState male 75 0.5 [beer50; beer50; wine12] in
  sane_state s = true /\ (out_hoursToZero (render s) <=? 1e13) = true /\
  exists m1 m2 : N,
    legalCard (render s) = Some (hm_string m1) /\
    zeroCard (render s) = Some (hm_string m2) /\ (m1 <= m2)%N.
Proof.
  cbn zeta. split; [reflexivity|]. split; [reflexivity|].
  apply (proj2 X16_printed_durations_ordered
           (mkState male 75 0.5 [beer50; beer50; wine12])); reflexivity.
Defined.

Lemma finite_cases x :
  is_finite x = true ->
  (exists s, Prim2SF x = S754_zero s) \/
  (exists s m e, Prim2SF x = S754_finite s m e /\
                 valid_binary (S754_finite false m e) = true /\
                 (F2Q x == inject_Z (cond_Zopp s (Z.pos m)) * pow2 e)%Q).
Proof.
  rewrite is_finite_spec. unfold F2Q. intros F. pose proof (Prim2SF_valid x) as V.
  destruct (Prim2SF x) as [s|s| |s m e]; try discriminate.
  - left. exists s. reflexivity.
  - right. exists s, m, e. split; [reflexivity|]. split; [exact V|].
    cbn [SF2Q]. destruct s; cbn [cond_Qopp cond_Zopp].
    + change (inject_Z (- Z.pos m)) with (- inject_Z (Z.pos m))%Q. ring.
    + reflexivity.
Qed.

Lemma cond_Zopp_abs s m : Z.abs (cond_Zopp s (Z.pos m)) = Z.pos m.
Proof. destruct s; reflexivity. Qed.

Lemma Qabs_dyadic s m e :
  (Qabs (inject_Z (cond_Zopp s (Z.pos m)) * pow2 e) == inject_Z (Z.pos m) * pow2 e)%Q.
Proof.
  pose proof (pow2_pos e) as P. pose proof (Zpos_Qpos m) as M.
  destruct s; cbn [cond_Zopp].
  - change (inject_Z (- Z.pos m)) with (- inject_Z (Z.pos m))%Q.
    rewrite Qabs_neg by nra. ring.
  - rewrite Qabs_pos by nra. reflexivity.
Qed.

Lemma floor_div_bound c d : (0 < d)%Z -> (Z.abs (c / d) <= Z.abs c)%Z.
Proof.
  intros H. pose proof (Z.div_mod c d ltac:(lia)). pose proof (Z.mod_pos_bound c d H). nia.
Qed.

Lemma Math_floor_int y :
  is_finite y = true -> (Qabs (F2Q y) < pow2 52)%Q ->
  is_int (JSfmt.Math_floor y) (Qfloor (F2Q y)).
Proof.
  intros F U. unfold JSfmt.Math_floor.
  destruct (finite_cases y F) as [[s E]|(s & m & e & E & V & Q)]; rewrite E.
  - split; [exact F|]. unfold F2Q. rewrite E. reflexivity.
  - rewrite Q, Qabs_dyadic in U. pose proof (small_exponent_neg m e V U) as He.
    assert (L : (0 <=? e)%Z = false) by (apply Z.leb_gt; exact He).
    rewrite L.
    assert (FL : Qfloor (F2Q y) = (cond_Zopp s (Z.pos m) / 2 ^ (- e))%Z).
    { rewrite (Qfloor_eq _ _ Q). rewrite (Qfloor_eq _ _ (dyadic_as_fraction _ e He)).
      symmetry. apply Zdiv_Qdiv. }
    rewrite FL. apply of_Z_is_int.
    assert (P2 : (0 < 2 ^ (- e))%Z) by (apply Z.pow_pos_nonneg; lia).
    destruct (valid_finite_bounds _ _ _ V) as (_ & Hm & _).
    pose proof (floor_div_bound (cond_Zopp s (Z.pos m)) _ P2) as B.
    rewrite cond_Zopp_abs in B. lia.
Qed.

Lemma Math_round_int x :
  is_finite x = true -> (Qabs (F2Q x) < pow2 52)%Q ->
  is_int (JSfmt.Math_round x) (Qfloor (F2Q x + (1 # 2))).
Proof.
  intros F U. unfold JSfmt.Math_round.
  destruct (finite_cases x F) as [[s E]|(s & m & e & E & V & Q)]; rewrite E.
  - split; [exact F|]. unfold F2Q. rewrite E. reflexivity.
  - rewrite Q, Qabs_dyadic in U. pose proof (small_exponent_neg m e V U) as He.
    assert (L : (0 <=? e)%Z = false) by (apply Z.leb_gt; exact He).
    rewrite L. cbv zeta.
    assert (P2 : (0 < 2 ^ (- e))%Z) by (apply Z.pow_pos_nonneg; lia).
    assert (P3 : (2 ^ (1 - e) = 2 * 2 ^ (- e))%Z).
    { replace (1 - e)%Z with (1 + - e)%Z by lia. rewrite Z.pow_add_r by lia. reflexivity. }
    assert (FL : Qfloor (F2Q x + (1 # 2)) =
                 ((2 * cond_Zopp s (Z.pos m) + 2 ^ (- e)) / 2 ^ (1 - e))%Z).
    { rewrite Zdiv_Qdiv. apply Qfloor_eq. rewrite Q, (dyadic_as_fraction _ e He).
      rewrite P3. rewrite inject_Z_plus, !inject_Z_mult.
      assert (0 < inject_Z (2 ^ (- e)))%Q
        by (change 0%Q with (inject_Z 0); rewrite <- Zlt_Qlt; exact P2).
      change (inject_Z 2) with 2%Q. field. lra. }
    rewrite FL.
    destruct ((((2 * cond_Zopp s (Z.pos m) + 2 ^ (- e)) / 2 ^ (1 - e)) =? 0)%Z && s) eqn:Z0.
    + apply andb_true_iff in Z0 as [Z0 _]. apply Z.eqb_eq in Z0. rewrite Z0.
      split; reflexivity.
    + apply of_Z_is_int.
      destruct (valid_finite_bounds _ _ _ V) as (_ & Hm & _).
      assert (P4 : (2 ^ 1 <= 2 ^ (- e))%Z) by (apply Z.pow_le_mono_r; lia).
      pose proof (Z.div_mod (2 * cond_Zopp s (Z.pos m) + 2 ^ (- e)) (2 ^ (1 - e))
                    ltac:(lia)) as DM.
      pose proof (Z.mod_pos_bound (2 * cond_Zopp s (Z.pos m) + 2 ^ (- e)) (2 ^ (1 - e))
                    ltac:(lia)) as MB.
      rewrite P3 in *. destruct s; cbn [cond_Zopp] in *; nia.
Qed.

Lemma is_int_zero x s k : Prim2SF x = S754_zero s -> is_int x k -> k = 0%Z.
Proof.
  intros E [_ V]. unfold F2Q in V. rewrite E in V. cbn [SF2Q] in V.
  apply inject_Z_inj. rewrite <- V. reflexivity.
Qed.

Lemma Number_toString_Z x k :
  is_int x k -> (Z.abs k <= 2 ^ 53)%Z -> JSfmt.Number_toString x = Some (zstring k).
Proof.
  intros I Hk. pose proof I as [F V]. unfold JSfmt.Number_toString.
  destruct (finite_cases x F) as [[s E]|(s & m & e & E & Vm & Q)]; rewrite E.
  - rewrite (is_int_zero x s k E I). reflexivity.
  - rewrite Q in V.
    assert (V' : (inject_Z (Z.pos m) * pow2 e == inject_Z (cond_Zopp s k))%Q).
    { destruct s; cbn [cond_Zopp] in *; [|exact V].
      change (inject_Z (- Z.pos m)) with (- inject_Z (Z.pos m))%Q in V.
      change (inject_Z (- k)) with (- inject_Z k)%Q. lra. }
    assert (KP : (0 < cond_Zopp s k)%Z).
    { rewrite Zlt_Qlt. rewrite <- V'. change (inject_Z 0) with 0%Q.
      pose proof (Zpos_Qpos m). pose proof (pow2_pos e). nra. }
    assert (ZS : zstring k = ((if s then "-" else "") ++
                              JSfmt.decimal (Z.to_N (cond_Zopp s k)))%string).
    { unfold zstring. destruct s; cbn [cond_Zopp] in *.
      - assert (C : (k <? 0)%Z = true) by (apply Z.ltb_lt; lia). rewrite C. reflexivity.
      - assert (C : (k <? 0)%Z = false) by (apply Z.ltb_ge; lia). rewrite C. reflexivity. }
    rewrite ZS.
    assert (KB : (cond_Zopp s k <= 2 ^ 53)%Z) by (destruct s; cbn [cond_Zopp]; lia).
    destruct (int_mantissa m e _ V') as [A B].
    destruct (Z.leb_spec 0 e) as [L|L].
    + specialize (A L). rewrite <- A.
      assert (C : (cond_Zopp s k <=? 2 ^ 53)%Z = true) by (apply Z.leb_le; lia).
      rewrite C. reflexivity.
    + specialize (B L). rewrite B.
      assert (P2 : (0 < 2 ^ (- e))%Z) by (apply Z.pow_pos_nonneg; lia).
      rewrite Z.mod_mul by lia. rewrite Z.div_mul by lia. reflexivity.
Qed.

Lemma int_exponent_nonpos m e k :
  valid_binary (S754_finite false m e) = true ->
  (inject_Z (Z.pos m) * pow2 e == inject_Z k)%Q -> (k < 2 ^ 53)%Z -> (e <= 0)%Z.
Proof.
  intros V H K. destruct (valid_finite_bounds _ _ _ V) as (_ & _ & Hn & _).
  destruct (Z_le_gt_dec e 0) as [L|G]; [exact L|exfalso].
  assert (M : (pow2 52 <= inject_Z (Z.pos m))%Q).
  { rewrite pow2_Z by lia. rewrite <- Zle_Qle. apply Hn. lia. }
  assert (E1 : (2 <= pow2 e)%Q) by (change 2%Q with (pow2 1); apply pow2_le; lia).
  assert (K2 : (pow2 53 == pow2 52 * 2)%Q) by reflexivity.
  assert (KA : (inject_Z k < pow2 53)%Q)
    by (rewrite pow2_Z by lia; rewrite <- Zlt_Qlt; lia).
  pose proof (pow2_pos 52). nra.
Qed.

(** The remainder of an integral number of either sign by a positive one. *)
Lemma rem_int a b ka kb :
  is_int a ka -> is_int b kb -> (Z.abs ka < 2 ^ 53)%Z -> (0 < kb < 2 ^ 53)%Z ->
  is_int (JSfmt.rem a b) (Z.rem ka kb).
Proof.
  intros Ia Ib Ha Hb. pose proof Ia as [Fa Va]. pose proof Ib as [Fb Vb].
  unfold JSfmt.rem.
  destruct (finite_cases b Fb) as [[sb Eb]|(sb & mb & eb & Eb & Vmb & Qb)].
  { exfalso. pose proof (is_int_zero b sb kb Eb Ib). lia. }
  rewrite Eb.
  destruct (finite_cases a Fa) as [[sa Ea]|(sa & ma & ea & Ea & Vma & Qa)]; rewrite Ea.
  { pose proof (is_int_zero a sa ka Ea Ia) as K0. subst ka.
    rewrite Z.rem_0_l by lia. exact Ia. }
  rewrite Qa in Va. rewrite Qb in Vb.
  assert (SB : sb = false).
  { destruct sb; [exfalso|reflexivity]. cbn [cond_Zopp] in Vb.
    change (inject_Z (- Z.pos mb)) with (- inject_Z (Z.pos mb))%Q in Vb.
    pose proof (Zpos_Qpos mb). pose proof (pow2_pos eb).
    assert (0 < inject_Z kb)%Q by (change 0%Q with (inject_Z 0); rewrite <- Zlt_Qlt; lia).
    nra. }
  subst sb. cbn [cond_Zopp] in Vb.
  assert (Va' : (inject_Z (Z.pos ma) * pow2 ea == inject_Z (cond_Zopp sa ka))%Q).
  { destruct sa; cbn [cond_Zopp] in *; [|exact Va].
    change (inject_Z (- Z.pos ma)) with (- inject_Z (Z.pos ma))%Q in Va.
    change (inject_Z (- ka)) with (- inject_Z ka)%Q. lra. }
  assert (NA : (ea <= 0)%Z).
  { apply (int_exponent_nonpos ma ea _ Vma Va'). destruct sa; cbn [cond_Zopp]; lia. }
  assert (NB : (eb <= 0)%Z) by (apply (int_exponent_nonpos mb eb _ Vmb Vb); lia).
  destruct (valid_finite_bounds _ _ _ Vma) as (Hea & _).
  destruct (valid_finite_bounds _ _ _ Vmb) as (Heb & _).
  cbv zeta.
  set (e := Z.min ea eb).
  assert (He : (-1074 <= e <= 0)%Z) by (unfold e; lia).
  assert (P2 : (0 < 2 ^ (- e))%Z) by (apply Z.pow_pos_nonneg; lia).
  assert (XA : (cond_Zopp sa (Z.pos ma * 2 ^ (ea - e)) = ka * 2 ^ (- e))%Z).
  { apply inject_Z_inj. rewrite inject_Z_mult. rewrite <- pow2_Z by lia.
    assert (PE : (0 < 2 ^ (ea - e))%Z) by (apply Z.pow_pos_nonneg; lia).
    assert (C : cond_Zopp sa (Z.pos ma * 2 ^ (ea - e))
                = (cond_Zopp sa (Z.pos ma) * 2 ^ (ea - e))%Z).
    { destruct sa; cbn [cond_Zopp]; lia. }
    rewrite C, inject_Z_mult. rewrite <- pow2_Z by lia.
    rewrite <- Va. rewrite <- Qmult_assoc.
    rewrite (pow2_split ea (- e) (ea - e)) by lia. reflexivity. }
  assert (XB : (Z.pos mb * 2 ^ (eb - e) = kb * 2 ^ (- e))%Z).
  { apply inject_Z_inj. rewrite !inject_Z_mult. rewrite <- !pow2_Z by lia.
    rewrite <- Vb. rewrite <- Qmult_assoc.
    rewrite (pow2_split eb (- e) (eb - e)) by lia. reflexivity. }
  rewrite XA, XB.
  rewrite Z.mul_rem_distr_r by lia.
  pose proof (Z.rem_bound_abs ka kb ltac:(lia)) as MB.
  destruct (Z.eqb_spec (Z.rem ka kb * 2 ^ (- e)) 0) as [Z0|NZ].
  - assert (R0 : Z.rem ka kb = 0%Z) by nia. rewrite R0.
    destruct sa; split; reflexivity.
  - set (r := Z.rem ka kb) in *.
    assert (PV : Prim2SF (SF2Prim (binary_normalize prec emax (r * 2 ^ (- e)) e false))
                 = binary_normalize prec emax (r * 2 ^ (- e)) e false).
    { apply Prim2SF_SF2Prim. apply binary_normalize_valid. }
    destruct (binary_normalize_RN (r * 2 ^ (- e)) e) as [S V].
    assert (VE : (inject_Z (r * 2 ^ (- e)) * pow2 e == inject_Z r)%Q).
    { rewrite inject_Z_mult. rewrite <- pow2_Z by lia. rewrite <- Qmult_assoc.
      rewrite (pow2_split (- e) e 0) by lia. change (pow2 0) with 1%Q. ring. }
    assert (VR : (SF2Q (binary_normalize prec emax (r * 2 ^ (- e)) e false) == inject_Z r)%Q).
    { rewrite V. rewrite (RN_Proper _ _ VE). apply RN_exact_int. lia. }
    assert (NaN : is_nan (SF2Prim (binary_normalize prec emax (r * 2 ^ (- e)) e false))
                  = false).
    { apply is_nan_false. rewrite PV. apply SFsign_not_nan. rewrite S. discriminate. }
    split.
    + apply (is_finite_F2Q _ NaN). unfold F2Q. rewrite PV, VR.
      pose proof pow2_53_lt_1024.
      assert (Qabs (inject_Z r) < pow2 53)%Q.
      { rewrite pow2_Z by lia. apply Qabs_inject_Z_lt. lia. }
      lra.
    + unfold F2Q. rewrite PV. exact VR.
Qed.

(** Dividing a whole number of minutes of either sign by 60 and flooring
    gives the floor of the exact quotient. *)
Lemma whole_hours_Z Tf T :
  is_int Tf T -> (Z.abs T < 2 ^ 50)%Z ->
  is_int (JSfmt.Math_floor (Tf / 60)) (T / 60).
Proof.
  intros [F V] HT.
  destruct (div_F2Q Tf 60 F eq_refl eq_refl) as [N Q]. rewrite V, F2Q_60 in Q.
  set (q := (T / 60)%Z).
  pose proof (Z.mod_pos_bound T 60 ltac:(lia)) as MB.
  pose proof (Z.div_mod T 60 ltac:(lia)) as DM. fold q in DM.
  assert (Q1 : (Z.abs q < 2 ^ 46)%Z) by lia.
  assert (TQ : (inject_Z T == 60 * inject_Z q + inject_Z (T mod 60))%Q).
  { rewrite DM at 1. rewrite inject_Z_plus, inject_Z_mult. reflexivity. }
  assert (R0 : (0 <= inject_Z (T mod 60))%Q) by (apply Zpos_Q; lia).
  assert (R1 : (inject_Z (T mod 60) <= 59)%Q).
  { change 59%Q with (inject_Z 59). rewrite <- Zle_Qle. lia. }
  assert (LO : (inject_Z q <= inject_Z T / 60)%Q).
  { apply Qle_shift_div_l; lra. }
  set (g := (inject_Z (64 * q + 63) * pow2 (-6))%Q).
  assert (GV : (g == inject_Z q + (63 # 64))%Q).
  { unfold g. rewrite inject_Z_plus, inject_Z_mult.
    assert (K : (pow2 (-6) == 1 # 64)%Q) by reflexivity. rewrite K.
    change (inject_Z 64) with 64%Q. change (inject_Z 63) with 63%Q. field. }
  assert (HI : (inject_Z T / 60 <= g)%Q).
  { apply Qle_shift_div_r; lra. }
  assert (QU : (Qabs (inject_Z q) < pow2 46)%Q).
  { rewrite pow2_Z by lia. apply Qabs_inject_Z_lt. exact Q1. }
  assert (P47 : (pow2 46 + pow2 46 == pow2 47)%Q).
  { rewrite <- (pow2_split 46 1 47) by lia. rewrite pow2_1. ring. }
  assert (P45 : (pow2 47 < pow2 52)%Q) by (apply pow2_lt; lia).
  assert (P52 : (pow2 52 < pow2 1024)%Q) by (apply pow2_lt; lia).
  assert (P1 : (1 <= pow2 46)%Q) by (change 1%Q with (pow2 0); apply pow2_le; lia).
  assert (QB : (- pow2 46 < inject_Z q /\ inject_Z q < pow2 46)%Q).
  { revert QU. apply Qabs_case; intros; lra. }
  assert (RG : (RN g == g)%Q).
  { unfold g. apply RN_exact_dyadic; [lia | lia |]. fold g. rewrite GV.
    apply Qabs_case; intros; lra. }
  assert (RQ : (RN (inject_Z q) == inject_Z q)%Q) by (apply RN_exact_int; lia).
  pose proof (RN_mono _ _ LO) as L1. pose proof (RN_mono _ _ HI) as L2.
  rewrite RQ in L1. rewrite RG in L2. rewrite <- Q in L1, L2.
  assert (FL : Qfloor (F2Q (Tf / 60)) = q) by (apply Qfloor_unique; lra).
  rewrite <- FL.
  assert (AB : (Qabs (F2Q (Tf / 60)) < pow2 52)%Q) by (apply Qabs_case; intros; lra).
  apply Math_floor_int; [|exact AB].
  apply (is_finite_F2Q _ N). lra.
Qed.

(** What [fmtHM] prints when the rounded product is the integer [T], of
    either sign. *)
Lemma fmtHM_of_signed_minutes n T :
  is_finite (n * 60) = true ->
  (Qabs (F2Q (n * 60)) <= inject_Z 600000000000000)%Q ->
  Qfloor (F2Q (n * 60) + (1 # 2)) = T ->
  fmtHM n = Some (hm_text T).
Proof.
  intros Fx U HT.
  assert (P50 : (pow2 50 < pow2 52)%Q) by (apply pow2_lt; lia).
  assert (B50 : (inject_Z 600000000000000 < pow2 50)%Q).
  { rewrite pow2_Z by lia. rewrite <- Zlt_Qlt. reflexivity. }
  assert (UB : (- inject_Z 600000000000000 <= F2Q (n * 60) /\
                F2Q (n * 60) <= inject_Z 600000000000000)%Q).
  { revert U. apply Qabs_case; intros; lra. }
  assert (I : is_int (JSfmt.Math_round (n * 60)) T).
  { rewrite <- HT. apply Math_round_int; [exact Fx | lra]. }
  destruct (Qfloor_bounds (F2Q (n * 60) + (1 # 2))) as [FB1 FB2]. rewrite HT in FB1, FB2.
  assert (T0 : (- 600000000000000 <= T)%Z).
  { apply Zlt_Q. change (inject_Z (-600000000000000)) with (- inject_Z 600000000000000)%Q.
    lra. }
  assert (T1 : (T <= 600000000000000)%Z).
  { apply Zlt_Q. lra. }
  pose proof (whole_hours_Z _ T I ltac:(lia)) as IH.
  pose proof (rem_int _ _ T 60 I is_int_60 ltac:(lia) ltac:(lia)) as IM.
  pose proof (Z.rem_bound_abs T 60 ltac:(lia)) as MB.
  pose proof (Z.div_mod T 60 ltac:(lia)) as DM.
  pose proof (Z.mod_pos_bound T 60 ltac:(lia)) as MP.
  unfold fmtHM. cbv zeta.
  rewrite (Number_toString_Z _ _ IH) by lia.
  rewrite (Number_toString_Z _ _ IM) by lia.
  reflexivity.
Qed.

Lemma F2Q_m1e13 : (F2Q (-1e13) == - inject_Z 10000000000000)%Q.
Proof. reflexivity. Qed.

Lemma signed_hours_in_range n :
  (-1e13 <=? n) = true -> (n <=? 1e13) = true ->
  is_finite n = true /\ is_finite (n * 60) = true /\
  (Qabs (F2Q (n * 60)) <= inject_Z 600000000000000)%Q /\
  (F2Q (n * 60) == RN (F2Q n * 60))%Q.
Proof.
  intros L U. destruct (leb_not_nan _ _ L) as [_ N].
  apply leb_true_F2Q in L, U. rewrite F2Q_m1e13 in L. rewrite F2Q_1e13 in U.
  assert (B : (inject_Z 10000000000000 * 60 == inject_Z 600000000000000)%Q) by reflexivity.
  assert (B50 : (inject_Z 600000000000000 < pow2 50)%Q).
  { rewrite pow2_Z by lia. rewrite <- Zlt_Qlt. reflexivity. }
  assert (P50 : (pow2 50 < pow2 1024)%Q) by (apply pow2_lt; lia).
  assert (Fn : is_finite n = true).
  { apply (is_finite_F2Q n N). apply Qabs_case; intros; lra. }
  destruct (mul_F2Q n 60 Fn eq_refl) as [Nx Vx]. rewrite F2Q_60 in Vx.
  assert (X1 : (F2Q (n * 60) <= inject_Z 600000000000000)%Q).
  { rewrite Vx. rewrite <- (RN_exact_int 600000000000000) by (cbn; lia).
    apply RN_mono. lra. }
  assert (X0 : (- inject_Z 600000000000000 <= F2Q (n * 60))%Q).
  { rewrite Vx. change (- inject_Z 600000000000000)%Q with (inject_Z (-600000000000000)).
    rewrite <- (RN_exact_int (-600000000000000)) by (cbn; lia).
    apply RN_mono. change (inject_Z (-600000000000000)) with (- inject_Z 600000000000000)%Q.
    lra. }
  assert (AB : (Qabs (F2Q (n * 60)) <= inject_Z 600000000000000)%Q)
    by (apply Qabs_case; intros; lra).
  split; [exact Fn|]. split; [|split; [exact AB | exact Vx]].
  apply (is_finite_F2Q _ Nx). lra.
Qed.

(** X17. [fmtHM] does not reject a negative duration, and the page
    passes the elapsed time to it as entered.  For every duration between
    minus and plus ten trillion hours, with T the rounded minutes, the
    hours printed are the floor of T / 60 and the minutes printed are the
    remainder of T by 60 with the sign of T.  For a negative T that is not
    a whole number of hours the two do not add up to T: they are an hour
    short, as in "-1h -30m" for minus half an hour; between minus half a
    minute and zero the text is "0h 00m". *)
Theorem X17_fmtHM_negative_durations (n : float) :
  (-1e13 <=? n) = true -> (n <=? 1e13) = true ->
  let T := Qfloor (F2Q (n * 60) + (1 # 2)) in
  fmtHM n = Some (hm_text T) /\
  ((n <=? 0) = true ->
   (T <= 0)%Z /\
   (Z.rem T 60 <> 0%Z -> (T / 60 * 60 + Z.rem T 60 = T - 60)%Z) /\
   (T = 0%Z -> fmtHM n = Some "0h 00m"%string)) /\
  fmtHM (-0.5) = Some "-1h -30m"%string /\
  elapsedText (mkState male 75 (-0.5) []) = Some "-1h -30m"%string.
Proof.
  intros L U. cbn zeta. destruct (signed_hours_in_range n L U) as (Fn & Fx & AB & Vx).
  pose proof (fmtHM_of_signed_minutes n _ Fx AB eq_refl) as H.
  split; [exact H|]. split; [|split; reflexivity].
  intros NP. apply leb_true_F2Q in NP. rewrite F2Q_0 in NP.
  assert (X0 : (F2Q (n * 60) <= 0)%Q).
  { rewrite Vx, <- RN_0_eq. apply RN_mono. lra. }
  assert (T0 : (Qfloor (F2Q (n * 60) + (1 # 2)) <= 0)%Z).
  { change 0%Z with (Qfloor (1 # 2)). apply Qfloor_resp_le. lra. }
  split; [exact T0|]. split.
  - set (T := Qfloor (F2Q (n * 60) + (1 # 2))) in *. intros R.
    pose proof (Z.div_mod T 60 ltac:(lia)) as DM.
    pose proof (Z.mod_pos_bound T 60 ltac:(lia)) as MP.
    pose proof (Z.rem_bound_pos_neg T 60 ltac:(lia) ltac:(lia)) as RB.
    pose proof (Z.quot_rem T 60 ltac:(lia)) as QR.
    lia.
  - intros E. rewrite H, E. reflexivity.
Qed.

Lemma X17_witness :
  (-1e13 <=? -1.75) = true /\ (-1.75 <=? 1e13) = true /\ (-1.75 <=? 0) = true /\
  fmtHM (-1.75) = Some (hm_text (Qfloor (F2Q (-1.75 * 60) + (1 # 2)))) /\
  (Qfloor (F2Q (-1.75 * 60) + (1 # 2)) <= 0)%Z.
Proof.
  split; [reflexivity|]. split; [reflexivity|]. split; [reflexivity|].
  destruct (X17_fmtHM_negative_durations (-1.75) eq_refl eq_refl) as (A & B & _).
  split; [exact A | apply (B eq_refl)].
Defined.
